(** * Second Brain: the knowledge-retrieval core

    A shallow embedding of the knowledge base (`knowledge_base.rs`), the
    entity engine (`entities.rs`) and the retrieval of the assistant
    (`llm_agent.rs`) as the implementation log records them, with the
    properties of the retrieval core stated and proved over it.

    The store is SurrealDB in the program; here it is a record of tables.
    Tables addressed by record id are finite maps, the others are lists of
    rows.  Every `async fn ... -> Result<T, String>` becomes a function into
    [Result T]; a method that writes takes the store and returns the new
    one.

    The front end (`smart-turn.ts`, `audio-pipeline.ts` and the views) is
    embedded as well: a JavaScript string is its sequence of UTF-16 code
    units, a `number` is a binary64 float, and an object that is reached
    through references lives in a store of objects. *)

From Stdlib Require Import ZArith QArith Ascii.
From Stdlib Require PrimFloat.
From stdpp Require Import gmap strings list.
From stdpp Require Import sorting pretty.
Import (notations) PrimFloat.
#[local] Set Warnings "-inexact-float".

Local Open Scope Z_scope.

(** ** Results *)

Inductive Result (A : Type) : Type :=
| Ok (a : A)
| Err (e : string).
Arguments Ok {A} a.
Arguments Err {A} e.

Definition is_ok {A} (r : Result A) : bool :=
  match r with Ok _ => true | Err _ => false end.

Definition unwrap_or {A} (o : option A) (d : A) : A :=
  match o with Some a => a | None => d end.

(** ** Strings, as Rust's `str` methods use them *)

Fixpoint strip_prefix (s prefix : string) {struct prefix} : option string :=
  match prefix with
  | EmptyString => Some s
  | String p prefix' =>
      match s with
      | EmptyString => None
      | String c s' =>
          if bool_decide (c = p) then strip_prefix s' prefix' else None
      end
  end.

Definition starts_with (s prefix : string) : bool :=
  match strip_prefix s prefix with Some _ => true | None => false end.

(** `str::contains` with a string pattern. *)
Fixpoint contains (s pat : string) : bool :=
  starts_with s pat ||
  match s with
  | EmptyString => false
  | String _ s' => contains s' pat
  end.

(** `str::split` with a string pattern (non-empty here).  [cur] is the
    piece read so far, in reverse; the fuel is the length of the input. *)
Fixpoint rev_string (acc s : string) : string :=
  match s with
  | EmptyString => acc
  | String c s' => rev_string (String c acc) s'
  end.

Fixpoint split_go (fuel : nat) (s pat cur : string) : list string :=
  match fuel with
  | O => [rev_string "" cur]
  | S fuel' =>
      match s with
      | EmptyString => [rev_string "" cur]
      | String c s' =>
          match strip_prefix s pat with
          | Some rest => rev_string "" cur :: split_go fuel' rest pat ""
          | None => split_go fuel' s' pat (String c cur)
          end
      end
  end.

Definition split (s pat : string) : list string :=
  split_go (String.length s) s pat "".

(** `[..].join(sep)`, the inverse of [split]. *)
Definition join (sep : string) (pieces : list string) : string :=
  match pieces with
  | [] => ""
  | piece :: pieces' =>
      piece +:+ foldr (λ p acc, sep +:+ p +:+ acc) "" pieces'
  end.

(** ** The data model *)

Definition Embedding : Type := list Q.

Record KnowledgeSource := {
  ks_url : string;
  ks_title : string;
  ks_source_type : string;
  ks_raw_content : string;
  ks_tags : list string;
  ks_created_at : Z;
  ks_last_updated : Z
}.

(** A row of `knowledge_source` as it is read back: either it deserializes
    into the struct, or it does not (the log's serialization error). *)
Inductive SourceRow :=
| Row (s : KnowledgeSource)
| Malformed.

Record KnowledgeChunk := {
  kc_source_id : string;
  kc_text : string;
  kc_chunk_index : Z;
  kc_embedding : Embedding
}.

Record Meeting := {
  m_title : string;
  m_start_time : Z;
  m_end_time : option Z;
  m_participants : list string;
  m_summary : option string
}.

Record TranscriptSegment := {
  seg_meeting_id : string;
  seg_speaker : string;
  seg_text : string;
  seg_start_ms : Z;
  seg_end_ms : Z;
  seg_embedding : Embedding
}.

Record ActionItem := {
  ai_meeting_id : string;
  ai_text : string;
  ai_assignee : option string;
  ai_deadline : option string;
  ai_status : string;
  ai_created_at : Z
}.

(** The struct `Decision` of the program; the name is taken by the
    decidability class of the library. *)
Record MeetingDecision := {
  dec_meeting_id : string;
  dec_text : string;
  dec_participants : list string;
  dec_created_at : Z
}.

Record Person := {
  person_name : string;
  person_first_seen : Z;
  person_last_seen : Z
}.

Record Topic := {
  topic_name : string;
  topic_mention_count : Z;
  topic_last_mentioned : Z
}.

Record EntityRelation := {
  rel_source_entity : string;
  rel_source_type : string;
  rel_relation : string;
  rel_target_entity : string;
  rel_target_type : string;
  rel_confidence : Q;
  rel_meeting_id : option string;
  rel_knowledge_source_id : option string;
  rel_created_at : Z
}.

Record MeetingKnowledge := {
  mk_meeting_id : string;
  mk_source_id : string;
  mk_relevance_score : Q;
  mk_assigned_by : string
}.

(** A graph edge `mentioned_in` (person -> meeting) or `discussed_in`
    (topic -> meeting): the name of the node and the meeting id. *)
Record Edge := {
  edge_in : string;
  edge_meeting_id : string
}.

Global Instance Edge_eq_dec : EqDecision Edge.
Proof. solve_decision. Defined.

Record Store := {
  meeting : gmap string Meeting;
  segment : list TranscriptSegment;
  action_item : list ActionItem;
  decision : list MeetingDecision;
  person : list Person;
  topic : list Topic;
  entity_relation : list EntityRelation;
  knowledge_source : gmap string SourceRow;
  knowledge_chunk : list KnowledgeChunk;
  meeting_knowledge : list MeetingKnowledge;
  mentioned_in : list Edge;
  discussed_in : list Edge
}.

(** Writing one table; the others stay. *)
Definition with_meeting (st : Store) (v : gmap string Meeting) : Store :=
  {| meeting := v; segment := segment st; action_item := action_item st;
     decision := decision st; person := person st; topic := topic st;
     entity_relation := entity_relation st;
     knowledge_source := knowledge_source st;
     knowledge_chunk := knowledge_chunk st;
     meeting_knowledge := meeting_knowledge st;
     mentioned_in := mentioned_in st; discussed_in := discussed_in st |}.

Definition with_segment (st : Store) (v : list TranscriptSegment) : Store :=
  {| meeting := meeting st; segment := v; action_item := action_item st;
     decision := decision st; person := person st; topic := topic st;
     entity_relation := entity_relation st;
     knowledge_source := knowledge_source st;
     knowledge_chunk := knowledge_chunk st;
     meeting_knowledge := meeting_knowledge st;
     mentioned_in := mentioned_in st; discussed_in := discussed_in st |}.

Definition with_action_item (st : Store) (v : list ActionItem) : Store :=
  {| meeting := meeting st; segment := segment st; action_item := v;
     decision := decision st; person := person st; topic := topic st;
     entity_relation := entity_relation st;
     knowledge_source := knowledge_source st;
     knowledge_chunk := knowledge_chunk st;
     meeting_knowledge := meeting_knowledge st;
     mentioned_in := mentioned_in st; discussed_in := discussed_in st |}.

Definition with_decision (st : Store) (v : list MeetingDecision) : Store :=
  {| meeting := meeting st; segment := segment st;
     action_item := action_item st; decision := v; person := person st;
     topic := topic st; entity_relation := entity_relation st;
     knowledge_source := knowledge_source st;
     knowledge_chunk := knowledge_chunk st;
     meeting_knowledge := meeting_knowledge st;
     mentioned_in := mentioned_in st; discussed_in := discussed_in st |}.

Definition with_person (st : Store) (v : list Person) : Store :=
  {| meeting := meeting st; segment := segment st;
     action_item := action_item st; decision := decision st; person := v;
     topic := topic st; entity_relation := entity_relation st;
     knowledge_source := knowledge_source st;
     knowledge_chunk := knowledge_chunk st;
     meeting_knowledge := meeting_knowledge st;
     mentioned_in := mentioned_in st; discussed_in := discussed_in st |}.

Definition with_topic (st : Store) (v : list Topic) : Store :=
  {| meeting := meeting st; segment := segment st;
     action_item := action_item st; decision := decision st;
     person := person st; topic := v;
     entity_relation := entity_relation st;
     knowledge_source := knowledge_source st;
     knowledge_chunk := knowledge_chunk st;
     meeting_knowledge := meeting_knowledge st;
     mentioned_in := mentioned_in st; discussed_in := discussed_in st |}.

Definition with_entity_relation (st : Store) (v : list EntityRelation) : Store :=
  {| meeting := meeting st; segment := segment st;
     action_item := action_item st; decision := decision st;
     person := person st; topic := topic st; entity_relation := v;
     knowledge_source := knowledge_source st;
     knowledge_chunk := knowledge_chunk st;
     meeting_knowledge := meeting_knowledge st;
     mentioned_in := mentioned_in st; discussed_in := discussed_in st |}.

Definition with_knowledge_source (st : Store) (v : gmap string SourceRow) : Store :=
  {| meeting := meeting st; segment := segment st;
     action_item := action_item st; decision := decision st;
     person := person st; topic := topic st;
     entity_relation := entity_relation st; knowledge_source := v;
     knowledge_chunk := knowledge_chunk st;
     meeting_knowledge := meeting_knowledge st;
     mentioned_in := mentioned_in st; discussed_in := discussed_in st |}.

Definition with_knowledge_chunk (st : Store) (v : list KnowledgeChunk) : Store :=
  {| meeting := meeting st; segment := segment st;
     action_item := action_item st; decision := decision st;
     person := person st; topic := topic st;
     entity_relation := entity_relation st;
     knowledge_source := knowledge_source st; knowledge_chunk := v;
     meeting_knowledge := meeting_knowledge st;
     mentioned_in := mentioned_in st; discussed_in := discussed_in st |}.

Definition with_meeting_knowledge (st : Store) (v : list MeetingKnowledge) : Store :=
  {| meeting := meeting st; segment := segment st;
     action_item := action_item st; decision := decision st;
     person := person st; topic := topic st;
     entity_relation := entity_relation st;
     knowledge_source := knowledge_source st;
     knowledge_chunk := knowledge_chunk st; meeting_knowledge := v;
     mentioned_in := mentioned_in st; discussed_in := discussed_in st |}.

Definition with_mentioned_in (st : Store) (v : list Edge) : Store :=
  {| meeting := meeting st; segment := segment st;
     action_item := action_item st; decision := decision st;
     person := person st; topic := topic st;
     entity_relation := entity_relation st;
     knowledge_source := knowledge_source st;
     knowledge_chunk := knowledge_chunk st;
     meeting_knowledge := meeting_knowledge st; mentioned_in := v;
     discussed_in := discussed_in st |}.

Definition with_discussed_in (st : Store) (v : list Edge) : Store :=
  {| meeting := meeting st; segment := segment st;
     action_item := action_item st; decision := decision st;
     person := person st; topic := topic st;
     entity_relation := entity_relation st;
     knowledge_source := knowledge_source st;
     knowledge_chunk := knowledge_chunk st;
     meeting_knowledge := meeting_knowledge st;
     mentioned_in := mentioned_in st; discussed_in := v |}.

(** ** Knowledge sources and chunks *)

(** The id part of a source id: `get_knowledge_source` strips the table
    name when the full Thing string is passed. *)
Definition id_part (source_id : string) : string :=
  if starts_with source_id "knowledge_source:"
  then unwrap_or (strip_prefix source_id "knowledge_source:") source_id
  else source_id.

(** Modelled from the spec: the store lookup that `get_knowledge_source`
    runs on the id part is elided in the log.  A missing record is
    `Ok(None)` (NotFound on a tolerant read path); a record that does not
    deserialize is an error (MalformedRecord). *)
Definition select_knowledge_source (tbl : gmap string SourceRow) (id : string)
  : Result (option KnowledgeSource) :=
  match tbl !! id with
  | None => Ok None
  | Some (Row s) => Ok (Some s)
  | Some Malformed => Err "Serialization error"
  end.

Definition get_knowledge_source (st : Store) (source_id : string)
  : Result (option KnowledgeSource) :=
  select_knowledge_source (knowledge_source st) (id_part source_id).

(** `SELECT source_id FROM knowledge_chunk GROUP BY source_id`. *)
Definition chunk_source_ids (st : Store) : list string :=
  remove_dups (kc_source_id <$> knowledge_chunk st).

(** `DELETE FROM knowledge_chunk WHERE source_id = $source_id`. *)
Definition delete_chunks_where (st : Store) (source_id : string) : Store :=
  with_knowledge_chunk st
    (filter (λ c, kc_source_id c ≠ source_id) (knowledge_chunk st)).

(** The loop of `cleanup_orphaned_chunks` over the rows of the GROUP BY.
    `source_id` is a string field of a SCHEMAFULL table, so the
    `if let Some(source_id)` of the loop always matches and a row is its
    string.  The `?` on the lookup leaves the loop with the rows deleted so
    far; `deleted_count` is a `usize` and is bounded by the number of chunk
    rows, so it does not wrap. *)
Fixpoint cleanup_loop (rows : list string) (st : Store) (deleted_count : nat)
  : Store * Result nat :=
  match rows with
  | [] => (st, Ok deleted_count)
  | source_id :: rows' =>
      match get_knowledge_source st source_id with
      | Err e => (st, Err e)
      | Ok None =>
          cleanup_loop rows' (delete_chunks_where st source_id)
            (S deleted_count)
      | Ok (Some _) => cleanup_loop rows' st deleted_count
      end
  end.

Definition cleanup_orphaned_chunks (st : Store) : Store * Result nat :=
  cleanup_loop (chunk_source_ids st) st 0%nat.

(** ** Collaborators

    The embedding engine, the store's `vector::similarity::cosine`, the
    GLiNER inference of the entity engine and the text splitter of the
    chunker are outside the core.  They are taken as given: an inference
    may fail, and the similarity is a number whose arithmetic (f32 in the
    program) plays no part below. *)

(** An extracted entity: its text and its label, as in
    `[("knowledge base", "topic")]`. *)
Definition Entity : Type := string * string.

Record Relationship := {
  r_source : string;
  r_source_type : string;
  r_relation : string;
  r_target : string;
  r_target_type : string;
  r_confidence : Q
}.

(** A chunk of the chunker, "with position metadata": its text and its
    index, a `usize`. *)
Record Chunk := {
  ch_text : string;
  ch_chunk_index : Z
}.

Record Engines := {
  embed : string → Result Embedding;
  cosine : Embedding → Embedding → Q;
  extract_entities : string → Result (list Entity);
  try_extract_relationships : string → list Entity → Result (list Relationship);
  chunk_markdown : string → list Chunk
}.

(** The store's side of `add_knowledge_source`.  The statements that
    write the source row are elided in the log, and a record id is the
    store's own: [create_source] stands for them, with the arguments of
    the call; it gives the store they leave and the `source_id` the loops
    go on with, or their error (the `url` index is UNIQUE, the store may
    be unreachable).  Nothing is assumed of it.  `knowledge_chunk` has no
    unique index: a `create` on it adds the row, or fails and adds
    nothing; [create_error] tells which, for a store and a row. *)
Record Db := {
  create_source :
    Store → string → string → string → string → list string
    → Store * Result string;
  create_error : Store → KnowledgeChunk → option string
}.

(** ** Vector search *)

Record KnowledgeSearchResult := {
  chunk : KnowledgeChunk;
  source_title : string;
  source_url : string;
  similarity : Q
}.

(** `SELECT id FROM knowledge_source WHERE tags CONTAINSANY $tags`; chunks
    store the id as the full Thing string. *)
Definition contains_any (have want : list string) : bool :=
  bool_decide (Exists (λ t, t ∈ want) have).

Definition tagged_source_ids (st : Store) (tags : list string) : list string :=
  omap (λ kv, match kv.2 with
              | Row s => if contains_any (ks_tags s) tags
                         then Some ("knowledge_source:" +:+ kv.1) else None
              | Malformed => None
              end)
       (map_to_list (knowledge_source st)).

(** `ORDER BY similarity DESC`, as an insertion sort on the pairs. *)
Fixpoint insert_desc (x : KnowledgeChunk * Q) (l : list (KnowledgeChunk * Q))
  : list (KnowledgeChunk * Q) :=
  match l with
  | [] => [x]
  | y :: l' => if Qle_bool y.2 x.2 then x :: l else y :: insert_desc x l'
  end.

Definition order_by_similarity_desc (l : list (KnowledgeChunk * Q))
  : list (KnowledgeChunk * Q) :=
  foldr insert_desc [] l.

(** The rows the similarity query ranks: every chunk, or, when tags are
    given, the chunks `WHERE source_id IN (SELECT id ...)`. *)
Definition candidate_chunks (st : Store) (tags : option (list string))
  : list KnowledgeChunk :=
  match tags with
  | None => knowledge_chunk st
  | Some tags =>
      filter (λ c, kc_source_id c ∈ tagged_source_ids st tags)
             (knowledge_chunk st)
  end.

(** The similarity query of `search_knowledge`: rank the candidates and
    keep `LIMIT $limit` rows. *)
Definition query_chunks (E : Engines) (st : Store) (query_embedding : Embedding)
    (limit : nat) (tags : option (list string)) : list (KnowledgeChunk * Q) :=
  take limit
    (order_by_similarity_desc
       ((λ c, (c, cosine E (kc_embedding c) query_embedding))
          <$> candidate_chunks st tags)).

(** Session 15, fix 1: the hit is kept when its source cannot be resolved. *)
Definition resolve_hit (st : Store) (hit : KnowledgeChunk * Q)
  : KnowledgeSearchResult :=
  let chunk_sim := hit.1 in
  let '(source_title, source_url) :=
    match get_knowledge_source st (kc_source_id chunk_sim) with
    | Ok (Some source) => (ks_title source, ks_url source)
    | Ok None => ("Source " +:+ kc_source_id chunk_sim, "")
    | Err e => ("Source " +:+ kc_source_id chunk_sim, "")
    end in
  {| chunk := chunk_sim; source_title := source_title;
     source_url := source_url; similarity := hit.2 |}.

Definition search_knowledge (E : Engines) (st : Store) (query : string)
    (limit : nat) (tags : option (list string))
  : Result (list KnowledgeSearchResult) :=
  match embed E query with
  | Err e => Err e
  | Ok query_embedding =>
      Ok (resolve_hit st <$> query_chunks E st query_embedding limit tags)
  end.

(** ** Temporal parser *)

(** A time window `[start, end)`, in milliseconds like every timestamp of
    the store. *)
Record Window := {
  w_start : Z;
  w_end : Z
}.

Definition in_window (w : Window) (t : Z) : bool :=
  (w_start w <=? t) && (t <? w_end w).

Definition DAY_MS : Z := 86400000.
Definition HOUR_MS : Z := 3600000.

(** The window centered at [center], [half] wide on each side. *)
Definition centered (center half : Z) : Window :=
  {| w_start := center - half; w_end := center + half |}.

Definition digit_value (c : ascii) : option Z :=
  let n := Z.of_nat (nat_of_ascii c) in
  if (48 <=? n) && (n <=? 57) then Some (n - 48) else None.

(** Reads the longest run of decimal digits at the head of [s]: its value
    (if the run is not empty) and what follows it. *)
Fixpoint read_number (s : string) (acc : option Z) : option Z * string :=
  match s with
  | EmptyString => (acc, s)
  | String c s' =>
      match digit_value c with
      | Some d => read_number s' (Some (10 * unwrap_or acc 0 + d))
      | None => (acc, s)
      end
  end.

(** A number followed by [unit] at the head of [s]. *)
Definition count_here (s unit : string) : option Z :=
  let '(n, rest) := read_number s None in
  if starts_with rest unit then n else None.

(** The leftmost `N<unit>` in [text], as a regex search for `(\d+)<unit>`
    finds it. *)
Fixpoint find_count (text unit : string) : option Z :=
  match count_here text unit with
  | Some n => Some n
  | None =>
      match text with
      | EmptyString => None
      | String _ text' => find_count text' unit
      end
  end.

(** The value of a string of decimal digits, for stating what
    [find_count] finds. *)
Fixpoint decimal (acc : Z) (ds : string) : option Z :=
  match ds with
  | EmptyString => Some acc
  | String c ds' =>
      match digit_value c with
      | Some d => decimal (10 * acc + d) ds'
      | None => None
      end
  end.

(** The text does not go on with a digit. *)
Definition no_digit_ahead (s : string) : Prop :=
  match s with
  | EmptyString => True
  | String c _ => digit_value c = None
  end.

(** Modelled from the spec: `parse_temporal` is named in the log with the
    phrases it supports, its code is not there.  The rules of section 4.3,
    in the order of the table, the first that matches wins. *)
Definition parse_temporal (text : string) (now : Z) : option Window :=
  match find_count text " weeks ago" with
  | Some n => Some (centered (now - 7 * n * DAY_MS) (84 * HOUR_MS))
  | None =>
  match find_count text " days ago" with
  | Some n => Some (centered (now - n * DAY_MS) (12 * HOUR_MS))
  | None =>
  if contains text "last week" then
    Some {| w_start := now - 14 * DAY_MS; w_end := now - 7 * DAY_MS |}
  else if contains text "last month" then
    Some {| w_start := now - 30 * DAY_MS; w_end := now |}
  else if contains text "yesterday" then
    Some {| w_start := now - 2 * DAY_MS; w_end := now - 1 * DAY_MS |}
  else None
  end end.

(** The table of section 4.3 in terms of the text.  Digits that read [n]
    stand in [text] right after [before] and right before [unit]. *)
Definition count_at (text unit before : string) (n : Z) : Prop :=
  ∃ digits after,
    text = before +:+ digits +:+ unit +:+ after
    ∧ digits ≠ "" ∧ decimal 0 digits = Some n.

(** The text holds a number right before [unit]. *)
Definition mentions_count (text unit : string) : Prop :=
  ∃ before n, count_at text unit before n.

(** [n] is the number of the first `N<unit>` of the text: none starts
    further left. *)
Definition first_count (text unit : string) (n : Z) : Prop :=
  ∃ before,
    count_at text unit before n
    ∧ ∀ before' n', count_at text unit before' n' →
                    (String.length before ≤ String.length before')%nat.

(** The text holds the phrase. *)
Definition mentions (text phrase : string) : Prop :=
  ∃ before after, text = before +:+ phrase +:+ after.

(** ** Ingesting a knowledge source *)

(** Session 16, graceful relationship extraction: no relation inference
    without entities, and a failing relation inference gives no relations. *)
Definition extract_with_relations (E : Engines) (text : string)
  : Result (list Entity * list Relationship) :=
  match extract_entities E text with
  | Err e => Err e
  | Ok entities =>
      if bool_decide (entities = []) then Ok (entities, [])
      else
        let relationships :=
          match try_extract_relationships E text entities with
          | Ok rels => rels
          | Err _ => []
          end in
        Ok (entities, relationships)
  end.

(** `usize as i32`: the low 32 bits, read as a signed number. *)
Definition as_i32 (n : Z) : Z := (n + 2 ^ 31) mod 2 ^ 32 - 2 ^ 31.

(** `self.db.create("knowledge_chunk").content(kb_chunk).await`. *)
Definition create_knowledge_chunk (D : Db) (st : Store)
    (kb_chunk : KnowledgeChunk) : Store * Result unit :=
  match create_error D st kb_chunk with
  | Some e => (st, Err e)
  | None =>
      (with_knowledge_chunk st (knowledge_chunk st ++ [kb_chunk]), Ok ())
  end.

(** The embedding loop of `add_knowledge_source`: a failing embedding and
    a failing `create` leave with `?`, the chunks stored so far stay. *)
Fixpoint store_chunks (E : Engines) (D : Db) (source_id : string)
    (chunks : list Chunk) (st : Store) : Store * Result unit :=
  match chunks with
  | [] => (st, Ok ())
  | chunk :: chunks' =>
      match embed E (ch_text chunk) with
      | Err e => (st, Err e)
      | Ok embedding =>
          let kb_chunk :=
            {| kc_source_id := source_id; kc_text := ch_text chunk;
               kc_chunk_index := as_i32 (ch_chunk_index chunk);
               kc_embedding := embedding |} in
          match create_knowledge_chunk D st kb_chunk with
          | (st, Err e) => (st, Err e)
          | (st, Ok _) => store_chunks E D source_id chunks' st
          end
      end
  end.

(** The row the loop writes for a chunk and its embedding. *)
Definition kb_chunk_of (source_id : string) (chunk : Chunk)
    (embedding : Embedding) : KnowledgeChunk :=
  {| kc_source_id := source_id; kc_text := ch_text chunk;
     kc_chunk_index := as_i32 (ch_chunk_index chunk);
     kc_embedding := embedding |}.

Definition to_lower (c : ascii) : ascii :=
  let n := nat_of_ascii c in
  if ((65 <=? n) && (n <=? 90))%nat then ascii_of_nat (n + 32) else c.

Fixpoint normalize_name (s : string) : string :=
  match s with
  | EmptyString => EmptyString
  | String c s' => String (to_lower c) (normalize_name s')
  end.

(** Upsert by normalized name: bump the node if it is there, create it
    otherwise. *)
Definition upsert_person (now : Z) (name : string) (people : list Person)
  : list Person :=
  let key := normalize_name name in
  if bool_decide (Exists (λ p, person_name p = key) people) then
    (λ p, if bool_decide (person_name p = key)
          then {| person_name := key; person_first_seen := person_first_seen p;
                  person_last_seen := now |}
          else p) <$> people
  else people ++ [ {| person_name := key; person_first_seen := now;
                      person_last_seen := now |} ].

Definition upsert_topic (now : Z) (name : string) (topics : list Topic)
  : list Topic :=
  let key := normalize_name name in
  if bool_decide (Exists (λ t, topic_name t = key) topics) then
    (λ t, if bool_decide (topic_name t = key)
          then {| topic_name := key;
                  topic_mention_count := topic_mention_count t + 1;
                  topic_last_mentioned := now |}
          else t) <$> topics
  else topics ++ [ {| topic_name := key; topic_mention_count := 1;
                      topic_last_mentioned := now |} ].

Definition is_topic_label (label : string) : bool :=
  bool_decide (label ∈ ["topic"; "project"; "product"; "organization"]).

(** Modelled from the spec: `process_entities_for_source` is in the log by
    its description: people go to the `person` table, topics, projects,
    products and organizations to the `topic` table. *)
Definition process_entities_for_source (now : Z) (st : Store)
    (source_id : string) (entities : list Entity) : Store :=
  foldl (λ st '(text, label),
           if bool_decide (label = "person")
           then with_person st (upsert_person now text (person st))
           else if is_topic_label label
           then with_topic st (upsert_topic now text (topic st))
           else st)
        st entities.

(** Modelled from the spec: `process_relationships_for_source` stores the
    relations with `knowledge_source_id`. *)
Definition process_relationships_for_source (now : Z) (st : Store)
    (source_id : string) (relationships : list Relationship) : Store :=
  with_entity_relation st
    (entity_relation st ++
     ((λ r, {| rel_source_entity := r_source r;
              rel_source_type := r_source_type r;
              rel_relation := r_relation r;
              rel_target_entity := r_target r;
              rel_target_type := r_target_type r;
              rel_confidence := r_confidence r;
              rel_meeting_id := None;
              rel_knowledge_source_id := Some source_id;
              rel_created_at := now |}) <$> relationships)).

(** The sample: `content.split("\n\n").filter(|s| s.len() > 50).take(20)`. *)
Definition text_chunks (content : string) : list string :=
  take 20 (filter (λ s, (50 < String.length s)%nat) (split content "

")).

(** The sample as the spec words it: paragraphs of at least 50 characters. *)
Definition text_chunks_at_least_50 (content : string) : list string :=
  take 20 (filter (λ s, (50 ≤ String.length s)%nat) (split content "

")).

(** One turn of the extraction loop; both `process_*` results go through
    `.ok()`, a failing extraction is printed and skipped. *)
Definition extract_step (E : Engines) (source_id : string) (now : Z)
    (st : Store) (text_chunk : string) : Store :=
  match extract_with_relations E text_chunk with
  | Ok (entities, relationships) =>
      let st := process_entities_for_source now st source_id entities in
      process_relationships_for_source now st source_id relationships
  | Err e => st
  end.

(** `add_knowledge_source`: the source row, the chunks with their
    embeddings, then the extraction over the sample ("after chunking";
    the run of the log prints the chunks before the entities).  [now] is
    the clock reading the upserts of the extraction use. *)
Definition add_knowledge_source (E : Engines) (D : Db) (st : Store) (now : Z)
    (url title content source_type : string) (tags : list string)
  : Store * Result string :=
  match create_source D st url title content source_type tags with
  | (st, Err e) => (st, Err e)
  | (st, Ok source_id) =>
      let chunks := chunk_markdown E content in
      match store_chunks E D source_id chunks st with
      | (st, Err e) => (st, Err e)
      | (st, Ok _) =>
          (foldl (extract_step E source_id now) st (text_chunks content),
           Ok source_id)
      end
  end.

(** ** Graph-RAG query *)

(** The context bundle, one field per section, in the order of the
    context document. *)
Record GraphContext := {
  gc_temporal : option Window;
  gc_entities : list Entity;
  gc_related_meetings : list (string * Meeting);
  gc_related_people : list Person;
  gc_related_topics : list Topic;
  gc_open_action_items : list ActionItem;
  gc_recent_decisions : list MeetingDecision;
  gc_similar_chunks : list KnowledgeSearchResult
}.

(** Newest first: an insertion sort on a timestamp, descending. *)
Fixpoint insert_newest {A} (key : A → Z) (x : A) (l : list A) : list A :=
  match l with
  | [] => [x]
  | y :: l' => if key y <=? key x then x :: l else y :: insert_newest key x l'
  end.

Definition newest_first {A} (key : A → Z) (l : list A) : list A :=
  foldr (insert_newest key) [] l.

(** A text references an extracted entity when it contains the entity's
    text, names normalized. *)
Definition references (entities : list Entity) (text : string) : bool :=
  existsb (λ e : Entity, contains (normalize_name text) (normalize_name e.1))
          entities.

Definition is_extracted (entities : list Entity) (name : string) : bool :=
  bool_decide (normalize_name name ∈ (λ e : Entity, normalize_name e.1) <$> entities).

Definition in_window_opt (window : option Window) (t : Z) : bool :=
  match window with
  | Some w => in_window w t
  | None => true
  end.

(** Step 3a: the meetings whose title or segments reference an extracted
    entity, inside the window if there is one, newest first, capped. *)
Definition get_related_meetings (st : Store) (entities : list Entity)
    (window : option Window) (limit : nat) : list (string * Meeting) :=
  take limit
    (newest_first (λ im : string * Meeting, m_start_time im.2)
       (List.filter
          (λ im : string * Meeting,
             (references entities (m_title im.2)
              || existsb (λ seg, bool_decide (seg_meeting_id seg = im.1)
                                 && references entities (seg_text seg))
                         (segment st))
             && in_window_opt window (m_start_time im.2))
          (map_to_list (meeting st)))).

Definition relation_in_meetings (meeting_ids : list string) (r : EntityRelation)
  : bool :=
  match rel_meeting_id r with
  | Some m => bool_decide (m ∈ meeting_ids)
  | None => false
  end.

(** Step 3b: the people linked by an entity relation to an extracted
    entity or to a related meeting. *)
Definition get_related_people (st : Store) (entities : list Entity)
    (meeting_ids : list string) : list Person :=
  List.filter
    (λ p,
       existsb
         (λ r,
            (bool_decide (normalize_name (rel_source_entity r) = person_name p)
             && (is_extracted entities (rel_target_entity r)
                 || relation_in_meetings meeting_ids r))
            || (bool_decide (normalize_name (rel_target_entity r) = person_name p)
                && (is_extracted entities (rel_source_entity r)
                    || relation_in_meetings meeting_ids r)))
         (entity_relation st))
    (person st).

(** Step 3c: the topics whose name is that of an extracted entity. *)
Definition get_topic_context (st : Store) (entities : list Entity) : list Topic :=
  List.filter (λ t, is_extracted entities (topic_name t)) (topic st).

Definition scoped_to (meeting_ids : list string) (meeting_id : string) : bool :=
  match meeting_ids with
  | [] => true
  | _ => bool_decide (meeting_id ∈ meeting_ids)
  end.

(** Step 4: action items that are neither done nor completed, of the
    related meetings if there are any. *)
Definition get_open_action_items (st : Store) (meeting_ids : list string)
  : list ActionItem :=
  List.filter
    (λ a, negb (bool_decide (ai_status a ∈ ["done"; "completed"]))
          && scoped_to meeting_ids (ai_meeting_id a))
    (action_item st).

(** Step 5: the most recent decisions, of the related meetings if there
    are any, global otherwise. *)
Definition get_recent_decisions (st : Store) (meeting_ids : list string)
    (limit : nat) : list MeetingDecision :=
  take limit
    (newest_first dec_created_at
       (List.filter (λ d, scoped_to meeting_ids (dec_meeting_id d)) (decision st))).

(** Modelled from the spec: step 1 of section 4.4, best-effort: the
    entities extracted from the question; a failing extraction is
    contained (section 7) and gives none. *)
Definition question_entities (E : Engines) (question : string) : list Entity :=
  match extract_entities E question with
  | Ok entities => entities
  | Err _ => []
  end.

(** Modelled from the spec: step 6 of section 4.4, independent of steps
    3 to 5 and best-effort: the hits of the vector search; a failing
    search gives an empty section. *)
Definition vector_section (E : Engines) (st : Store) (question : string)
    (limit : nat) : list KnowledgeSearchResult :=
  match search_knowledge E st question limit None with
  | Ok results => results
  | Err _ => []
  end.

(** Modelled from the spec: `graph_rag_query` is named in the log with its
    flow and its output, its code is not there.  Section 4.4, steps 1 to
    6, with its guarantee: the engine always returns a bundle, no section
    aborts another, and the vector search is independent of the graph
    sections.  The call has a `Result` type in the program (`ask` matches
    on it); the store of this model is always reachable, so nothing here
    makes it `Err`. *)
Definition graph_rag_query (E : Engines) (st : Store) (question : string)
    (limit : nat) (now : Z) : Result GraphContext :=
  let entities := question_entities E question in
  let window := parse_temporal question now in
  let meetings := get_related_meetings st entities window limit in
  let meeting_ids := fst <$> meetings in
  Ok {| gc_temporal := window;
        gc_entities := entities;
        gc_related_meetings := meetings;
        gc_related_people := get_related_people st entities meeting_ids;
        gc_related_topics := get_topic_context st entities;
        gc_open_action_items := get_open_action_items st meeting_ids;
        gc_recent_decisions := get_recent_decisions st meeting_ids limit;
        gc_similar_chunks := vector_section E st question limit |}.

(** The bundle of the fallback path: the vector-search section alone. *)
Definition vector_only (results : list KnowledgeSearchResult) : GraphContext :=
  {| gc_temporal := None; gc_entities := []; gc_related_meetings := [];
     gc_related_people := []; gc_related_topics := [];
     gc_open_action_items := []; gc_recent_decisions := [];
     gc_similar_chunks := results |}.

(** The retrieval of `ask` (Session 16 addendum), over the two methods
    of the knowledge base it calls: the context of the Graph-RAG query for
    five results or, when that query fails, the plain vector search for
    five, whose error leaves with `?`. *)
Definition ask_retrieval
    (graph_rag_query : string → nat → Result GraphContext)
    (search_knowledge : string → nat → option (list string)
                        → Result (list KnowledgeSearchResult))
    (question : string) : Result GraphContext :=
  match graph_rag_query question 5%nat with
  | Ok graph_context => Ok graph_context
  | Err e =>
      match search_knowledge question 5%nat None with
      | Ok results => Ok (vector_only results)
      | Err e' => Err e'
      end
  end.

(** The retrieval of `ask` on a knowledge base, at the clock reading
    [now]. *)
Definition ask_context (E : Engines) (st : Store) (question : string) (now : Z)
  : Result GraphContext :=
  ask_retrieval (λ question limit, graph_rag_query E st question limit now)
                (search_knowledge E st) question.

(** The bundle is entirely empty: the case the assistant answers without
    calling the model. *)
Definition is_empty_context (c : GraphContext) : bool :=
  bool_decide (gc_temporal c = None)
  && bool_decide (length (gc_entities c) = 0%nat)
  && bool_decide (length (gc_related_meetings c) = 0%nat)
  && bool_decide (length (gc_related_people c) = 0%nat)
  && bool_decide (length (gc_related_topics c) = 0%nat)
  && bool_decide (length (gc_open_action_items c) = 0%nat)
  && bool_decide (length (gc_recent_decisions c) = 0%nat)
  && bool_decide (length (gc_similar_chunks c) = 0%nat).

(** ** Reading the cleanup loop

    Two functions of the source table and the rows the loop walks: the ids
    whose chunks the loop has deleted when it stops (the orphaned ids met
    before the first failing lookup), and the error it stops with, if any. *)

Fixpoint deleted_ids (tbl : gmap string SourceRow) (rows : list string)
  : list string :=
  match rows with
  | [] => []
  | source_id :: rows' =>
      match select_knowledge_source tbl (id_part source_id) with
      | Err _ => []
      | Ok None => source_id :: deleted_ids tbl rows'
      | Ok (Some _) => deleted_ids tbl rows'
      end
  end.

Fixpoint first_error (tbl : gmap string SourceRow) (rows : list string)
  : option string :=
  match rows with
  | [] => None
  | source_id :: rows' =>
      match select_knowledge_source tbl (id_part source_id) with
      | Err e => Some e
      | Ok _ => first_error tbl rows'
      end
  end.

(** A chunk is orphaned when the id part of its `source_id` names no row of
    `knowledge_source`. *)
Definition orphaned (st : Store) (source_id : string) : Prop :=
  knowledge_source st !! id_part source_id = None.

Global Instance orphaned_dec st source_id : Decision (orphaned st source_id).
Proof. unfold orphaned. destruct (knowledge_source st !! id_part source_id); [right|left]; done. Defined.

(** ** Meetings *)

(** Per-meeting accessors, scoped by `meeting_id`.  Modelled from the
    spec: the log lists them by signature only. *)
Definition get_meeting (st : Store) (meeting_id : string) : option Meeting :=
  meeting st !! meeting_id.

Definition get_meeting_segments (st : Store) (meeting_id : string)
  : list TranscriptSegment :=
  filter (λ x, seg_meeting_id x = meeting_id) (segment st).

Definition get_meeting_action_items (st : Store) (meeting_id : string)
  : list ActionItem :=
  filter (λ x, ai_meeting_id x = meeting_id) (action_item st).

Definition get_meeting_decisions (st : Store) (meeting_id : string)
  : list MeetingDecision :=
  filter (λ x, dec_meeting_id x = meeting_id) (decision st).

(** Topics and people of a meeting: the nodes with a `discussed_in` or
    `mentioned_in` edge to it. *)
Definition get_meeting_topics (st : Store) (meeting_id : string) : list Topic :=
  filter (λ t, {| edge_in := topic_name t; edge_meeting_id := meeting_id |}
               ∈ discussed_in st) (topic st).

Definition get_meeting_people (st : Store) (meeting_id : string) : list Person :=
  filter (λ p, {| edge_in := person_name p; edge_meeting_id := meeting_id |}
               ∈ mentioned_in st) (person st).

Definition get_meeting_relations (st : Store) (meeting_id : string)
  : list EntityRelation :=
  filter (λ r, rel_meeting_id r = Some meeting_id) (entity_relation st).

(** The links of a meeting to knowledge sources (`get_meeting_knowledge`
    resolves them to the sources). *)
Definition get_meeting_knowledge_links (st : Store) (meeting_id : string)
  : list MeetingKnowledge :=
  filter (λ l, mk_meeting_id l = meeting_id) (meeting_knowledge st).

Definition get_meeting_knowledge (st : Store) (meeting_id : string)
  : list KnowledgeSource :=
  omap (λ l, match knowledge_source st !! id_part (mk_source_id l) with
             | Some (Row s) => Some s
             | _ => None
             end)
       (get_meeting_knowledge_links st meeting_id).

(** The statements of `delete_meeting`, one per line of the delete flow. *)
Inductive Statement :=
| DeleteSegments (meeting_id : string)
| DeleteActionItems (meeting_id : string)
| DeleteDecisions (meeting_id : string)
| DeleteEntityRelations (meeting_id : string)
| DeleteMeetingKnowledge (meeting_id : string)
| DeleteMentionedInEdges (meeting_id : string)
| DeleteDiscussedInEdges (meeting_id : string)
| DeleteMeetingRecord (meeting_id : string).

(** Running one statement.  A `DELETE ... WHERE meeting_id = ?` that
    matches nothing succeeds; deleting the meeting record of an id that is
    not there is the NotFound error of the operation's primary target. *)
Definition execute (stmt : Statement) (st : Store) : Result Store :=
  match stmt with
  | DeleteSegments id =>
      Ok (with_segment st (filter (λ x, seg_meeting_id x ≠ id) (segment st)))
  | DeleteActionItems id =>
      Ok (with_action_item st
            (filter (λ x, ai_meeting_id x ≠ id) (action_item st)))
  | DeleteDecisions id =>
      Ok (with_decision st (filter (λ x, dec_meeting_id x ≠ id) (decision st)))
  | DeleteEntityRelations id =>
      Ok (with_entity_relation st
            (filter (λ r, rel_meeting_id r ≠ Some id) (entity_relation st)))
  | DeleteMeetingKnowledge id =>
      Ok (with_meeting_knowledge st
            (filter (λ l, mk_meeting_id l ≠ id) (meeting_knowledge st)))
  | DeleteMentionedInEdges id =>
      Ok (with_mentioned_in st
            (filter (λ e, edge_meeting_id e ≠ id) (mentioned_in st)))
  | DeleteDiscussedInEdges id =>
      Ok (with_discussed_in st
            (filter (λ e, edge_meeting_id e ≠ id) (discussed_in st)))
  | DeleteMeetingRecord id =>
      match meeting st !! id with
      | Some _ => Ok (with_meeting st (delete id (meeting st)))
      | None => Err "Meeting not found"
      end
  end.

Fixpoint execute_all (script : list Statement) (st : Store) : Result Store :=
  match script with
  | [] => Ok st
  | stmt :: script' =>
      match execute stmt st with
      | Ok st' => execute_all script' st'
      | Err e => Err e
      end
  end.

Definition delete_meeting_cascade (meeting_id : string) : list Statement :=
  [ DeleteSegments meeting_id; DeleteActionItems meeting_id;
    DeleteDecisions meeting_id; DeleteEntityRelations meeting_id;
    DeleteMeetingKnowledge meeting_id; DeleteMentionedInEdges meeting_id;
    DeleteDiscussedInEdges meeting_id ].

(** Modelled from the spec: `delete_meeting` is described in the log by
    the list of its deletes, its code is not there.  The cascade runs
    first, the meeting row goes last; a failure is an error and the caller
    keeps the store it had (all-or-nothing). *)
Definition delete_meeting (st : Store) (meeting_id : string) : Result Store :=
  execute_all (delete_meeting_cascade meeting_id ++ [DeleteMeetingRecord meeting_id])
              st.

(** ** Speaker relabeling *)

(** `(start_ms, end_ms, speaker_id, speaker_label)`. *)
Definition DiarizationRange : Type := Z * Z * Z * string.

Definition range_start (r : DiarizationRange) : Z := r.1.1.1.
Definition range_end (r : DiarizationRange) : Z := r.1.1.2.
Definition range_label (r : DiarizationRange) : string := r.2.

Definition midpoint (seg : TranscriptSegment) : Z :=
  (seg_start_ms seg + seg_end_ms seg) / 2.

(** A midpoint falls inside a range when it lies between its two ends, the
    ends included: a point on the boundary of two ranges is inside both. *)
Definition covers (r : DiarizationRange) (mid : Z) : bool :=
  (range_start r <=? mid) && (mid <=? range_end r).

Definition earlier_of (r r' : DiarizationRange) : DiarizationRange :=
  if range_start r' <? range_start r then r' else r.

(** The range a midpoint resolves to: of the ranges it falls inside, the
    earliest. *)
Fixpoint resolve_range (diarization : list DiarizationRange) (mid : Z)
  : option DiarizationRange :=
  match diarization with
  | [] => None
  | r :: rest =>
      if covers r mid then
        Some (match resolve_range rest mid with
              | Some r' => earlier_of r r'
              | None => r
              end)
      else resolve_range rest mid
  end.

(** The generic label: system audio is stored as "Guest". *)
Definition is_generic_label (speaker : string) : bool :=
  bool_decide (speaker = "Guest").

Definition with_speaker (seg : TranscriptSegment) (speaker : string)
  : TranscriptSegment :=
  {| seg_meeting_id := seg_meeting_id seg; seg_speaker := speaker;
     seg_text := seg_text seg; seg_start_ms := seg_start_ms seg;
     seg_end_ms := seg_end_ms seg; seg_embedding := seg_embedding seg |}.

(** The new label of a segment, if `relabel_speakers` rewrites it. *)
Definition new_label (meeting_id : string) (diarization : list DiarizationRange)
    (seg : TranscriptSegment) : option string :=
  if bool_decide (seg_meeting_id seg = meeting_id)
     && is_generic_label (seg_speaker seg)
  then range_label <$> resolve_range diarization (midpoint seg)
  else None.

Definition relabel_segment (meeting_id : string)
    (diarization : list DiarizationRange) (seg : TranscriptSegment)
  : TranscriptSegment :=
  match new_label meeting_id diarization seg with
  | Some label => with_speaker seg label
  | None => seg
  end.

(** Modelled from the spec: `relabel_speakers` is in the log by signature
    and a three-line description (finds the "Guest" segments of the
    meeting, matches segment midpoints to the diarization ranges, updates
    the labels).  It returns the number of segments it rewrote. *)
Definition relabel_speakers (st : Store) (meeting_id : string)
    (diarization : list DiarizationRange) : Store * Result nat :=
  (with_segment st (relabel_segment meeting_id diarization <$> segment st),
   Ok (length (filter (λ seg, is_Some (new_label meeting_id diarization seg))
                      (segment st)))).

(** Ranges that do not overlap: of two ranges at different positions, one
    ends where or before the other starts. *)
Definition non_overlapping (diarization : list DiarizationRange) : Prop :=
  ∀ i j r r', i ≠ j → diarization !! i = Some r → diarization !! j = Some r' →
              range_end r ≤ range_start r' ∨ range_end r' ≤ range_start r.

(** ** Deleting a knowledge source *)

(** Session 15, fix 2: the chunks are deleted under both spellings of the
    id, then the source row.  A `DELETE` that matches nothing succeeds.  The
    deleted row comes back as `Option<KnowledgeSource>`: a row that does not
    deserialize is gone from the table all the same, and the call returns
    the error. *)
Definition delete_knowledge_source (st : Store) (source_id : string)
  : Store * Result unit :=
  let full_source_id :=
    if starts_with source_id "knowledge_source:" then source_id
    else "knowledge_source:" +:+ source_id in
  let short_id :=
    unwrap_or (strip_prefix source_id "knowledge_source:") source_id in
  let st1 :=
    with_knowledge_chunk st
      (filter (λ c, ¬ (kc_source_id c = full_source_id
                       ∨ kc_source_id c = short_id))
              (knowledge_chunk st)) in
  (with_knowledge_source st1 (delete short_id (knowledge_source st1)),
   match knowledge_source st1 !! short_id with
   | Some Malformed => Err "Serialization error"
   | _ => Ok ()
   end).

(** No chunk of the store is orphaned. *)
Definition no_orphans (st : Store) : Prop :=
  ∀ c, c ∈ knowledge_chunk st → ¬ orphaned st (kc_source_id c).

(** ** Stereo to mono (`lib.rs`) *)

(** The `f32` operations `stereo_to_mono` uses; their rounding plays no
    part below. *)
Record F32Ops (F : Type) := {
  f32_zero : F;
  f32_add : F → F → F;
  f32_div : F → F → F;
  f32_of_usize : nat → F
}.
Arguments f32_zero {F} _.
Arguments f32_add {F} _ _ _.
Arguments f32_div {F} _ _ _.
Arguments f32_of_usize {F} _ _.

(** The inner loop: the sum of one frame.  `samples[i]` panics out of
    bounds; `None` is the panic. *)
Definition frame_sum {F} (ops : F32Ops F) (samples : list F)
    (channels frame : nat) : option F :=
  foldl (λ sum ch,
           match sum, samples !! (frame * channels + ch)%nat with
           | Some sum, Some x => Some (f32_add ops sum x)
           | _, _ => None
           end)
        (Some (f32_zero ops)) (seq 0 channels).

Definition stereo_to_mono {F} (ops : F32Ops F) (samples : list F)
    (channels : nat) : option (list F) :=
  if bool_decide (channels ≤ 1)%nat then Some samples
  else
    let num_frames := (length samples / channels)%nat in
    mapM (λ frame,
            match frame_sum ops samples channels frame with
            | Some sum => Some (f32_div ops sum (f32_of_usize ops channels))
            | None => None
            end)
         (seq 0 num_frames).

(** ** JavaScript strings and regular expressions (`smart-turn.ts`) *)

Module Js.

(** A string is its sequence of UTF-16 code units. *)
Definition JsString := list N.

Definition js (s : string) : JsString :=
  N_of_ascii <$> String.list_ascii_of_string s.

(** `WhiteSpace` and `LineTerminator` of ECMAScript, what
    `String.prototype.trim` strips. *)
Definition is_white_space (u : N) : bool :=
  existsb (N.eqb u)
          [9; 10; 11; 12; 13; 32; 160; 5760; 8232; 8233; 8239; 8287; 12288;
           65279]%N
  || ((8192 <=? u) && (u <=? 8202))%N.

Fixpoint trimStart (s : JsString) : JsString :=
  match s with
  | u :: s' => if is_white_space u then trimStart s' else s
  | [] => []
  end.

Definition trimEnd (s : JsString) : JsString :=
  reverse (trimStart (reverse s)).

Definition trim (s : JsString) : JsString := trimEnd (trimStart s).

(** The fragment of regular expressions the service uses: a sequence of
    characters, optional characters (`c?`), character classes (`[abc]`) and
    the end-of-input assertion (`$`), with or without the `i` flag. *)
Inductive Atom :=
| Char (c : N)
| Optional (c : N)
| OneOf (cs : list N)
| EndOfInput.

Record RegExp := {
  atoms : list Atom;
  ignoreCase : bool
}.

(** `Canonicalize` without the `u` flag.  On ASCII it is `toUpperCase`; a
    code unit of 128 or more never canonicalizes to one below 128, and the
    patterns hold ASCII only, so leaving such a unit as it is decides the
    same matches. *)
Definition canonicalize (u : N) : N :=
  if ((97 <=? u) && (u <=? 122))%N then (u - 32)%N else u.

Definition same (i : bool) (u c : N) : bool :=
  if i then (canonicalize u =? canonicalize c)%N else (u =? c)%N.

(** A match of [re] starting at the head of [t]. *)
Fixpoint match_here (i : bool) (re : list Atom) (t : JsString) : bool :=
  match re with
  | [] => true
  | Char c :: re' =>
      match t with
      | u :: t' => same i u c && match_here i re' t'
      | [] => false
      end
  | Optional c :: re' =>
      match t with
      | u :: t' => same i u c && match_here i re' t'
      | [] => false
      end
      || match_here i re' t
  | OneOf cs :: re' =>
      match t with
      | u :: t' => existsb (same i u) cs && match_here i re' t'
      | [] => false
      end
  | EndOfInput :: re' =>
      match t with
      | [] => match_here i re' t
      | _ :: _ => false
      end
  end.

(** A match starting anywhere. *)
Fixpoint search (i : bool) (re : list Atom) (t : JsString) : bool :=
  match_here i re t
  || match t with
     | [] => false
     | _ :: t' => search i re t'
     end.

(** `RegExp.prototype.test`, for an expression without the `g` and `y`
    flags. *)
Definition test (re : RegExp) (t : JsString) : bool :=
  search (ignoreCase re) (atoms re) t.

Definition lit (s : string) : list Atom := Char <$> js s.

End Js.

(** ** Transcription results (`transcription.ts`) *)

Module Transcription.

Inductive Source := microphone | system.

(** The fields of `TranscriptionResult` the pipeline reads.  A `number` is
    a binary64 float. *)
Record TranscriptionResult := {
  text : Js.JsString;
  isFinal : bool;
  source : Source;
  timestamp : PrimFloat.float
}.

End Transcription.

(** ** Smart turn detection (`smart-turn.ts`) *)

Module SmartTurn.

Inductive TurnEndReason :=
| silence
| sentence_complete
| turn_phrase
| question
| continued.

Record TurnResult := {
  speakerDone : bool;
  confidence : PrimFloat.float;
  reason : TurnEndReason;
  source : Transcription.Source;
  timestamp : PrimFloat.float
}.

Definition TURN_PHRASES : list Js.RegExp :=
  let i atoms := {| Js.atoms := atoms; Js.ignoreCase := true |} in
  [ i (Js.lit "what do you think" ++ [Js.Optional 63; Js.EndOfInput]);
    i (Js.lit "over to you" ++ [Js.Optional 46; Js.EndOfInput]);
    i (Js.lit "your thoughts" ++ [Js.Optional 63; Js.EndOfInput]);
    i (Js.lit "go ahead" ++ [Js.Optional 46; Js.EndOfInput]);
    i (Js.lit "please respond" ++ [Js.Optional 46; Js.EndOfInput]);
    i (Js.lit "any questions" ++ [Js.Optional 63; Js.EndOfInput]);
    i (Js.lit "does that make sense" ++ [Js.Optional 63; Js.EndOfInput]);
    i (Js.lit "you know" ++ [Js.Char 63; Js.EndOfInput]);
    i (Js.lit "right" ++ [Js.Char 63; Js.EndOfInput]) ]%N.

(** The endings the turn phrases accept, written in lower case: each
    phrase, with and without the mark its expression makes optional. *)
Definition turn_phrase_endings : list Js.JsString :=
  Js.js <$>
  [ "what do you think"; "what do you think?";
    "over to you"; "over to you.";
    "your thoughts"; "your thoughts?";
    "go ahead"; "go ahead.";
    "please respond"; "please respond.";
    "any questions"; "any questions?";
    "does that make sense"; "does that make sense?";
    "you know?";
    "right?" ].

(** [t] ends with [ending], up to the case of ASCII letters. *)
Definition ends_with_ignoring_case (t ending : Js.JsString) : Prop :=
  ∃ before after,
    t = before ++ after
    ∧ Js.canonicalize <$> after = Js.canonicalize <$> ending.

(** `/[.!?]$/` and `/\?$/`. *)
Definition SENTENCE_ENDINGS : Js.RegExp :=
  {| Js.atoms := [Js.OneOf [46; 33; 63]%N; Js.EndOfInput];
     Js.ignoreCase := false |}.

Definition QUESTION_ENDINGS : Js.RegExp :=
  {| Js.atoms := [Js.Char 63%N; Js.EndOfInput]; Js.ignoreCase := false |}.

Record TurnState := {
  isSpeaking : bool;
  lastSpeechTime : PrimFloat.float;
  silenceDuration : PrimFloat.float;
  currentText : Js.JsString;
  isFinal : bool;
  hasSentenceEnding : bool;
  hasQuestion : bool;
  hasTurnPhrase : bool
}.

Record SmartTurnConfig := {
  minSilenceForTurn : PrimFloat.float;
  maxSilenceBeforeCutoff : PrimFloat.float;
  sentenceCompleteBonus : PrimFloat.float;
  turnPhraseBonus : PrimFloat.float;
  questionPenalty : PrimFloat.float;
  baseSilenceConfidence : PrimFloat.float
}.

(** `Partial<SmartTurnConfig>`: [None] is a property that is not there. *)
Record PartialConfig := {
  p_minSilenceForTurn : option PrimFloat.float;
  p_maxSilenceBeforeCutoff : option PrimFloat.float;
  p_sentenceCompleteBonus : option PrimFloat.float;
  p_turnPhraseBonus : option PrimFloat.float;
  p_questionPenalty : option PrimFloat.float;
  p_baseSilenceConfidence : option PrimFloat.float
}.

Definition no_overrides : PartialConfig :=
  {| p_minSilenceForTurn := None; p_maxSilenceBeforeCutoff := None;
     p_sentenceCompleteBonus := None; p_turnPhraseBonus := None;
     p_questionPenalty := None; p_baseSilenceConfidence := None |}.

(** Assignments to the fields of a state object. *)
Definition set_isSpeaking (v : bool) (s : TurnState) : TurnState :=
  {| isSpeaking := v; lastSpeechTime := lastSpeechTime s;
     silenceDuration := silenceDuration s; currentText := currentText s;
     isFinal := isFinal s; hasSentenceEnding := hasSentenceEnding s;
     hasQuestion := hasQuestion s; hasTurnPhrase := hasTurnPhrase s |}.

Definition set_lastSpeechTime (v : PrimFloat.float) (s : TurnState)
  : TurnState :=
  {| isSpeaking := isSpeaking s; lastSpeechTime := v;
     silenceDuration := silenceDuration s; currentText := currentText s;
     isFinal := isFinal s; hasSentenceEnding := hasSentenceEnding s;
     hasQuestion := hasQuestion s; hasTurnPhrase := hasTurnPhrase s |}.

Definition set_silenceDuration (v : PrimFloat.float) (s : TurnState)
  : TurnState :=
  {| isSpeaking := isSpeaking s; lastSpeechTime := lastSpeechTime s;
     silenceDuration := v; currentText := currentText s;
     isFinal := isFinal s; hasSentenceEnding := hasSentenceEnding s;
     hasQuestion := hasQuestion s; hasTurnPhrase := hasTurnPhrase s |}.

Definition set_currentText (v : Js.JsString) (s : TurnState) : TurnState :=
  {| isSpeaking := isSpeaking s; lastSpeechTime := lastSpeechTime s;
     silenceDuration := silenceDuration s; currentText := v;
     isFinal := isFinal s; hasSentenceEnding := hasSentenceEnding s;
     hasQuestion := hasQuestion s; hasTurnPhrase := hasTurnPhrase s |}.

Definition set_isFinal (v : bool) (s : TurnState) : TurnState :=
  {| isSpeaking := isSpeaking s; lastSpeechTime := lastSpeechTime s;
     silenceDuration := silenceDuration s; currentText := currentText s;
     isFinal := v; hasSentenceEnding := hasSentenceEnding s;
     hasQuestion := hasQuestion s; hasTurnPhrase := hasTurnPhrase s |}.

Definition set_hasSentenceEnding (v : bool) (s : TurnState) : TurnState :=
  {| isSpeaking := isSpeaking s; lastSpeechTime := lastSpeechTime s;
     silenceDuration := silenceDuration s; currentText := currentText s;
     isFinal := isFinal s; hasSentenceEnding := v;
     hasQuestion := hasQuestion s; hasTurnPhrase := hasTurnPhrase s |}.

Definition set_hasQuestion (v : bool) (s : TurnState) : TurnState :=
  {| isSpeaking := isSpeaking s; lastSpeechTime := lastSpeechTime s;
     silenceDuration := silenceDuration s; currentText := currentText s;
     isFinal := isFinal s; hasSentenceEnding := hasSentenceEnding s;
     hasQuestion := v; hasTurnPhrase := hasTurnPhrase s |}.

Definition set_hasTurnPhrase (v : bool) (s : TurnState) : TurnState :=
  {| isSpeaking := isSpeaking s; lastSpeechTime := lastSpeechTime s;
     silenceDuration := silenceDuration s; currentText := currentText s;
     isFinal := isFinal s; hasSentenceEnding := hasSentenceEnding s;
     hasQuestion := hasQuestion s; hasTurnPhrase := v |}.

(** The service.  `micState` and `systemState` hold references to state
    objects: [objects] is the store of the state objects created so far,
    and a reference is an index into it.  [callback] tells whether a
    callback is set; a call of it is returned to the caller. *)
Record SmartTurnService := {
  callback : bool;
  micState : nat;
  systemState : nat;
  objects : list TurnState;
  config : SmartTurnConfig
}.

Definition createInitialState : TurnState :=
  {| isSpeaking := false; lastSpeechTime := 0; silenceDuration := 0;
     currentText := []; isFinal := false; hasSentenceEnding := false;
     hasQuestion := false; hasTurnPhrase := false |}.

(** The defaults of the constructor, and `...config` over them. *)
Definition spread (overrides : PartialConfig) : SmartTurnConfig :=
  {| minSilenceForTurn := default 700%float (p_minSilenceForTurn overrides);
     maxSilenceBeforeCutoff :=
       default 2000%float (p_maxSilenceBeforeCutoff overrides);
     sentenceCompleteBonus :=
       default 0.3%float (p_sentenceCompleteBonus overrides);
     turnPhraseBonus := default 0.4%float (p_turnPhraseBonus overrides);
     questionPenalty := default 0.2%float (p_questionPenalty overrides);
     baseSilenceConfidence :=
       default 0.5%float (p_baseSilenceConfidence overrides) |}.

Definition new (overrides : PartialConfig) : SmartTurnService :=
  {| callback := false; micState := 0; systemState := 1;
     objects := [createInitialState; createInitialState];
     config := spread overrides |}.

(** The singleton `smartTurn`. *)
Definition smartTurn : SmartTurnService := new no_overrides.

Definition onTurn (svc : SmartTurnService) : SmartTurnService :=
  {| callback := true; micState := micState svc;
     systemState := systemState svc; objects := objects svc;
     config := config svc |}.

(** `source === 'microphone' ? this.micState : this.systemState` *)
Definition state_ref (svc : SmartTurnService) (source : Transcription.Source)
  : nat :=
  match source with
  | Transcription.microphone => micState svc
  | Transcription.system => systemState svc
  end.

(** Reading the object behind a reference.  A reference the service holds
    always names a created object ([wf] below). *)
Definition deref (svc : SmartTurnService) (ref : nat) : TurnState :=
  default createInitialState (objects svc !! ref).

(** `state.field = v` through a reference. *)
Definition assign (ref : nat) (f : TurnState → TurnState)
    (svc : SmartTurnService) : SmartTurnService :=
  {| callback := callback svc; micState := micState svc;
     systemState := systemState svc;
     objects := alter f ref (objects svc); config := config svc |}.

Definition resetState (svc : SmartTurnService)
    (source : Transcription.Source) : SmartTurnService :=
  let fresh := length (objects svc) in
  match source with
  | Transcription.microphone =>
      {| callback := callback svc; micState := fresh;
         systemState := systemState svc;
         objects := objects svc ++ [createInitialState];
         config := config svc |}
  | Transcription.system =>
      {| callback := callback svc; micState := micState svc;
         systemState := fresh;
         objects := objects svc ++ [createInitialState];
         config := config svc |}
  end.

Definition reset (svc : SmartTurnService) : SmartTurnService :=
  resetState (resetState svc Transcription.microphone) Transcription.system.

Definition destroy (svc : SmartTurnService) : SmartTurnService :=
  reset {| callback := false; micState := micState svc;
           systemState := systemState svc; objects := objects svc;
           config := config svc |}.

(** `Math.min` of two numbers. *)
Definition Math_min (x y : PrimFloat.float) : PrimFloat.float :=
  if PrimFloat.is_nan x || PrimFloat.is_nan y then PrimFloat.nan
  else if (x <? y)%float then x
  else if (y <? x)%float then y
  else if PrimFloat.is_zero x && PrimFloat.get_sign x then x
  else y.

(** `checkTurnEnd(source)`; [now] is `Date.now()`.  The result is the
    service afterwards and the call of the callback, if it was called. *)
Definition checkTurnEnd (svc : SmartTurnService)
    (source : Transcription.Source) (now : PrimFloat.float)
  : SmartTurnService * option TurnResult :=
  let state := deref svc (state_ref svc source) in
  if negb (isSpeaking state) then (svc, None)
  else
    let cfg := config svc in
    let '(confidence, reason) :=
      if (maxSilenceBeforeCutoff cfg <=? silenceDuration state)%float
      then (1.0%float, silence)
      else if (minSilenceForTurn cfg <=? silenceDuration state)%float
      then
        let confidence := baseSilenceConfidence cfg in
        let '(confidence, reason) :=
          if hasTurnPhrase state
          then ((confidence + turnPhraseBonus cfg)%float, turn_phrase)
          else if hasSentenceEnding state
          then ((confidence + sentenceCompleteBonus cfg)%float,
                sentence_complete)
          else (confidence, continued) in
        if hasQuestion state
        then ((confidence - questionPenalty cfg)%float, question)
        else (confidence, reason)
      else (0%float, continued) in
    let speakerDone := (0.6 <=? confidence)%float in
    if speakerDone && callback svc
    then (resetState svc source,
          Some {| speakerDone := speakerDone;
                  confidence := Math_min confidence 1.0;
                  reason := reason;
                  source := source;
                  timestamp := now |})
    else (svc, None).

(** `processTranscription(result)`.  [state] is the reference read at the
    start: the last assignment goes through it even when the check has
    replaced the state of the source by a new object. *)
Definition processTranscription (svc : SmartTurnService)
    (result : Transcription.TranscriptionResult) (now : PrimFloat.float)
  : SmartTurnService * option TurnResult :=
  let state := state_ref svc (Transcription.source result) in
  let svc :=
    assign state (set_lastSpeechTime (Transcription.timestamp result)) svc in
  let svc := assign state (set_isSpeaking true) svc in
  let svc := assign state (set_currentText (Transcription.text result)) svc in
  let svc := assign state (set_isFinal (Transcription.isFinal result)) svc in
  if Transcription.isFinal result then
    let trimmed := Js.trim (Transcription.text result) in
    let svc :=
      assign state
        (set_hasSentenceEnding (Js.test SENTENCE_ENDINGS trimmed)) svc in
    let svc :=
      assign state (set_hasQuestion (Js.test QUESTION_ENDINGS trimmed)) svc in
    let svc :=
      assign state
        (set_hasTurnPhrase
           (existsb (λ pattern, Js.test pattern trimmed) TURN_PHRASES))
        svc in
    let svc :=
      assign state (set_silenceDuration (minSilenceForTurn (config svc)))
             svc in
    let '(svc, called) :=
      checkTurnEnd svc (Transcription.source result) now in
    (assign state (set_currentText []) svc, called)
  else (svc, None).

(** The state of a source, as the service sees it. *)
Definition state_of (svc : SmartTurnService) (source : Transcription.Source)
  : TurnState :=
  deref svc (state_ref svc source).

(** The two references name two different created objects. *)
Definition wf (svc : SmartTurnService) : Prop :=
  (micState svc < length (objects svc))%nat
  ∧ (systemState svc < length (objects svc))%nat
  ∧ micState svc ≠ systemState svc.

Definition other (source : Transcription.Source) : Transcription.Source :=
  match source with
  | Transcription.microphone => Transcription.system
  | Transcription.system => Transcription.microphone
  end.

End SmartTurn.

(** ** The audio pipeline (`audio-pipeline.ts`) *)

Module AudioPipeline.

Inductive Speaker := you | guest.

Record TranscriptSegment := {
  id : Js.JsString;
  speaker : Speaker;
  guestId : option PrimFloat.float;
  text : Js.JsString;
  startTime : PrimFloat.float;
  endTime : option PrimFloat.float;
  isFinal : bool
}.

(** `Partial<PipelineEvents>`: which of the handlers the pipeline calls
    while it handles a transcription are set. *)
Record Handlers := {
  onTranscript : bool;
  onTurnEnd : bool
}.

(** A call of a handler, with its argument as it is at the call. *)
Inductive Call :=
| Transcript (segment : TranscriptSegment)
| TurnEnd (result : SmartTurn.TurnResult).

(** The fields of the pipeline that handling a transcription reads or
    writes, with the turn detector it feeds.  `segmentCounter` only ever
    holds a whole number, and `++` is exact on it below 2^53. *)
Record AudioPipeline := {
  events : Handlers;
  currentMicSegment : option TranscriptSegment;
  currentSystemSegment : option TranscriptSegment;
  segmentCounter : N;
  transcripts : list TranscriptSegment;
  smartTurn : SmartTurn.SmartTurnService
}.

Definition set_current (isYou : bool) (segment : option TranscriptSegment)
    (p : AudioPipeline) : AudioPipeline :=
  {| events := events p;
     currentMicSegment := if isYou then segment else currentMicSegment p;
     currentSystemSegment :=
       if isYou then currentSystemSegment p else segment;
     segmentCounter := segmentCounter p;
     transcripts := transcripts p;
     smartTurn := smartTurn p |}.

Definition set_segmentCounter (n : N) (p : AudioPipeline) : AudioPipeline :=
  {| events := events p;
     currentMicSegment := currentMicSegment p;
     currentSystemSegment := currentSystemSegment p;
     segmentCounter := n;
     transcripts := transcripts p;
     smartTurn := smartTurn p |}.

Definition set_transcripts (l : list TranscriptSegment) (p : AudioPipeline)
  : AudioPipeline :=
  {| events := events p;
     currentMicSegment := currentMicSegment p;
     currentSystemSegment := currentSystemSegment p;
     segmentCounter := segmentCounter p;
     transcripts := l;
     smartTurn := smartTurn p |}.

Definition set_smartTurn (svc : SmartTurn.SmartTurnService)
    (p : AudioPipeline) : AudioPipeline :=
  {| events := events p;
     currentMicSegment := currentMicSegment p;
     currentSystemSegment := currentSystemSegment p;
     segmentCounter := segmentCounter p;
     transcripts := transcripts p;
     smartTurn := svc |}.

Definition set_events (h : Handlers) (p : AudioPipeline) : AudioPipeline :=
  {| events := h;
     currentMicSegment := currentMicSegment p;
     currentSystemSegment := currentSystemSegment p;
     segmentCounter := segmentCounter p;
     transcripts := transcripts p;
     smartTurn := smartTurn p |}.

(** The pipeline once `setupCallbacks` has run. *)
Definition new : AudioPipeline :=
  {| events := {| onTranscript := false; onTurnEnd := false |};
     currentMicSegment := None;
     currentSystemSegment := None;
     segmentCounter := 0;
     transcripts := [];
     smartTurn := SmartTurn.onTurn SmartTurn.smartTurn |}.

Definition getCurrentGuestId (p : AudioPipeline) : PrimFloat.float := 1.

(** `seg-${n}` *)
Definition segment_id (n : N) : Js.JsString :=
  Js.js "seg-" ++ Js.js (pretty n).

Definition current_segment (isYou : bool) (p : AudioPipeline)
  : option TranscriptSegment :=
  if isYou then currentMicSegment p else currentSystemSegment p.

(** `this.events.onTranscript?.(segment)` *)
Definition call_onTranscript (p : AudioPipeline)
    (segment : TranscriptSegment) : list Call :=
  if onTranscript (events p) then [Transcript segment] else [].

Definition handleTurnEnd (p : AudioPipeline)
    (result : SmartTurn.TurnResult) : list Call :=
  if onTurnEnd (events p) then [TurnEnd result] else [].

(** `source === 'microphone'` *)
Definition is_you (source : Transcription.Source) : bool :=
  match source with
  | Transcription.microphone => true
  | Transcription.system => false
  end.

(** `handleTranscription(result)`; [now] is `Date.now()`.  The result is
    the pipeline afterwards and the calls of handlers, in order. *)
Definition handleTranscription (p : AudioPipeline)
    (result : Transcription.TranscriptionResult) (now : PrimFloat.float)
  : AudioPipeline * list Call :=
  let isYou := is_you (Transcription.source result) in
  let '(p, calls) :=
    match current_segment isYou p with
    | None =>
        let p := set_segmentCounter (segmentCounter p + 1)%N p in
        let newSegment :=
          {| id := segment_id (segmentCounter p);
             speaker := if isYou then you else guest;
             guestId := if isYou then None else Some (getCurrentGuestId p);
             text := Transcription.text result;
             startTime := Transcription.timestamp result;
             endTime := None;
             isFinal := Transcription.isFinal result |} in
        let p := set_current isYou (Some newSegment) p in
        (p, call_onTranscript p newSegment)
    | Some currentSegment =>
        let currentSegment :=
          {| id := id currentSegment;
             speaker := speaker currentSegment;
             guestId := guestId currentSegment;
             text := Transcription.text result;
             startTime := startTime currentSegment;
             endTime := endTime currentSegment;
             isFinal := Transcription.isFinal result |} in
        if Transcription.isFinal result then
          let currentSegment :=
            {| id := id currentSegment;
               speaker := speaker currentSegment;
               guestId := guestId currentSegment;
               text := text currentSegment;
               startTime := startTime currentSegment;
               endTime := Some (Transcription.timestamp result);
               isFinal := isFinal currentSegment |} in
          let p := set_transcripts (transcripts p ++ [currentSegment]) p in
          let p := set_current isYou None p in
          (p, call_onTranscript p currentSegment)
        else
          let p := set_current isYou (Some currentSegment) p in
          (p, call_onTranscript p currentSegment)
    end in
  let '(svc, called) :=
    SmartTurn.processTranscription (smartTurn p) result now in
  (set_smartTurn svc p,
   calls ++ match called with
            | Some turn => handleTurnEnd p turn
            | None => []
            end).

Definition getTranscripts (p : AudioPipeline) : list TranscriptSegment :=
  transcripts p.

Definition clearTranscripts (p : AudioPipeline) : AudioPipeline :=
  set_segmentCounter 0
    (set_current false None
       (set_current true None (set_transcripts [] p))).

(** `stop()` and `destroy()`, on the fields above. *)
Definition stop (p : AudioPipeline) : AudioPipeline :=
  set_smartTurn (SmartTurn.reset (smartTurn p)) p.

Definition destroy (p : AudioPipeline) : AudioPipeline :=
  let p := stop p in
  let p := set_smartTurn (SmartTurn.destroy (smartTurn p)) p in
  let p := set_events {| onTranscript := false; onTurnEnd := false |} p in
  set_transcripts [] p.

(** What the application does to a pipeline, and a run of it. *)
Inductive Op :=
| Handle (result : Transcription.TranscriptionResult) (now : PrimFloat.float)
| On (handlers : Handlers)
| ClearTranscripts
| Stop
| Destroy.

Definition step (p : AudioPipeline) (op : Op) : AudioPipeline :=
  match op with
  | Handle result now => (handleTranscription p result now).1
  | On handlers => set_events handlers p
  | ClearTranscripts => clearTranscripts p
  | Stop => stop p
  | Destroy => destroy p
  end.

Definition run (p : AudioPipeline) (ops : list Op) : AudioPipeline :=
  foldl step p ops.

(** Transcriptions handled one after the other, each with the time of its
    handling. *)
Definition handles
    (rns : list (Transcription.TranscriptionResult * PrimFloat.float))
  : list Op :=
  (λ rn, Handle rn.1 rn.2) <$> rns.

(** The segments the pipeline holds: the history and the open ones. *)
Definition held (p : AudioPipeline) : list TranscriptSegment :=
  transcripts p
  ++ option_list (currentMicSegment p)
  ++ option_list (currentSystemSegment p).

(** The ids of the held segments are pairwise distinct and were issued by
    the counter since it was last reset. *)
Definition ids_issued (p : AudioPipeline) : Prop :=
  NoDup (id <$> held p)
  ∧ ∀ i, i ∈ id <$> held p →
      ∃ k, (0 < k ≤ segmentCounter p)%N ∧ i = segment_id k.

(** The turn detector of a pipeline that was set up and not destroyed: the
    default configuration, a callback, and a state object for each
    source. *)
Definition live (p : AudioPipeline) : Prop :=
  SmartTurn.wf (smartTurn p)
  ∧ SmartTurn.config (smartTurn p) = SmartTurn.config SmartTurn.smartTurn
  ∧ SmartTurn.callback (smartTurn p) = true.

(** The segment a transcription opens, and the one it makes of an open
    segment. *)
Definition opened (p : AudioPipeline) (r : Transcription.TranscriptionResult)
  : TranscriptSegment :=
  let isYou := is_you (Transcription.source r) in
  {| id := segment_id (segmentCounter p + 1);
     speaker := if isYou then you else guest;
     guestId := if isYou then None else Some 1%float;
     text := Transcription.text r;
     startTime := Transcription.timestamp r;
     endTime := None;
     isFinal := Transcription.isFinal r |}.

Definition updated (c : TranscriptSegment)
    (r : Transcription.TranscriptionResult) : TranscriptSegment :=
  {| id := id c; speaker := speaker c; guestId := guestId c;
     text := Transcription.text r; startTime := startTime c;
     endTime := if Transcription.isFinal r
                then Some (Transcription.timestamp r) else endTime c;
     isFinal := Transcription.isFinal r |}.

(** What a segment of the history shows of the transcriptions behind it. *)
Definition summary (segment : TranscriptSegment)
  : Js.JsString * PrimFloat.float * option PrimFloat.float :=
  (text segment, startTime segment, endTime segment).

(** Transcriptions taken two by two: the text of the second of each pair,
    between the time of the first and the time of the second. *)
Fixpoint paired (rs : list Transcription.TranscriptionResult)
  : list (Js.JsString * PrimFloat.float * option PrimFloat.float) :=
  match rs with
  | first :: second :: rs' =>
      (Transcription.text second, Transcription.timestamp first,
       Some (Transcription.timestamp second)) :: paired rs'
  | _ => []
  end.

End AudioPipeline.

(** ** The live transcript (`SecondBrain.svelte`) *)

Module LiveTranscript.

(** The fields of `LiveSegment` that are always there. *)
Record LiveSegment := {
  text : Js.JsString;
  source : Js.JsString;
  timestamp_ms : PrimFloat.float;
  is_final : bool
}.

(** `l.slice(-n)` *)
Definition slice_last {A} (n : nat) (l : list A) : list A :=
  drop (length l - n) l.

(** The listener of `setupTranscriptionListener`, on `liveTranscript`. *)
Definition on_transcription (liveTranscript : list LiveSegment)
    (segment : LiveSegment) : list LiveSegment :=
  if is_final segment then
    let liveTranscript := liveTranscript ++ [segment] in
    if bool_decide (50 < length liveTranscript)%nat
    then slice_last 50 liveTranscript
    else liveTranscript
  else liveTranscript.

(** What the banner of the active meeting lists:
    `liveTranscript.slice(-10)`. *)
Definition shown (liveTranscript : list LiveSegment) : list LiveSegment :=
  slice_last 10 liveTranscript.

End LiveTranscript.

(** ** Tag fields of the knowledge base view (`TranscriptView.svelte`) *)

Module KnowledgeView.

(** `s.split(sep)` for a separator of one code unit. *)
Fixpoint split (sep : N) (s : Js.JsString) : list Js.JsString :=
  match s with
  | [] => [[]]
  | u :: s' =>
      if (u =? sep)%N then [] :: split sep s'
      else match split sep s' with
           | piece :: pieces => (u :: piece) :: pieces
           | [] => [[u]]
           end
  end.

(** A string as a condition: the empty string is falsy. *)
Definition truthy (s : Js.JsString) : bool :=
  match s with
  | [] => false
  | _ :: _ => true
  end.

(** `input.split(',').map(t => t.trim()).filter(t => t)` *)
Definition split_tags (input : Js.JsString) : list Js.JsString :=
  filter (λ t, truthy t = true) (Js.trim <$> split 44 input).

(** `tagsArray` in `searchKnowledge`; [None] is `null`. *)
Definition search_tags (filterTags : Js.JsString)
  : option (list Js.JsString) :=
  if truthy (Js.trim filterTags) then Some (split_tags filterTags) else None.

(** `tagsArray` in `crawlAndStore`. *)
Definition crawl_tags (newTags : Js.JsString) : list Js.JsString :=
  if truthy (Js.trim newTags) then split_tags newTags else [].

End KnowledgeView.

(** ** Example stores *)

Definition empty_store : Store :=
  {| meeting := ∅; segment := []; action_item := []; decision := [];
     person := []; topic := []; entity_relation := [];
     knowledge_source := ∅; knowledge_chunk := [];
     meeting_knowledge := []; mentioned_in := []; discussed_in := [] |}.

Definition alpha_docs : KnowledgeSource :=
  {| ks_url := "https://example.org/alpha"; ks_title := "Project Alpha Docs";
     ks_source_type := "url"; ks_raw_content := "Project Alpha";
     ks_tags := ["alpha"]; ks_created_at := 1; ks_last_updated := 1 |}.

Definition chunk_of (source_id text : string) (i : Z) : KnowledgeChunk :=
  {| kc_source_id := source_id; kc_text := text; kc_chunk_index := i;
     kc_embedding := [1%Q] |}.

(** One source `abc`; two chunks of it (one stored with the bare id), and
    two chunks of a source `gone` that no longer exists. *)
Definition kb_store : Store :=
  {| meeting := ∅; segment := []; action_item := []; decision := [];
     person := []; topic := []; entity_relation := [];
     knowledge_source := {[ "abc" := Row alpha_docs ]};
     knowledge_chunk :=
       [ chunk_of "knowledge_source:abc" "alpha one" 0;
         chunk_of "knowledge_source:gone" "beta one" 0;
         chunk_of "abc" "alpha two" 1;
         chunk_of "knowledge_source:gone" "beta two" 1 ];
     meeting_knowledge := []; mentioned_in := []; discussed_in := [] |}.

(** As [kb_store], with a row `bad` that does not deserialize and one
    chunk of it. *)
Definition kb_store_bad_row : Store :=
  {| meeting := ∅; segment := []; action_item := []; decision := [];
     person := []; topic := []; entity_relation := [];
     knowledge_source := {[ "abc" := Row alpha_docs; "bad" := Malformed ]};
     knowledge_chunk :=
       [ chunk_of "knowledge_source:abc" "alpha one" 0;
         chunk_of "knowledge_source:gone" "beta one" 0;
         chunk_of "knowledge_source:bad" "gamma one" 0;
         chunk_of "knowledge_source:gone" "beta two" 1 ];
     meeting_knowledge := []; mentioned_in := []; discussed_in := [] |}.

(** Engines for the examples: every text embeds to one fixed vector, and
    the similarity of a chunk is read off its first coordinate. *)
Definition test_engines : Engines :=
  {| embed := λ _, Ok [1%Q];
     cosine := λ a _, match a with x :: _ => x | [] => 0%Q end;
     extract_entities := λ text,
       if contains text "John" then Ok [("John", "person"); ("budget", "topic")]
       else if contains text "garbled" then Err "Inference failed"
       else Ok [];
     try_extract_relationships := λ _ _,
       Err "Relation inference failed: unexpected relation label format";
     chunk_markdown := λ content,
       imap (λ i text, {| ch_text := text; ch_chunk_index := Z.of_nat i |})
            (split content "

") |}.

(** A meeting `m1` with three "Guest" segments at midpoints 5 s, 15 s and
    25 s and one "You" segment, an action item, a decision, a relation, a
    linked source and two edges; and a second meeting `m2`. *)
Definition segment_of (meeting_id speaker text : string) (start_ms end_ms : Z)
  : TranscriptSegment :=
  {| seg_meeting_id := meeting_id; seg_speaker := speaker; seg_text := text;
     seg_start_ms := start_ms; seg_end_ms := end_ms; seg_embedding := [1%Q] |}.

Definition standup : Meeting :=
  {| m_title := "Weekly Standup"; m_start_time := 1764000000000;
     m_end_time := Some 1764000030000; m_participants := ["John"; "Alice"];
     m_summary := None |}.

Definition meeting_store : Store :=
  {| meeting := {[ "m1" := standup; "m2" := standup ]};
     segment :=
       [ segment_of "m1" "Guest" "We need to finalize Project Alpha" 4000 6000;
         segment_of "m1" "You" "Agreed" 9000 11000;
         segment_of "m1" "Guest" "The budget is tight" 14000 16000;
         segment_of "m1" "Guest" "Let us review on Friday" 24000 26000;
         segment_of "m2" "Guest" "Another meeting" 4000 6000 ];
     action_item :=
       [ {| ai_meeting_id := "m1"; ai_text := "Review Project Alpha proposal";
            ai_assignee := Some "John"; ai_deadline := Some "Friday";
            ai_status := "open"; ai_created_at := 1764000020000 |} ];
     decision :=
       [ {| dec_meeting_id := "m1"; dec_text := "Approved Phase 2";
            dec_participants := ["John"]; dec_created_at := 1764000025000 |} ];
     person :=
       [ {| person_name := "john"; person_first_seen := 1764000000000;
            person_last_seen := 1764000030000 |} ];
     topic :=
       [ {| topic_name := "project alpha"; topic_mention_count := 15;
            topic_last_mentioned := 1764000030000 |} ];
     entity_relation :=
       [ {| rel_source_entity := "john"; rel_source_type := "person";
            rel_relation := "discussed"; rel_target_entity := "project alpha";
            rel_target_type := "project"; rel_confidence := 1%Q;
            rel_meeting_id := Some "m1"; rel_knowledge_source_id := None;
            rel_created_at := 1764000005000 |} ];
     knowledge_source := {[ "abc" := Row alpha_docs ]};
     knowledge_chunk := [ chunk_of "knowledge_source:abc" "alpha one" 0 ];
     meeting_knowledge :=
       [ {| mk_meeting_id := "m1"; mk_source_id := "knowledge_source:abc";
            mk_relevance_score := 1%Q; mk_assigned_by := "user" |} ];
     mentioned_in := [ {| edge_in := "john"; edge_meeting_id := "m1" |} ];
     discussed_in :=
       [ {| edge_in := "project alpha"; edge_meeting_id := "m1" |} ] |}.

Definition three_ranges : list DiarizationRange :=
  [ (0, 10000, 0, "Speaker 1"); (10000, 20000, 1, "Speaker 2");
    (20000, 30000, 2, "Speaker 3") ].

(** A "Guest" segment whose midpoint, 10 s, lies on the boundary of the
    first two ranges. *)
Definition boundary_store : Store :=
  with_segment meeting_store
    [ segment_of "m1" "Guest" "On the boundary" 9000 11000 ].

(** Engines whose entity engine is not loaded: every extraction fails. *)
Definition engines_without_entities : Engines :=
  {| embed := embed test_engines;
     cosine := cosine test_engines;
     extract_entities := λ _, Err "Entity engine not initialized";
     try_extract_relationships := λ _ _, Err "Entity engine not initialized";
     chunk_markdown := chunk_markdown test_engines |}.

Definition sample_document : string :=
  "Minutes

John will review the budget by Friday, and report back to the whole team.

A garbled paragraph that the entity engine cannot read at all, not one word.

Short one.".

(** The url of a source row that deserializes. *)
Definition row_url (row : SourceRow) : option string :=
  match row with
  | Row source => Some (ks_url source)
  | Malformed => None
  end.

(** A store for the examples: it writes the source row under the id
    `doc1`, unless the url is taken, and accepts every chunk. *)
Definition test_db : Db :=
  {| create_source := λ st url title content source_type tags,
       if bool_decide
            (Some url ∈ row_url <$> (map_to_list (knowledge_source st)).*2)
       then (st, Err "Database index `idx_source_url` already contains the url")
       else
         (with_knowledge_source st
            (<["doc1" := Row {| ks_url := url; ks_title := title;
                                ks_source_type := source_type;
                                ks_raw_content := content; ks_tags := tags;
                                ks_created_at := 1764633600000;
                                ks_last_updated := 1764633600000 |}]>
               (knowledge_source st)),
          Ok "knowledge_source:doc1");
     create_error := λ _ _, None |}.

(** A store that is lost once the chunk table holds [n] rows. *)
Definition db_lost_after (n : nat) : Db :=
  {| create_source := create_source test_db;
     create_error := λ st _,
       if (length (knowledge_chunk st) <? n)%nat then None
       else Some "Connection lost" |}.

(** A paragraph of exactly 50 bytes that names a person. *)
Definition fifty_bytes : string :=
  "John will review the budget on Friday, as agreed..".

(** Two sources `abc` and `xyz`, each with its chunks: no orphan. *)
Definition tidy_store : Store :=
  {| meeting := ∅; segment := []; action_item := []; decision := [];
     person := []; topic := []; entity_relation := [];
     knowledge_source := {[ "abc" := Row alpha_docs; "xyz" := Row alpha_docs ]};
     knowledge_chunk :=
       [ chunk_of "knowledge_source:abc" "alpha one" 0;
         chunk_of "abc" "alpha two" 1;
         chunk_of "knowledge_source:xyz" "other" 0 ];
     meeting_knowledge := []; mentioned_in := []; discussed_in := [] |}.

(** Engines whose embedding fails on texts that contain `garbled`. *)
Definition engines_embedding_fails : Engines :=
  {| embed := λ text, if contains text "garbled" then Err "Embedding failed"
                      else Ok [1%Q];
     cosine := cosine test_engines;
     extract_entities := extract_entities test_engines;
     try_extract_relationships := try_extract_relationships test_engines;
     chunk_markdown := chunk_markdown test_engines |}.

(** ** Example transcriptions *)

(** A service that listens, a question, and two final transcriptions of
    the system source. *)
Definition listening : SmartTurn.SmartTurnService :=
  SmartTurn.onTurn SmartTurn.smartTurn.

Definition spoken (text : string) (final : bool)
    (source : Transcription.Source) (timestamp : PrimFloat.float)
  : Transcription.TranscriptionResult :=
  {| Transcription.text := Js.js text;
     Transcription.isFinal := final;
     Transcription.source := source;
     Transcription.timestamp := timestamp |}.

Definition a_question : Transcription.TranscriptionResult :=
  spoken "So, what do you think?  " true Transcription.microphone 1000.

Definition two_finals
  : list (Transcription.TranscriptionResult * PrimFloat.float) :=
  [(spoken "Hello." true Transcription.system 1000, 1001%float);
   (spoken "Shall we start" true Transcription.system 2000, 2001%float)].

(** * Properties *)

(** ** Source ids *)

Lemma strip_prefix_app (p s : string) : strip_prefix (p +:+ s) p = Some s.
Proof.
  induction p as [|c p IH]; simpl; [done|].
  by rewrite bool_decide_eq_true_2.
Qed.

Lemma strip_prefix_Some (s p r : string) :
  strip_prefix s p = Some r → s = p +:+ r.
Proof.
  revert s; induction p as [|c p IH]; intros s; simpl.
  - by intros [= ->].
  - destruct s as [|d s]; [done|].
    case_bool_decide; [|done]. subst d. intros H. by rewrite (IH _ H).
Qed.

Lemma id_part_qualified (s : string) : id_part ("knowledge_source:" +:+ s) = s.
Proof.
  unfold id_part, starts_with.
  by rewrite (strip_prefix_app "knowledge_source:" s).
Qed.

Lemma id_part_bare (s : string) :
  starts_with s "knowledge_source:" = false → id_part s = s.
Proof. unfold id_part. by intros ->. Qed.

Lemma get_knowledge_source_chunks_irrelevant st v source_id :
  get_knowledge_source (with_knowledge_chunk st v) source_id
  = get_knowledge_source st source_id.
Proof. reflexivity. Qed.

(** C10: for a source id [s], the bare spelling and the fully-qualified
    spelling `knowledge_source:` + [s] give the same result of
    `get_knowledge_source`: the same source, or nothing together.  A source
    id is the id part of a record id of the store, so it does not itself
    begin with the table name; the prefix is stripped once before the
    lookup. *)
Theorem get_knowledge_source_both_spellings (st : Store) (s : string) :
  starts_with s "knowledge_source:" = false →
  get_knowledge_source st ("knowledge_source:" +:+ s) = get_knowledge_source st s.
Proof.
  intros Hbare. unfold get_knowledge_source.
  by rewrite id_part_qualified, (id_part_bare s Hbare).
Qed.

Lemma get_knowledge_source_both_spellings_witness :
  get_knowledge_source kb_store ("knowledge_source:" +:+ "abc")
  = get_knowledge_source kb_store "abc"
  ∧ get_knowledge_source kb_store "abc" = Ok (Some alpha_docs).
Proof.
  split.
  - apply (get_knowledge_source_both_spellings kb_store "abc"). reflexivity.
  - vm_compute. reflexivity.
Defined.

(** ** Orphan cleanup *)

Lemma with_knowledge_chunk_same st : with_knowledge_chunk st (knowledge_chunk st) = st.
Proof. by destruct st. Qed.

Lemma filter_all {A} (P : A → Prop) `{∀ x, Decision (P x)} (l : list A) :
  (∀ x, x ∈ l → P x) → filter P l = l.
Proof.
  induction l as [|x l IH]; intros Hall; [done|].
  rewrite filter_cons_True by (apply Hall; left).
  f_equal. apply IH. intros y Hy. apply Hall. by right.
Qed.

Lemma fmap_filter_source_id (P : string → Prop) `{∀ x, Decision (P x)}
    `{∀ c, Decision (P (kc_source_id c))} (l : list KnowledgeChunk) :
  kc_source_id <$> filter (λ c, P (kc_source_id c)) l
  = filter P (kc_source_id <$> l).
Proof.
  induction l as [|c l IH]; [done|]. rewrite fmap_cons.
  destruct (decide (P (kc_source_id c))) as [Hc|Hc].
  - rewrite !filter_cons_True by done. rewrite fmap_cons. by f_equal.
  - by rewrite !filter_cons_False by done.
Qed.

Lemma remove_dups_filter (P : string → Prop) `{∀ x, Decision (P x)}
    (l : list string) :
  remove_dups (filter P l) = filter P (remove_dups l).
Proof.
  induction l as [|x l IH]; [done|]. simpl remove_dups at 2.
  destruct (decide (P x)) as [Hx|Hx].
  - rewrite filter_cons_True by done. simpl.
    destruct (decide_rel elem_of x l) as [Hin|Hin];
      destruct (decide_rel elem_of x (filter P l)) as [Hin'|Hin'].
    + done.
    + destruct Hin'. by apply list_elem_of_filter.
    + apply list_elem_of_filter in Hin'. tauto.
    + rewrite filter_cons_True by done. by f_equal.
  - rewrite filter_cons_False by done.
    destruct (decide_rel elem_of x l); [done|].
    by rewrite filter_cons_False.
Qed.

(** The store the loop leaves: the chunks of the deleted ids are gone,
    every other table is as it was. *)
Lemma cleanup_loop_store rows st n :
  (cleanup_loop rows st n).1
  = with_knowledge_chunk st
      (filter (λ c, kc_source_id c ∉ deleted_ids (knowledge_source st) rows)
              (knowledge_chunk st)).
Proof.
  revert st n. induction rows as [|id rows IH]; intros st n; simpl.
  - rewrite filter_all; [by rewrite with_knowledge_chunk_same|].
    intros c _. apply not_elem_of_nil.
  - unfold get_knowledge_source.
    destruct (select_knowledge_source _ _) as [[s|]|e]; simpl.
    + apply IH.
    + rewrite IH. unfold delete_chunks_where. simpl. f_equal.
      rewrite list_filter_filter. apply list_filter_iff.
      intros c. rewrite not_elem_of_cons. tauto.
    + rewrite filter_all; [by rewrite with_knowledge_chunk_same|].
      intros c _. apply not_elem_of_nil.
Qed.

(** The value the loop returns: the first failing lookup, or the number of
    ids whose chunks it deleted. *)
Lemma cleanup_loop_result rows st n :
  (cleanup_loop rows st n).2
  = match first_error (knowledge_source st) rows with
    | Some e => Err e
    | None => Ok (n + length (deleted_ids (knowledge_source st) rows))%nat
    end.
Proof.
  revert st n. induction rows as [|id rows IH]; intros st n; simpl.
  - f_equal. lia.
  - unfold get_knowledge_source.
    destruct (select_knowledge_source _ _) as [[s|]|e]; simpl; [apply IH| |done].
    rewrite IH. simpl. destruct (first_error _ _); [done|]. f_equal. lia.
Qed.

Lemma select_None tbl id :
  select_knowledge_source tbl id = Ok None ↔ tbl !! id = None.
Proof.
  unfold select_knowledge_source.
  destruct (tbl !! id) as [[s|]|]; split; intros; done.
Qed.

Lemma deleted_ids_orphaned tbl rows id :
  id ∈ deleted_ids tbl rows → tbl !! id_part id = None.
Proof.
  induction rows as [|r rows IH]; simpl; [by intros ?%elem_of_nil|].
  destruct (select_knowledge_source tbl (id_part r)) as [[s|]|e] eqn:E;
    [done| |by intros ?%elem_of_nil].
  intros [->|Hin]%elem_of_cons; [by apply select_None|by apply IH].
Qed.

(** When no lookup fails, the loop deletes every orphaned id it is given. *)
Lemma deleted_ids_no_error tbl rows :
  first_error tbl rows = None →
  deleted_ids tbl rows = filter (λ id, tbl !! id_part id = None) rows.
Proof.
  induction rows as [|r rows IH]; [done|]. simpl.
  unfold select_knowledge_source.
  destruct (tbl !! id_part r) as [[s|]|] eqn:E; intros Herr; [|done|].
  - rewrite filter_cons_False by (by rewrite E). by apply IH.
  - rewrite filter_cons_True by done. by rewrite IH.
Qed.

(** The lookups that fail are those of the rows that do not deserialize. *)
Lemma first_error_None tbl rows :
  first_error tbl rows = None ↔
  ∀ id, id ∈ rows → tbl !! id_part id ≠ Some Malformed.
Proof.
  induction rows as [|r rows IH]; simpl.
  - split; [by intros _ id ?%elem_of_nil|done].
  - unfold select_knowledge_source.
    destruct (tbl !! id_part r) as [[s|]|] eqn:E.
    + rewrite IH. split.
      * intros H id [->|Hid]%elem_of_cons; [by rewrite E|by apply H].
      * intros H id Hid. apply H. by right.
    + split; [done|]. intros H. by destruct (H r (ltac:(left))).
    + rewrite IH. split.
      * intros H id [->|Hid]%elem_of_cons; [by rewrite E|by apply H].
      * intros H id Hid. apply H. by right.
Qed.

(** Once the ids in [D] are filtered out, where [D] holds only orphaned ids
    and at least those the loop deletes, the loop deletes nothing and stops
    with the same error. *)
Lemma deleted_ids_after tbl (D rows : list string) :
  (∀ id, id ∈ D → tbl !! id_part id = None) →
  (∀ id, id ∈ deleted_ids tbl rows → id ∈ D) →
  deleted_ids tbl (filter (λ id, id ∉ D) rows) = []
  ∧ first_error tbl (filter (λ id, id ∉ D) rows) = first_error tbl rows.
Proof.
  intros HD. induction rows as [|r rows IH]; intros Hsub; [done|].
  simpl in Hsub |- *.
  destruct (select_knowledge_source tbl (id_part r)) as [[s|]|e] eqn:E.
  - assert (r ∉ D) as Hr.
    { intros Hin. apply HD, select_None in Hin. congruence. }
    rewrite filter_cons_True by done. simpl. rewrite E. by apply IH.
  - rewrite filter_cons_False by (intros Hn; apply Hn, Hsub; left).
    apply IH. intros id Hid. apply Hsub. by right.
  - assert (r ∉ D) as Hr.
    { intros Hin. apply HD, select_None in Hin. congruence. }
    rewrite filter_cons_True by done. simpl. by rewrite E.
Qed.

Lemma filter_ext_elem {A} (P Q : A → Prop) `{∀ x, Decision (P x)}
    `{∀ x, Decision (Q x)} (l : list A) :
  (∀ x, x ∈ l → P x ↔ Q x) → filter P l = filter Q l.
Proof.
  induction l as [|x l IH]; intros Hext; [done|].
  assert (filter P l = filter Q l) as Hl.
  { apply IH. intros y Hy. apply Hext. by right. }
  destruct (decide (P x)) as [Hx|Hx].
  - rewrite !filter_cons_True; [by f_equal|by apply (Hext x); [left|]|done].
  - rewrite !filter_cons_False; [done| |done].
    intros HQ. apply Hx, (Hext x); [left|done].
Qed.

(** C3, as written, fails on the returned integer: with two chunks of one
    vanished source the cleanup deletes two rows and returns 1, the number
    of orphaned source ids. *)
Lemma cleanup_returns_groups_not_rows :
  (cleanup_orphaned_chunks kb_store).2 = Ok 1%nat
  ∧ (length (knowledge_chunk kb_store)
     - length (knowledge_chunk (cleanup_orphaned_chunks kb_store).1) = 2)%nat.
Proof. vm_compute. done. Qed.

(** The cleanup succeeds exactly when no chunk refers to a source row that
    does not deserialize. *)
Lemma cleanup_orphaned_chunks_ok_iff (st : Store) :
  is_ok (cleanup_orphaned_chunks st).2 = true ↔
  ∀ c, c ∈ knowledge_chunk st →
       knowledge_source st !! id_part (kc_source_id c) ≠ Some Malformed.
Proof.
  unfold cleanup_orphaned_chunks. rewrite cleanup_loop_result.
  pose proof (first_error_None (knowledge_source st) (chunk_source_ids st)) as Hnone.
  unfold chunk_source_ids in Hnone |- *.
  destruct (first_error _ _) as [e|]; simpl.
  - split; [done|]. intros Hok. assert (Some e = None) as [=].
    apply Hnone. intros id [c [-> Hc]]%elem_of_remove_dups%list_elem_of_fmap.
    by apply Hok.
  - split; [|done]. intros _ c Hc. apply Hnone; [done|].
    apply elem_of_remove_dups, list_elem_of_fmap. eauto.
Qed.

(** C3 (amended): whenever `cleanup_orphaned_chunks` succeeds, it has
    deleted exactly the chunks whose `source_id`, reduced to its id part,
    names no row of `knowledge_source`, it has left every other table
    alone, and the integer it returns is the number of distinct orphaned
    `source_id` values (one per group of chunks, not one per chunk). *)
Theorem cleanup_orphaned_chunks_spec (st st' : Store) (n : nat) :
  cleanup_orphaned_chunks st = (st', Ok n) →
  st' = with_knowledge_chunk st
          (filter (λ c, ¬ orphaned st (kc_source_id c)) (knowledge_chunk st))
  ∧ n = length (filter (orphaned st) (chunk_source_ids st)).
Proof.
  unfold cleanup_orphaned_chunks.
  rewrite (surjective_pairing (cleanup_loop _ _ _)).
  rewrite cleanup_loop_store, cleanup_loop_result.
  destruct (first_error _ _) as [e|] eqn:Herr; [intros [= _ [=]]|].
  rewrite (deleted_ids_no_error _ _ Herr). intros [= <- <-]. split.
  - f_equal. apply filter_ext_elem. intros c Hc.
    unfold chunk_source_ids.
    rewrite list_elem_of_filter, elem_of_remove_dups, list_elem_of_fmap.
    unfold orphaned. split; [|tauto].
    intros Hn Ho. apply Hn. eauto.
  - simpl. f_equal. by apply filter_ext_elem.
Qed.

Lemma cleanup_orphaned_chunks_spec_witness :
  cleanup_orphaned_chunks kb_store
  = (with_knowledge_chunk kb_store
       [ chunk_of "knowledge_source:abc" "alpha one" 0;
         chunk_of "abc" "alpha two" 1 ],
     Ok 1%nat)
  ∧ with_knowledge_chunk kb_store
      [ chunk_of "knowledge_source:abc" "alpha one" 0;
        chunk_of "abc" "alpha two" 1 ]
    = with_knowledge_chunk kb_store
        (filter (λ c, ¬ orphaned kb_store (kc_source_id c))
                (knowledge_chunk kb_store))
  ∧ 1%nat = length (filter (orphaned kb_store) (chunk_source_ids kb_store)).
Proof.
  split; [vm_compute; reflexivity|].
  apply (cleanup_orphaned_chunks_spec kb_store). vm_compute. reflexivity.
Defined.

(** C4: for every store, chunks and lookups that fail included, a second
    `cleanup_orphaned_chunks` right after the first leaves the store as the
    first run left it; it returns 0 when the first run succeeded and the
    same error when the first run stopped on one. *)
Theorem cleanup_orphaned_chunks_idempotent (st : Store) :
  cleanup_orphaned_chunks (cleanup_orphaned_chunks st).1
  = ((cleanup_orphaned_chunks st).1,
     match (cleanup_orphaned_chunks st).2 with
     | Ok _ => Ok 0%nat
     | Err e => Err e
     end).
Proof.
  unfold cleanup_orphaned_chunks at 2 3 4.
  rewrite cleanup_loop_store, cleanup_loop_result.
  set (tbl := knowledge_source st).
  set (D := deleted_ids tbl (chunk_source_ids st)).
  set (st1 := with_knowledge_chunk st _).
  assert (chunk_source_ids st1 = filter (λ id, id ∉ D) (chunk_source_ids st))
    as Hrows.
  { unfold chunk_source_ids, st1. simpl.
    rewrite <- remove_dups_filter. f_equal.
    apply (fmap_filter_source_id (λ id, id ∉ D)). }
  destruct (deleted_ids_after tbl D (chunk_source_ids st)) as [Hnone Herr].
  { intros id. apply deleted_ids_orphaned. }
  { done. }
  unfold cleanup_orphaned_chunks.
  rewrite (surjective_pairing (cleanup_loop _ _ _)).
  rewrite cleanup_loop_store, cleanup_loop_result.
  change (knowledge_source st1) with tbl.
  rewrite Hrows, Hnone, Herr. f_equal.
  - rewrite filter_all; [apply with_knowledge_chunk_same|].
    intros c _. apply not_elem_of_nil.
  - by destruct (first_error tbl (chunk_source_ids st)).
Qed.

(** ** Vector search *)

Lemma length_insert_desc x l : length (insert_desc x l) = S (length l).
Proof.
  induction l as [|y l IH]; simpl; [done|].
  destruct (Qle_bool _ _); simpl; [done|]. by rewrite IH.
Qed.

Lemma length_order_by_similarity_desc l :
  length (order_by_similarity_desc l) = length l.
Proof.
  induction l as [|x l IH]; simpl; [done|].
  by rewrite length_insert_desc, IH.
Qed.

Lemma length_query_chunks E st qe limit tags :
  length (query_chunks E st qe limit tags)
  = (limit `min` length (candidate_chunks st tags))%nat.
Proof.
  unfold query_chunks.
  by rewrite length_take, length_order_by_similarity_desc, length_fmap.
Qed.

(** What [resolve_hit] puts in the title and url of a hit. *)
Lemma resolve_hit_label st hit :
  chunk (resolve_hit st hit) = hit.1
  ∧ similarity (resolve_hit st hit) = hit.2
  ∧ match get_knowledge_source st (kc_source_id hit.1) with
    | Ok (Some source) =>
        source_title (resolve_hit st hit) = ks_title source
        ∧ source_url (resolve_hit st hit) = ks_url source
    | Ok None | Err _ =>
        source_title (resolve_hit st hit) = "Source " +:+ kc_source_id hit.1
        ∧ source_url (resolve_hit st hit) = ""
    end.
Proof.
  unfold resolve_hit.
  by destruct (get_knowledge_source st (kc_source_id hit.1)) as [[s|]|e].
Qed.

(** C2: a successful `search_knowledge` returns at most `limit` results:
    exactly one per row of the ranked, limited query, in the same order,
    so as many as `limit` or as there are candidate chunks.  A hit whose
    source is missing or whose lookup fails is kept, with the title
    `Source {source_id}` and an empty url. *)
Theorem search_knowledge_limit_and_fallback (E : Engines) (st : Store)
    (query : string) (limit : nat) (tags : option (list string))
    (results : list KnowledgeSearchResult) :
  search_knowledge E st query limit tags = Ok results →
  (length results ≤ limit)%nat
  ∧ length results = (limit `min` length (candidate_chunks st tags))%nat
  ∧ ∃ query_embedding,
      embed E query = Ok query_embedding
      ∧ Forall2
          (λ hit r,
             chunk r = hit.1 ∧ similarity r = hit.2
             ∧ match get_knowledge_source st (kc_source_id hit.1) with
               | Ok (Some source) =>
                   source_title r = ks_title source
                   ∧ source_url r = ks_url source
               | Ok None | Err _ =>
                   source_title r = "Source " +:+ kc_source_id hit.1
                   ∧ source_url r = ""
               end)
          (query_chunks E st query_embedding limit tags) results.
Proof.
  unfold search_knowledge. destruct (embed E query) as [qe|e]; [|done].
  intros [= <-]. rewrite length_fmap, length_query_chunks.
  split; [lia|]. split; [done|]. exists qe. split; [done|].
  apply Forall2_fmap_r, Forall_Forall2_diag, Forall_forall.
  intros hit _. apply resolve_hit_label.
Qed.

Lemma search_knowledge_limit_and_fallback_witness :
  ∃ results,
    search_knowledge test_engines kb_store_bad_row "alpha" 3 None = Ok results
    ∧ (length results ≤ 3)%nat
    ∧ source_title <$> results
      = [ "Project Alpha Docs"; "Source knowledge_source:gone";
          "Source knowledge_source:bad" ].
Proof.
  eexists. split; [vm_compute; reflexivity|]. split.
  - eapply (search_knowledge_limit_and_fallback test_engines kb_store_bad_row
              "alpha" 3 None).
    vm_compute. reflexivity.
  - vm_compute. reflexivity.
Defined.

(** ** Strings *)

Lemma append_cons c (s t : string) : String c s +:+ t = String c (s +:+ t).
Proof. reflexivity. Qed.

Lemma append_nil_l (s : string) : "" +:+ s = s.
Proof. reflexivity. Qed.

Lemma append_nil_r (s : string) : s +:+ "" = s.
Proof.
  induction s as [|c s IH]; [done|]. by rewrite append_cons, IH.
Qed.

Lemma append_assoc (a b c : string) : (a +:+ b) +:+ c = a +:+ b +:+ c.
Proof.
  induction a as [|x a IH]; [done|]. by rewrite !append_cons, IH.
Qed.

Lemma length_append (a b : string) :
  String.length (a +:+ b) = (String.length a + String.length b)%nat.
Proof.
  induction a as [|x a IH]; [done|]. rewrite append_cons. simpl. by rewrite IH.
Qed.

Lemma rev_string_acc (acc s : string) :
  rev_string acc s = rev_string "" s +:+ acc.
Proof.
  revert acc. induction s as [|c s IH]; intros acc; simpl; [done|].
  rewrite (IH (String c acc)), (IH (String c "")).
  by rewrite append_assoc.
Qed.

Lemma split_go_nonempty fuel s pat cur : split_go fuel s pat cur ≠ [].
Proof.
  revert s cur. induction fuel as [|fuel IH]; intros s cur; [done|].
  destruct s as [|c s]; [done|]. cbn [split_go].
  destruct (strip_prefix (String c s) pat); [done|apply IH].
Qed.

Lemma split_go_join fuel s pat cur :
  pat ≠ "" → (String.length s ≤ fuel)%nat →
  join pat (split_go fuel s pat cur) = rev_string "" cur +:+ s.
Proof.
  intros Hpat. revert s cur.
  induction fuel as [|fuel IH]; intros s cur Hlen.
  - destruct s; [|simpl in Hlen; lia]. reflexivity.
  - destruct s as [|c s]; [reflexivity|].
    cbn [split_go].
    destruct (strip_prefix (String c s) pat) as [rest|] eqn:E.
    + pose proof (strip_prefix_Some _ _ _ E) as Hs.
      assert (String.length rest ≤ fuel)%nat as Hrest.
      { apply (f_equal String.length) in Hs. rewrite length_append in Hs.
        destruct pat; [done|]. simpl in Hs, Hlen. lia. }
      specialize (IH rest "" Hrest). rewrite Hs.
      destruct (split_go fuel rest pat "") as [|piece pieces] eqn:Esplit.
      * by apply split_go_nonempty in Esplit.
      * unfold join in IH |- *. simpl in IH |- *.
        by rewrite IH, append_nil_l.
    + rewrite IH by (simpl in Hlen; lia). simpl.
      by rewrite (rev_string_acc (String c "")), append_assoc.
Qed.

(** Splitting loses nothing: joining the pieces gives the text back. *)
Lemma join_split s pat : pat ≠ "" → join pat (split s pat) = s.
Proof. intros Hpat. unfold split. by rewrite split_go_join. Qed.

(** ** Temporal parser *)

Example parse_three_weeks_ago :
  parse_temporal "What did John say about Project Alpha 3 weeks ago?" 1764633600000
  = Some {| w_start := 1764633600000 - 21 * DAY_MS - 302400000;
            w_end := 1764633600000 - 21 * DAY_MS + 302400000 |}.
Proof. vm_compute. reflexivity. Qed.

Example parse_weeks_before_days :
  parse_temporal "2 days ago, or was it 12 weeks ago" 1764633600000
  = Some (centered (1764633600000 - 84 * DAY_MS) 302400000).
Proof. vm_compute. reflexivity. Qed.

Example parse_last_month_decisions :
  parse_temporal "What decisions were made last month about the budget?" 1764633600000
  = Some {| w_start := 1764633600000 - 30 * DAY_MS; w_end := 1764633600000 |}.
Proof. vm_compute. reflexivity. Qed.

Example parse_no_phrase :
  parse_temporal "What are the key topics in my knowledge base?" 1764633600000
  = None.
Proof. vm_compute. reflexivity. Qed.

Lemma contains_unfold s pat :
  contains s pat
  = starts_with s pat
    || match s with EmptyString => false | String _ s' => contains s' pat end.
Proof. by destruct s. Qed.

Lemma starts_with_app pat post : starts_with (pat +:+ post) pat = true.
Proof. unfold starts_with. by rewrite strip_prefix_app. Qed.

(** [contains] is the substring test. *)
Lemma contains_spec s pat :
  contains s pat = true ↔ ∃ pre post, s = pre +:+ pat +:+ post.
Proof.
  split.
  - induction s as [|c s IH]; rewrite contains_unfold; intros H;
      apply orb_true_iff in H as [H|H]; try discriminate.
    + unfold starts_with in H.
      destruct (strip_prefix "" pat) as [r|] eqn:E; [|done].
      exists "", r. exact (strip_prefix_Some _ _ _ E).
    + unfold starts_with in H.
      destruct (strip_prefix (String c s) pat) as [r|] eqn:E; [|done].
      exists "", r. exact (strip_prefix_Some _ _ _ E).
    + destruct (IH H) as (pre & post & ->). by exists (String c pre), post.
  - intros (pre & post & ->). induction pre as [|c pre IH].
    + change (contains (pat +:+ post) pat = true).
      by rewrite contains_unfold, starts_with_app.
    + change (contains (String c (pre +:+ pat +:+ post)) pat = true).
      rewrite contains_unfold, IH. apply orb_true_r.
Qed.

Lemma read_number_spec s acc r rest :
  read_number s acc = (r, rest) →
  ∃ ds, s = ds +:+ rest
        ∧ (ds = "" ∧ r = acc
           ∨ ds ≠ "" ∧ ∃ n, r = Some n ∧ decimal (unwrap_or acc 0) ds = Some n).
Proof.
  revert acc. induction s as [|c s IH]; intros acc; simpl.
  - intros [= <- <-]. exists "". split; [done|]. by left.
  - destruct (digit_value c) as [d|] eqn:Ed.
    + intros H. destruct (IH _ H) as (ds & -> & Hds).
      exists (String c ds). split; [done|]. right. split; [done|].
      simpl. rewrite Ed. destruct Hds as [[-> ->]|(_ & n & -> & Hn)]; eauto.
    + intros [= <- <-]. exists "". split; [done|]. by left.
Qed.

Lemma count_here_spec s unit n :
  count_here s unit = Some n →
  ∃ ds post, s = ds +:+ unit +:+ post ∧ ds ≠ "" ∧ decimal 0 ds = Some n.
Proof.
  unfold count_here. destruct (read_number s None) as [r rest] eqn:E.
  unfold starts_with.
  destruct (strip_prefix rest unit) as [post|] eqn:Ep; [|done].
  intros ->. apply strip_prefix_Some in Ep as ->.
  destruct (read_number_spec _ _ _ _ E) as (ds & -> & [[_ [=]]|(Hne & m & [= <-] & Hm)]).
  by exists ds, post.
Qed.

(** What [find_count] returns is the value of a non-empty run of digits
    that stands right before [unit] in the text. *)
Lemma find_count_sound text unit n :
  find_count text unit = Some n →
  ∃ pre ds post,
    text = pre +:+ ds +:+ unit +:+ post ∧ ds ≠ "" ∧ decimal 0 ds = Some n.
Proof.
  induction text as [|c text IH]; simpl.
  - destruct (count_here "" unit) as [m|] eqn:E; [|done].
    intros [= ->]. destruct (count_here_spec _ _ _ E) as (ds & post & ? & ? & ?).
    by exists "", ds, post.
  - destruct (count_here (String c text) unit) as [m|] eqn:E.
    + intros [= ->].
      destruct (count_here_spec _ _ _ E) as (ds & post & ? & ? & ?).
      by exists "", ds, post.
    + intros H. destruct (IH H) as (pre & ds & post & -> & ? & ?).
      by exists (String c pre), ds, post.
Qed.

Lemma read_number_stop rest acc :
  no_digit_ahead rest → read_number rest acc = (acc, rest).
Proof. destruct rest as [|c rest]; simpl; [done|]. by intros ->. Qed.

Lemma read_number_digits ds rest acc n :
  ds ≠ "" → decimal (unwrap_or acc 0) ds = Some n → no_digit_ahead rest →
  read_number (ds +:+ rest) acc = (Some n, rest).
Proof.
  intros Hne Hn Hrest. revert acc Hne Hn.
  induction ds as [|c ds IH]; intros acc Hne Hn; [done|].
  rewrite append_cons. simpl in Hn |- *.
  destruct (digit_value c) as [d|]; [|done].
  destruct ds as [|c' ds].
  - simpl in Hn. injection Hn as <-. rewrite append_nil_l.
    by apply read_number_stop.
  - by apply IH.
Qed.

(** A number standing right before [unit] is found, or one further left
    is: the search misses no phrase. *)
Lemma find_count_complete text unit pre ds post n :
  text = pre +:+ ds +:+ unit +:+ post →
  ds ≠ "" → decimal 0 ds = Some n → no_digit_ahead (unit +:+ post) →
  is_Some (find_count text unit).
Proof.
  intros -> Hne Hn Hunit. induction pre as [|c pre IH].
  - rewrite append_nil_l.
    assert (count_here (ds +:+ unit +:+ post) unit = Some n) as Hhere.
    { unfold count_here.
      rewrite (read_number_digits ds (unit +:+ post) None n) by done.
      by rewrite starts_with_app. }
    destruct ds as [|d ds]; [done|]. rewrite append_cons in Hhere |- *.
    simpl. rewrite Hhere. eauto.
  - rewrite append_cons. simpl.
    destruct (count_here (String c (pre +:+ ds +:+ unit +:+ post)) unit); eauto.
Qed.

Lemma find_count_unfold text unit :
  find_count text unit
  = match count_here text unit with
    | Some n => Some n
    | None =>
        match text with
        | EmptyString => None
        | String _ text' => find_count text' unit
        end
    end.
Proof. by destruct text. Qed.

(** Digits right before [unit] at the head of a text are read there. *)
Lemma count_here_complete unit digits after n :
  (∀ after, no_digit_ahead (unit +:+ after)) →
  digits ≠ "" → decimal 0 digits = Some n →
  count_here (digits +:+ unit +:+ after) unit = Some n.
Proof.
  intros Hunit Hne Hn. unfold count_here.
  rewrite (read_number_digits digits (unit +:+ after) None n) by done.
  by rewrite starts_with_app.
Qed.

Lemma count_here_count_at text unit n :
  count_here text unit = Some n → count_at text unit "" n.
Proof.
  intros (digits & after & -> & Hne & Hn)%count_here_spec.
  by exists digits, after.
Qed.

Lemma count_at_cons c text unit before n :
  count_at (String c text) unit (String c before) n ↔ count_at text unit before n.
Proof.
  unfold count_at. split; intros (digits & after & Ht & Hne & Hn);
    exists digits, after.
  - rewrite append_cons in Ht. by injection Ht as ->.
  - rewrite append_cons. by rewrite Ht.
Qed.

(** The search returns the number of the first `N<unit>`. *)
Lemma find_count_first text unit n :
  (∀ after, no_digit_ahead (unit +:+ after)) →
  first_count text unit n → find_count text unit = Some n.
Proof.
  intros Hunit (before & Hat & Hleft). revert text Hat Hleft.
  induction before as [|c before IH]; intros text Hat Hleft.
  - destruct Hat as (digits & after & -> & Hne & Hn). rewrite append_nil_l.
    by rewrite find_count_unfold, (count_here_complete unit digits after n).
  - destruct Hat as (digits & after & -> & Hne & Hn).
    rewrite append_cons, find_count_unfold.
    destruct (count_here _ unit) as [m|] eqn:Hhere.
    + apply count_here_count_at in Hhere.
      rewrite <- append_cons in Hhere.
      specialize (Hleft _ _ Hhere). simpl in Hleft. lia.
    + apply IH; [by exists digits, after|].
      intros before' n' Hat'.
      assert (String.length (String c before)
              ≤ String.length (String c before'))%nat as Hle.
      { apply (Hleft _ n'). rewrite append_cons. by apply count_at_cons. }
      simpl in Hle. lia.
Qed.

(** What the search returns is the number of the first `N<unit>`. *)
Lemma find_count_is_first text unit n :
  (∀ after, no_digit_ahead (unit +:+ after)) →
  find_count text unit = Some n → first_count text unit n.
Proof.
  intros Hunit. induction text as [|c text IH]; rewrite find_count_unfold.
  - destruct (count_here "" unit) as [m|] eqn:Hhere; [|done].
    intros [= ->]. exists "". split; [by apply count_here_count_at|].
    intros; simpl; lia.
  - destruct (count_here (String c text) unit) as [m|] eqn:Hhere.
    + intros [= ->]. exists "". split; [by apply count_here_count_at|].
      intros; simpl; lia.
    + intros (before & Hat & Hleft)%IH. exists (String c before).
      split; [by apply count_at_cons|].
      intros [|c' before'] n' Hat'.
      * destruct Hat' as (digits & after & Ht & Hne & Hn).
        rewrite append_nil_l in Ht.
        rewrite Ht, (count_here_complete unit digits after n') in Hhere; done.
      * assert (c' = c) as ->.
        { destruct Hat' as (digits & after & Ht & _).
          rewrite append_cons in Ht. by injection Ht. }
        apply count_at_cons, Hleft in Hat'. simpl. lia.
Qed.

(** The search finds nothing exactly when the text holds no number right
    before [unit]. *)
Lemma find_count_None text unit :
  (∀ after, no_digit_ahead (unit +:+ after)) →
  find_count text unit = None ↔ ¬ mentions_count text unit.
Proof.
  intros Hunit. split.
  - intros Hnone (before & n & digits & after & Ht & Hne & Hn).
    destruct (find_count_complete text unit before digits after n) as [m Hm];
      [done..|congruence].
  - intros Hno. destruct (find_count text unit) as [n|] eqn:Hfind; [|done].
    destruct Hno. apply find_count_is_first in Hfind as (before & Hat & _);
      [|done]. by exists before, n.
Qed.

Lemma contains_mentions text phrase :
  contains text phrase = true ↔ mentions text phrase.
Proof. apply contains_spec. Qed.

Lemma contains_not_mentions text phrase :
  contains text phrase = false ↔ ¬ mentions text phrase.
Proof.
  rewrite <- contains_mentions. by destruct (contains text phrase).
Qed.

Lemma decimal_app acc a b :
  decimal acc (a +:+ b)
  = match decimal acc a with Some v => decimal v b | None => None end.
Proof.
  revert acc. induction a as [|c a IH]; intros acc; [done|].
  rewrite append_cons. simpl. by destruct (digit_value c).
Qed.

Lemma digit_value_pretty_N_char k :
  (k < 10)%N → digit_value (pretty_N_char k) = Some (Z.of_N k).
Proof.
  intros Hk.
  assert (k = 0 ∨ k = 1 ∨ k = 2 ∨ k = 3 ∨ k = 4 ∨ k = 5 ∨ k = 6 ∨ k = 7
          ∨ k = 8 ∨ k = 9)%N as Hcases by lia.
  by repeat destruct Hcases as [->|Hcases]; [..|subst k].
Qed.

Lemma pretty_N_go_digits x s :
  ∃ digits,
    pretty_N_go x s = digits +:+ s
    ∧ ((0 < x)%N → digits ≠ "")
    ∧ ∀ acc, decimal acc digits
             = Some (acc * 10 ^ Z.of_nat (String.length digits) + Z.of_N x).
Proof.
  revert s. induction (N.lt_wf_0 x) as [x _ IH]; intros s.
  destruct (decide (x = 0%N)) as [->|Hx].
  - exists "". split; [done|]. split; [lia|]. intros acc. simpl.
    f_equal. lia.
  - rewrite pretty_N_go_step by lia.
    destruct (IH (x `div` 10)%N ltac:(apply N.div_lt; lia)
                 (String (pretty_N_char (x `mod` 10)) s))
      as (digits & -> & _ & Hval).
    exists (digits +:+ String (pretty_N_char (x `mod` 10)) "").
    split; [by rewrite append_assoc|]. split.
    + intros _ Hnil. apply (f_equal String.length) in Hnil.
      rewrite length_append in Hnil. simpl in Hnil. lia.
    + intros acc. rewrite decimal_app, Hval. simpl.
      rewrite digit_value_pretty_N_char by (apply N.mod_lt; lia).
      f_equal. rewrite length_append. simpl.
      rewrite Nat2Z.inj_add, Z.pow_add_r by lia.
      pose proof (N.div_mod x 10 ltac:(lia)) as Hdm.
      assert (Z.of_N x = 10 * Z.of_N (x `div` 10) + Z.of_N (x `mod` 10))
        as -> by lia.
      change (10 ^ Z.of_nat 1) with 10. lia.
Qed.

(** The decimal numeral of a natural number reads as that number. *)
Lemma decimal_pretty (N : N) :
  (pretty N : string) ≠ "" ∧ decimal 0 (pretty N) = Some (Z.of_N N).
Proof.
  unfold pretty, pretty_N. destruct (decide (N = 0%N)) as [->|HN]; [done|].
  destruct (pretty_N_go_digits N "") as (digits & -> & Hne & Hval).
  rewrite append_nil_r. split; [apply Hne; lia|]. by rewrite Hval.
Qed.

(** C5: the rules of the temporal parser in terms of the text, in priority
    order, the first that matches wins.  When the text holds a number
    right before ` weeks ago`, the first such number N gives the window
    centered at now - 7N days, 3.5 days on each side, whatever else the
    text holds; otherwise the first number N right before ` days ago`
    gives the window centered at now - N days, 12 hours on each side;
    otherwise `last week` gives [now-14d, now-7d); otherwise `last month`
    gives [now-30d, now); otherwise `yesterday` gives [now-2d, now-1d);
    otherwise there is no window.  Every text falls under one of the rows:
    a text that holds a number before a unit has a first one.  In
    particular a text that begins with the decimal numeral of N and
    ` weeks ago` parses to the window of N weeks. *)
Theorem parse_temporal_rules (text : string) (now : Z) :
  (∀ n, first_count text " weeks ago" n →
        parse_temporal text now
        = Some (centered (now - 7 * n * DAY_MS) (3 * DAY_MS + 12 * HOUR_MS)))
  ∧ (∀ n, ¬ mentions_count text " weeks ago" →
          first_count text " days ago" n →
          parse_temporal text now
          = Some (centered (now - n * DAY_MS) (12 * HOUR_MS)))
  ∧ (¬ mentions_count text " weeks ago" →
     ¬ mentions_count text " days ago" →
     mentions text "last week" →
     parse_temporal text now
     = Some {| w_start := now - 14 * DAY_MS; w_end := now - 7 * DAY_MS |})
  ∧ (¬ mentions_count text " weeks ago" →
     ¬ mentions_count text " days ago" →
     ¬ mentions text "last week" →
     mentions text "last month" →
     parse_temporal text now
     = Some {| w_start := now - 30 * DAY_MS; w_end := now |})
  ∧ (¬ mentions_count text " weeks ago" →
     ¬ mentions_count text " days ago" →
     ¬ mentions text "last week" →
     ¬ mentions text "last month" →
     mentions text "yesterday" →
     parse_temporal text now
     = Some {| w_start := now - 2 * DAY_MS; w_end := now - 1 * DAY_MS |})
  ∧ (¬ mentions_count text " weeks ago" →
     ¬ mentions_count text " days ago" →
     ¬ mentions text "last week" →
     ¬ mentions text "last month" →
     ¬ mentions text "yesterday" →
     parse_temporal text now = None)
  ∧ (∀ unit, unit = " weeks ago" ∨ unit = " days ago" →
             mentions_count text unit → ∃ n, first_count text unit n)
  ∧ (∀ (N : N) after,
       parse_temporal (pretty N +:+ " weeks ago" +:+ after) now
       = Some (centered (now - 7 * Z.of_N N * DAY_MS)
                        (3 * DAY_MS + 12 * HOUR_MS))).
Proof.
  assert (∀ after, no_digit_ahead (" weeks ago" +:+ after)) as Hweeks by done.
  assert (∀ after, no_digit_ahead (" days ago" +:+ after)) as Hdays by done.
  unfold parse_temporal.
  split; [|split; [|split; [|split; [|split; [|split; [|split]]]]]].
  - intros n Hn. by rewrite (find_count_first _ _ n Hweeks Hn).
  - intros n Hw Hn. apply (find_count_None _ _ Hweeks) in Hw.
    by rewrite Hw, (find_count_first _ _ n Hdays Hn).
  - intros Hw Hd H1. apply (find_count_None _ _ Hweeks) in Hw.
    apply (find_count_None _ _ Hdays) in Hd. apply contains_mentions in H1.
    by rewrite Hw, Hd, H1.
  - intros Hw Hd H1 H2. apply (find_count_None _ _ Hweeks) in Hw.
    apply (find_count_None _ _ Hdays) in Hd.
    apply contains_not_mentions in H1. apply contains_mentions in H2.
    by rewrite Hw, Hd, H1, H2.
  - intros Hw Hd H1 H2 H3. apply (find_count_None _ _ Hweeks) in Hw.
    apply (find_count_None _ _ Hdays) in Hd.
    apply contains_not_mentions in H1, H2. apply contains_mentions in H3.
    by rewrite Hw, Hd, H1, H2, H3.
  - intros Hw Hd H1 H2 H3. apply (find_count_None _ _ Hweeks) in Hw.
    apply (find_count_None _ _ Hdays) in Hd.
    apply contains_not_mentions in H1, H2, H3.
    by rewrite Hw, Hd, H1, H2, H3.
  - intros unit Hunit Hm.
    assert (∀ after, no_digit_ahead (unit +:+ after)) as Hu
      by (by destruct Hunit as [->| ->]).
    destruct (find_count text unit) as [n|] eqn:Hfind.
    + exists n. by apply find_count_is_first.
    + by apply (find_count_None _ _ Hu) in Hfind.
  - intros N after. destruct (decimal_pretty N) as [Hne Hval].
    rewrite (find_count_first _ " weeks ago" (Z.of_N N) Hweeks); [done|].
    exists "". split.
    + exists (pretty N), after. by rewrite append_nil_l.
    + intros; simpl; lia.
Qed.

(** `12 weeks ago` is twelve weeks, whatever follows it; and `yesterday`
    applies when no number stands before a unit. *)
Lemma parse_temporal_rules_witness :
  parse_temporal "12 weeks ago, or was it 2 days ago?" 1764633600000
  = Some {| w_start := 1764633600000 - 84 * DAY_MS - 302400000;
            w_end := 1764633600000 - 84 * DAY_MS + 302400000 |}
  ∧ parse_temporal "many weeks ago? no: yesterday" 1764633600000
    = Some {| w_start := 1764633600000 - 2 * DAY_MS;
              w_end := 1764633600000 - 1 * DAY_MS |}.
Proof.
  split.
  - apply (proj1 (parse_temporal_rules "12 weeks ago, or was it 2 days ago?"
                    1764633600000) 12).
    exists "". split.
    + by exists "12", ", or was it 2 days ago?".
    + intros; simpl; lia.
  - destruct (parse_temporal_rules "many weeks ago? no: yesterday"
                1764633600000) as (_ & _ & _ & _ & Ryesterday & _).
    assert (∀ after, no_digit_ahead (" weeks ago" +:+ after)) as Hweeks by done.
    assert (∀ after, no_digit_ahead (" days ago" +:+ after)) as Hdays by done.
    apply Ryesterday.
    + by apply (find_count_None _ _ Hweeks).
    + by apply (find_count_None _ _ Hdays).
    + by apply contains_not_mentions.
    + by apply contains_not_mentions.
    + by exists "many weeks ago? no: ", "".
Defined.

(** ** Deleting a meeting *)

Lemma filter_none {A} (P : A → Prop) `{∀ x, Decision (P x)} (l : list A) :
  (∀ x, x ∈ l → ¬ P x) → filter P l = [].
Proof.
  induction l as [|x l IH]; intros Hnone; [done|].
  rewrite filter_cons_False by (apply Hnone; left).
  apply IH. intros y Hy. apply Hnone. by right.
Qed.

Lemma filter_after_delete {A} (P : A → Prop) `{∀ x, Decision (P x)}
    (l : list A) :
  filter P (filter (λ x, ¬ P x) l) = [].
Proof. apply filter_none. intros x [Hx _]%list_elem_of_filter. done. Qed.

(** `delete_meeting` succeeds exactly on the meetings that exist. *)
Lemma delete_meeting_ok_iff st meeting_id :
  is_ok (delete_meeting st meeting_id) = true ↔ is_Some (meeting st !! meeting_id).
Proof.
  unfold delete_meeting. simpl.
  destruct (meeting st !! meeting_id) eqn:E; simpl; split; intros H;
    try done; by destruct H.
Qed.

(** C8: when `delete_meeting` succeeds, the cascade over segments, action
    items, decisions, entity relations, meeting-knowledge links and graph
    edges has run before the delete of the meeting row, and afterwards
    `get_meeting` is `None` and every per-meeting accessor is empty. *)
Theorem delete_meeting_cascades (st : Store) (meeting_id : string) (st' : Store) :
  delete_meeting st meeting_id = Ok st' →
  (∃ st_cascaded,
      execute_all (delete_meeting_cascade meeting_id) st = Ok st_cascaded
      ∧ execute (DeleteMeetingRecord meeting_id) st_cascaded = Ok st')
  ∧ get_meeting st' meeting_id = None
  ∧ get_meeting_segments st' meeting_id = []
  ∧ get_meeting_action_items st' meeting_id = []
  ∧ get_meeting_decisions st' meeting_id = []
  ∧ get_meeting_relations st' meeting_id = []
  ∧ get_meeting_topics st' meeting_id = []
  ∧ get_meeting_people st' meeting_id = []
  ∧ get_meeting_knowledge_links st' meeting_id = []
  ∧ get_meeting_knowledge st' meeting_id = [].
Proof.
  unfold delete_meeting. simpl.
  destruct (meeting st !! meeting_id) as [m|] eqn:Hm; [|done].
  intros [= <-]. split.
  { eexists. split; [reflexivity|]. simpl. by rewrite Hm. }
  unfold get_meeting, get_meeting_segments, get_meeting_action_items,
    get_meeting_decisions, get_meeting_relations, get_meeting_topics,
    get_meeting_people, get_meeting_knowledge, get_meeting_knowledge_links.
  simpl.
  assert (filter (λ l, mk_meeting_id l = meeting_id)
            (filter (λ l, mk_meeting_id l ≠ meeting_id) (meeting_knowledge st))
          = []) as Hlinks by apply filter_after_delete.
  repeat split.
  - apply lookup_delete_eq.
  - apply filter_after_delete.
  - apply filter_after_delete.
  - apply filter_after_delete.
  - apply filter_after_delete.
  - apply filter_none. intros t _ [Ht _]%list_elem_of_filter. by apply Ht.
  - apply filter_none. intros p _ [Hp _]%list_elem_of_filter. by apply Hp.
  - done.
  - by rewrite Hlinks.
Qed.

Lemma delete_meeting_cascades_witness :
  ∃ st', delete_meeting meeting_store "m1" = Ok st'
         ∧ get_meeting st' "m1" = None
         ∧ get_meeting_segments st' "m1" = []
         ∧ get_meeting_segments st' "m2"
           = [ segment_of "m2" "Guest" "Another meeting" 4000 6000 ].
Proof.
  eexists. split; [vm_compute; reflexivity|].
  split; [|split].
  - eapply (delete_meeting_cascades meeting_store "m1"). vm_compute. reflexivity.
  - eapply (delete_meeting_cascades meeting_store "m1"). vm_compute. reflexivity.
  - vm_compute. reflexivity.
Defined.

(** ** Speaker relabeling *)

Lemma earlier_of_cases r r' :
  (earlier_of r r' = r ∧ range_start r ≤ range_start r')
  ∨ (earlier_of r r' = r' ∧ range_start r' < range_start r).
Proof. unfold earlier_of. destruct (Z.ltb_spec (range_start r') (range_start r)); auto. Qed.

(** The range a midpoint resolves to is one of the ranges it falls inside,
    and none of those starts before it; a midpoint resolves to nothing only
    when it falls inside no range. *)
Lemma resolve_range_spec diarization mid :
  match resolve_range diarization mid with
  | Some r =>
      r ∈ diarization ∧ covers r mid = true
      ∧ ∀ r', r' ∈ diarization → covers r' mid = true →
              range_start r ≤ range_start r'
  | None => ∀ r', r' ∈ diarization → covers r' mid = false
  end.
Proof.
  induction diarization as [|r rest IH]; simpl.
  - by intros r' ?%elem_of_nil.
  - destruct (covers r mid) eqn:Hr.
    + destruct (resolve_range rest mid) as [r0|].
      * destruct IH as (Hin & Hc & Hmin).
        destruct (earlier_of_cases r r0) as [[-> Hle]|[-> Hlt]].
        -- split; [left|]. split; [done|].
           intros r' [->|Hr']%elem_of_cons Hc'; [lia|].
           specialize (Hmin r' Hr' Hc'). lia.
        -- split; [by right|]. split; [done|].
           intros r' [->|Hr']%elem_of_cons Hc'; [lia|]. by apply Hmin.
      * split; [left|]. split; [done|].
        intros r' [->|Hr']%elem_of_cons Hc'; [lia|].
        rewrite (IH r' Hr') in Hc'. done.
    + destruct (resolve_range rest mid) as [r0|].
      * destruct IH as (Hin & Hc & Hmin). split; [by right|]. split; [done|].
        intros r' [->|Hr']%elem_of_cons Hc'; [congruence|]. by apply Hmin.
      * intros r' [->|Hr']%elem_of_cons; [done|]. by apply IH.
Qed.

Lemma covers_inside r mid :
  covers r mid = true ↔ range_start r ≤ mid ≤ range_end r.
Proof. unfold covers. rewrite andb_true_iff, !Z.leb_le. done. Qed.

(** In ranges that do not overlap, a midpoint after the start of a range
    and up to its end resolves to that range: also on its end, though the
    range that starts there covers the midpoint too. *)
Lemma resolve_range_inside diarization r mid :
  non_overlapping diarization →
  r ∈ diarization →
  range_start r < mid ≤ range_end r →
  resolve_range diarization mid = Some r.
Proof.
  intros Hno [i Hi]%list_elem_of_lookup Hmid.
  assert (covers r mid = true) as Hcov by (apply covers_inside; lia).
  pose proof (resolve_range_spec diarization mid) as Hspec.
  destruct (resolve_range diarization mid) as [r0|].
  - destruct Hspec as (Hin & Hc0 & Hmin).
    apply list_elem_of_lookup in Hin as [j Hj].
    destruct (decide (i = j)) as [->|Hne]; [congruence|].
    assert (range_start r0 ≤ range_start r) as Hle.
    { apply Hmin; [|done]. apply list_elem_of_lookup. eauto. }
    apply covers_inside in Hc0.
    destruct (Hno i j r r0 Hne Hi Hj) as [H|H]; lia.
  - rewrite Hspec in Hcov; [done|]. apply list_elem_of_lookup. eauto.
Qed.

Lemma new_label_Some meeting_id diarization seg label :
  new_label meeting_id diarization seg = Some label ↔
  seg_meeting_id seg = meeting_id ∧ seg_speaker seg = "Guest"
  ∧ ∃ r, resolve_range diarization (midpoint seg) = Some r
         ∧ label = range_label r.
Proof.
  unfold new_label, is_generic_label.
  destruct (bool_decide_reflect (seg_meeting_id seg = meeting_id)) as [Hm|Hm];
    destruct (bool_decide_reflect (seg_speaker seg = "Guest")) as [Hs|Hs]; simpl;
    try (split; [done|tauto]).
  destruct (resolve_range diarization (midpoint seg)) as [r|]; simpl.
  - split; [intros [= <-]; eauto|]. by intros (_ & _ & r' & [= <-] & ->).
  - split; [done|]. by intros (_ & _ & r' & [=] & _).
Qed.

(** C7: `relabel_speakers` changes the segments only, and of them it
    rewrites exactly the "Guest" segments of the meeting whose midpoint
    (start_ms + end_ms)/2 falls inside a range of the diarization, the ends
    of a range included: such a segment gets the label of a range that
    holds its midpoint, the one that starts first; every other segment is
    left as it is.  When the ranges do not overlap, a segment whose
    midpoint lies after the start of a range and up to its end gets the
    label of that very range; so a midpoint on the boundary between two
    ranges resolves to the earlier one. *)
Theorem relabel_speakers_spec (st : Store) (meeting_id : string)
    (diarization : list DiarizationRange) :
  let st' := (relabel_speakers st meeting_id diarization).1 in
  st' = with_segment st (segment st')
  ∧ Forall2
      (λ seg seg',
         let mid := (seg_start_ms seg + seg_end_ms seg) / 2 in
         (seg_meeting_id seg = meeting_id ∧ seg_speaker seg = "Guest"
          ∧ ∃ r, r ∈ diarization
                 ∧ range_start r ≤ mid ≤ range_end r
                 ∧ (∀ r', r' ∈ diarization →
                          range_start r' ≤ mid ≤ range_end r' →
                          range_start r ≤ range_start r')
                 ∧ seg' = with_speaker seg (range_label r))
         ∨ (¬ (seg_meeting_id seg = meeting_id ∧ seg_speaker seg = "Guest"
               ∧ ∃ r, r ∈ diarization ∧ range_start r ≤ mid ≤ range_end r)
            ∧ seg' = seg))
      (segment st) (segment st')
  ∧ (non_overlapping diarization →
     ∀ i seg r,
       segment st !! i = Some seg →
       seg_meeting_id seg = meeting_id → seg_speaker seg = "Guest" →
       r ∈ diarization →
       range_start r < (seg_start_ms seg + seg_end_ms seg) / 2 ≤ range_end r →
       segment st' !! i = Some (with_speaker seg (range_label r))).
Proof.
  simpl. split; [done|]. split.
  - apply Forall2_fmap_r, Forall_Forall2_diag, Forall_forall. intros seg _.
    unfold compose. cbv beta zeta. unfold relabel_segment.
    pose proof (resolve_range_spec diarization (midpoint seg)) as Hspec.
    destruct (new_label meeting_id diarization seg) as [label|] eqn:E.
    + apply new_label_Some in E as (Hm & Hs & r & Hr & ->). left.
      split; [done|]. split; [done|]. exists r.
      rewrite Hr in Hspec. destruct Hspec as (Hin & Hc & Hmin).
      split; [done|]. split; [by apply covers_inside|]. split; [|done].
      intros r' Hr' Hc'. apply Hmin; [done|]. by apply covers_inside.
    + right. split; [|done]. intros (Hm & Hs & r & Hin & Hc).
      destruct (resolve_range diarization (midpoint seg)) as [r0|] eqn:Hr.
      * assert (new_label meeting_id diarization seg = Some (range_label r0))
          as E'; [|congruence].
        apply new_label_Some. split; [done|]. split; [done|]. by exists r0.
      * apply covers_inside in Hc.
        change (covers r (midpoint seg) = true) in Hc.
        by rewrite (Hspec r Hin) in Hc.
  - intros Hno i seg r Hi Hm Hs Hin Hmid.
    rewrite list_lookup_fmap, Hi. simpl. f_equal. unfold relabel_segment.
    assert (new_label meeting_id diarization seg = Some (range_label r)) as ->;
      [|done].
    apply new_label_Some. split; [done|]. split; [done|]. exists r.
    split; [|done]. by apply resolve_range_inside.
Qed.

Lemma three_ranges_non_overlapping : non_overlapping three_ranges.
Proof.
  intros i j r r' Hne Hi Hj.
  destruct i as [|[|[|i]]]; destruct j as [|[|[|j]]];
    simpl in Hi, Hj; try done; simplify_eq; unfold range_start, range_end;
    simpl; lia.
Qed.

(** The scenario of the spec: midpoints 5 s, 15 s and 25 s under the three
    ranges; the "You" segment and the other meeting are left alone.  And a
    "Guest" segment with its midpoint at 10 s, the boundary of the first
    two ranges, gets the label of the first. *)
Lemma relabel_speakers_spec_witness :
  seg_speaker <$> segment (relabel_speakers meeting_store "m1" three_ranges).1
  = [ "Speaker 1"; "You"; "Speaker 2"; "Speaker 3"; "Guest" ]
  ∧ segment (relabel_speakers boundary_store "m1" three_ranges).1 !! 0%nat
    = Some (segment_of "m1" "Speaker 1" "On the boundary" 9000 11000).
Proof.
  split; [vm_compute; reflexivity|].
  destruct (relabel_speakers_spec boundary_store "m1" three_ranges)
    as (_ & _ & Hinside).
  apply (Hinside three_ranges_non_overlapping 0%nat
           (segment_of "m1" "Guest" "On the boundary" 9000 11000)
           (0, 10000, 0, "Speaker 1")).
  - reflexivity.
  - reflexivity.
  - reflexivity.
  - apply list_elem_of_here.
  - vm_compute. split; [reflexivity|discriminate].
Defined.

(** ** Ingesting a knowledge source *)

Example split_paragraphs :
  split "Intro

Body

" "

" = ["Intro"; "Body"; ""].
Proof. vm_compute. reflexivity. Qed.

Lemma append_snoc_split (x u v : string) c :
  x +:+ String c "" = u +:+ v → v ≠ "" →
  ∃ v0, v = v0 +:+ String c "" ∧ x = u +:+ v0.
Proof.
  revert x. induction u as [|d u IH]; intros x Heq Hv.
  - exists x. by rewrite !append_nil_l in *.
  - destruct x as [|d' x]; rewrite !append_cons in Heq.
    + injection Heq as _ Heq. destruct u; [|done].
      by rewrite append_nil_l in Heq.
    + injection Heq as -> Heq. destruct (IH x Heq Hv) as (v0 & -> & ->).
      by exists v0.
Qed.

(** No piece of a split holds the pattern.  [cur] is clear of it: no
    occurrence of the pattern starts inside it. *)
Lemma split_go_no_pattern fuel s pat cur :
  pat ≠ "" → (String.length s ≤ fuel)%nat →
  (∀ u v, rev_string "" cur = u +:+ v → v ≠ "" →
          starts_with (v +:+ s) pat = false) →
  ∀ piece, piece ∈ split_go fuel s pat cur → contains piece pat = false.
Proof.
  intros Hpat. revert s cur.
  assert (∀ s cur rest,
            (∀ u v, rev_string "" cur = u +:+ v → v ≠ "" →
                    starts_with (v +:+ s) pat = false) →
            s = pat +:+ rest ∨ s = "" →
            contains (rev_string "" cur) pat = false) as Hlast.
  { intros s cur rest Hclear Hs.
    destruct (contains (rev_string "" cur) pat) eqn:Hc; [|done].
    apply contains_spec in Hc as (pre & post & Hc).
    assert (pat +:+ post ≠ "") as Hne by (by destruct pat).
    specialize (Hclear pre (pat +:+ post) Hc Hne).
    by rewrite append_assoc, starts_with_app in Hclear. }
  induction fuel as [|fuel IH]; intros s cur Hlen Hclear piece Hin.
  - destruct s; [|simpl in Hlen; lia].
    apply list_elem_of_singleton in Hin as ->.
    apply (Hlast "" cur ""); [done|by right].
  - destruct s as [|c s].
    { apply list_elem_of_singleton in Hin as ->.
      apply (Hlast "" cur ""); [done|by right]. }
    cbn [split_go] in Hin.
    destruct (strip_prefix (String c s) pat) as [rest|] eqn:E.
    + pose proof (strip_prefix_Some _ _ _ E) as Hs.
      apply elem_of_cons in Hin as [->|Hin].
      * apply (Hlast (String c s) cur rest); [done|by left].
      * assert (String.length rest ≤ fuel)%nat as Hrest.
        { apply (f_equal String.length) in Hs. rewrite length_append in Hs.
          destruct pat; [done|]. simpl in Hs, Hlen. lia. }
        apply (IH rest "" Hrest); [|done].
        intros u v Huv Hv. destruct u; [|done]. by destruct v.
    + apply (IH s (String c cur)); [simpl in Hlen; lia| |done].
      intros u v Huv Hv. simpl in Huv.
      rewrite (rev_string_acc (String c "")) in Huv.
      destruct (append_snoc_split _ _ _ _ Huv Hv) as (v0 & -> & Hcur).
      rewrite append_assoc. change (String c "" +:+ s) with (String c s).
      destruct v0 as [|d v0].
      * rewrite append_nil_l. unfold starts_with. by rewrite E.
      * by apply (Hclear u (String d v0)).
Qed.

(** The pieces of a split are free of the pattern. *)
Lemma split_no_pattern s pat piece :
  pat ≠ "" → piece ∈ split s pat → ¬ mentions piece pat.
Proof.
  intros Hpat Hin. apply contains_not_mentions.
  apply (split_go_no_pattern (String.length s) s pat ""); [done..| |done].
  intros u v Huv Hv. destruct u; [|done]. by destruct v.
Qed.

Lemma store_chunks_embed (E E' : Engines) D source_id chunks st :
  embed E' = embed E →
  store_chunks E' D source_id chunks st = store_chunks E D source_id chunks st.
Proof.
  intros Hembed. revert st.
  induction chunks as [|chunk chunks IH]; intros st; simpl; [done|].
  rewrite Hembed. destruct (embed E (ch_text chunk)); [|done].
  destruct (create_knowledge_chunk D st _) as [st1 [[]|e]]; [apply IH|done].
Qed.

Lemma process_entities_for_source_tables now st source_id entities :
  knowledge_source (process_entities_for_source now st source_id entities)
  = knowledge_source st
  ∧ knowledge_chunk (process_entities_for_source now st source_id entities)
    = knowledge_chunk st.
Proof.
  unfold process_entities_for_source. revert st.
  induction entities as [|[text label] entities IH]; intros st; simpl; [done|].
  destruct (IH (if bool_decide (label = "person")
                then with_person st (upsert_person now text (person st))
                else if is_topic_label label
                     then with_topic st (upsert_topic now text (topic st))
                     else st)) as [-> ->].
  by destruct (bool_decide (label = "person")), (is_topic_label label).
Qed.

Lemma extract_step_tables E source_id now st text_chunk :
  knowledge_source (extract_step E source_id now st text_chunk)
  = knowledge_source st
  ∧ knowledge_chunk (extract_step E source_id now st text_chunk)
    = knowledge_chunk st.
Proof.
  unfold extract_step.
  destruct (extract_with_relations E text_chunk) as [[entities rels]|e]; [|done].
  simpl. apply process_entities_for_source_tables.
Qed.

Lemma extract_loop_tables E source_id now sample st :
  knowledge_source (foldl (extract_step E source_id now) st sample)
  = knowledge_source st
  ∧ knowledge_chunk (foldl (extract_step E source_id now) st sample)
    = knowledge_chunk st.
Proof.
  revert st. induction sample as [|p sample IH]; intros st; simpl; [done|].
  destruct (IH (extract_step E source_id now st p)) as [-> ->].
  apply extract_step_tables.
Qed.

Lemma extract_loop_ext (E E' : Engines) source_id now sample st :
  (∀ p, p ∈ sample → extract_with_relations E' p = extract_with_relations E p) →
  foldl (extract_step E' source_id now) st sample
  = foldl (extract_step E source_id now) st sample.
Proof.
  revert st. induction sample as [|p sample IH]; intros st Hsame; simpl; [done|].
  unfold extract_step at 2 4. rewrite (Hsame p) by left.
  apply IH. intros q Hq. apply Hsame. by right.
Qed.

Lemma extract_with_relations_ext (E E' : Engines) p :
  extract_entities E' p = extract_entities E p →
  (∀ entities,
     try_extract_relationships E' p entities
     = try_extract_relationships E p entities) →
  extract_with_relations E' p = extract_with_relations E p.
Proof.
  intros Hents Hrels. unfold extract_with_relations. rewrite Hents.
  destruct (extract_entities E p) as [entities|e]; [|done].
  by rewrite Hrels.
Qed.

Lemma with_entity_relation_same st :
  with_entity_relation st (entity_relation st) = st.
Proof. by destruct st. Qed.

(** C9, as written, fails at a paragraph of exactly 50 bytes: it is the
    first paragraph of its document and has at least 50 characters, and
    the entity engine finds a person and a topic in it, yet the ingestion,
    which succeeds, runs no extraction over it and stores neither; over
    the sample as the claim words it, the person would be stored. *)
Lemma paragraph_of_50_bytes_not_sampled :
  let added :=
    add_knowledge_source test_engines test_db empty_store 1764633600000
      "file:///note.md" "Note" fifty_bytes "file" [] in
  String.length fifty_bytes = 50%nat
  ∧ split fifty_bytes "

" = [fifty_bytes]
  ∧ text_chunks_at_least_50 fifty_bytes = [fifty_bytes]
  ∧ extract_entities test_engines fifty_bytes
    = Ok [("John", "person"); ("budget", "topic")]
  ∧ added.2 = Ok "knowledge_source:doc1"
  ∧ text_chunks fifty_bytes = []
  ∧ person added.1 = [] ∧ topic added.1 = []
  ∧ person_name
      <$> person (foldl (extract_step test_engines "knowledge_source:doc1"
                                      1764633600000)
                        empty_store (text_chunks_at_least_50 fifty_bytes))
    = ["john"].
Proof. vm_compute. done. Qed.

(** C9 (amended): for every document content passed to
    `add_knowledge_source`, the extraction runs over a capped sample only:
    the first 20 of the paragraphs (split on blank lines) of more than 50
    characters, as `len` counts them.  The paragraphs are the pieces of
    the content between blank lines: joined by blank lines they give the
    content back, and none of them holds a blank line.  The sample is a
    prefix of the long ones and holds 20 of them, or all when there are
    fewer.  When the
    source row and the chunks are written, the ingestion succeeds with the
    id of the source, and the store it leaves is the one the extraction
    steps over the sampled paragraphs, in order, make of the store with
    the chunks.  Whatever the extraction does, the outcome and the source
    and chunk rows are the same; the whole result depends on the
    extraction only through the sampled paragraphs.  A failing entity
    extraction on a paragraph leaves the store as it was; a failing
    relation inference gives an empty relation set: the entities are
    stored and no relation is. *)
Theorem add_knowledge_source_extraction_sampled (E E' : Engines) (D : Db)
    (st : Store) (now : Z) (url title content source_type : string)
    (tags : list string) :
  let paragraphs := split content "

" in
  let long := filter (λ p, (50 < String.length p)%nat) paragraphs in
  let added := add_knowledge_source E D st now url title content source_type tags in
  let added' := add_knowledge_source E' D st now url title content source_type tags in
  join "

" paragraphs = content
  ∧ (∀ p, p ∈ paragraphs → ¬ mentions p "

")
  ∧ text_chunks content `prefix_of` long
  ∧ length (text_chunks content) = (20 `min` length long)%nat
  ∧ (∀ st0 st1 source_id,
       create_source D st url title content source_type tags
       = (st0, Ok source_id) →
       store_chunks E D source_id (chunk_markdown E content) st0
       = (st1, Ok ()) →
       added = (foldl (extract_step E source_id now) st1 (text_chunks content),
                Ok source_id))
  ∧ (embed E' = embed E → chunk_markdown E' = chunk_markdown E →
     added'.2 = added.2
     ∧ knowledge_source added'.1 = knowledge_source added.1
     ∧ knowledge_chunk added'.1 = knowledge_chunk added.1)
  ∧ (embed E' = embed E → chunk_markdown E' = chunk_markdown E →
     (∀ p, p ∈ text_chunks content →
           extract_entities E' p = extract_entities E p
           ∧ ∀ entities,
               try_extract_relationships E' p entities
               = try_extract_relationships E p entities) →
     added' = added)
  ∧ (∀ st0 source_id p e,
       extract_entities E p = Err e →
       extract_step E source_id now st0 p = st0)
  ∧ (∀ st0 source_id p entities e,
       extract_entities E p = Ok entities →
       try_extract_relationships E p entities = Err e →
       extract_step E source_id now st0 p
       = process_entities_for_source now st0 source_id entities).
Proof.
  intros paragraphs long added added'.
  split; [by apply join_split|].
  split; [intros p Hp; by apply (split_no_pattern content)|].
  split; [apply prefix_take|].
  split; [unfold text_chunks; by rewrite length_take|].
  split; [|split; [|split; [|split]]].
  - intros st0 st1 source_id Hcreate Hloop.
    unfold added, add_knowledge_source. by rewrite Hcreate, Hloop.
  - intros Hembed Hchunk. unfold added, added', add_knowledge_source.
    destruct (create_source D st url title content source_type tags)
      as [st0 [source_id|e]]; [|done].
    rewrite Hchunk, (store_chunks_embed E E' _ _ _ _ Hembed).
    destruct (store_chunks E D _ _ _) as [st1 [[]|e]]; simpl; [|done].
    split; [done|].
    by rewrite !(proj1 (extract_loop_tables _ _ _ _ _)),
               !(proj2 (extract_loop_tables _ _ _ _ _)).
  - intros Hembed Hchunk Hsame. unfold added, added', add_knowledge_source.
    destruct (create_source D st url title content source_type tags)
      as [st0 [source_id|e]]; [|done].
    rewrite Hchunk, (store_chunks_embed E E' _ _ _ _ Hembed).
    destruct (store_chunks E D _ _ _) as [st1 [[]|e]]; simpl; [|done].
    f_equal. apply extract_loop_ext. intros p Hp.
    destruct (Hsame p Hp) as [Hents Hrels].
    by apply extract_with_relations_ext.
  - intros st0 source_id p e Herr.
    unfold extract_step, extract_with_relations. by rewrite Herr.
  - intros st0 source_id p entities e Hents Hrel.
    unfold extract_step, extract_with_relations. rewrite Hents, Hrel.
    case_bool_decide; unfold process_relationships_for_source;
      by rewrite fmap_nil, app_nil_r, with_entity_relation_same.
Qed.

(** The minutes of the examples: the title and the short paragraph are not
    sampled; the ingestion succeeds with no entity engine at all; with
    one that reads the first sampled paragraph and fails on the second,
    John is stored. *)
Lemma add_knowledge_source_extraction_sampled_witness :
  (add_knowledge_source engines_without_entities test_db empty_store
     1764633600000 "file:///minutes.md" "Minutes" sample_document "file" []).2
  = Ok "knowledge_source:doc1"
  ∧ text_chunks sample_document
    = [ "John will review the budget by Friday, and report back to the whole team.";
        "A garbled paragraph that the entity engine cannot read at all, not one word." ]
  ∧ person_name <$> person
      (add_knowledge_source test_engines test_db empty_store
         1764633600000 "file:///minutes.md" "Minutes" sample_document "file" []).1
    = ["john"].
Proof.
  destruct (add_knowledge_source_extraction_sampled test_engines
              engines_without_entities test_db empty_store 1764633600000
              "file:///minutes.md" "Minutes" sample_document "file" [])
    as (_ & _ & _ & _ & _ & Hsame & _).
  destruct (Hsame eq_refl eq_refl) as (Hres & _).
  split; [rewrite Hres; vm_compute; reflexivity|].
  split; vm_compute; reflexivity.
Defined.

(** ** Graph-RAG query *)

Lemma list_filter_false {A} (f : A → bool) (l : list A) :
  (∀ x, f x = false) → List.filter f l = [].
Proof.
  intros Hf. induction l as [|x l IH]; simpl; [done|]. by rewrite Hf.
Qed.

Lemma existsb_false {A} (f : A → bool) (l : list A) :
  (∀ x, f x = false) → existsb f l = false.
Proof.
  intros Hf. induction l as [|x l IH]; simpl; [done|]. by rewrite Hf.
Qed.

Lemma is_extracted_nil name : is_extracted [] name = false.
Proof. apply bool_decide_eq_false_2, not_elem_of_nil. Qed.

Lemma relation_in_meetings_nil r : relation_in_meetings [] r = false.
Proof.
  unfold relation_in_meetings. destruct (rel_meeting_id r); [|done].
  apply bool_decide_eq_false_2, not_elem_of_nil.
Qed.

(** With no extracted entity the three graph sections are empty, whatever
    the store holds. *)
Lemma graph_sections_without_entities st window limit :
  get_related_meetings st [] window limit = []
  ∧ get_related_people st [] [] = []
  ∧ get_topic_context st [] = [].
Proof.
  unfold get_related_meetings, get_related_people, get_topic_context.
  repeat split.
  - rewrite list_filter_false; [by destruct limit|].
    intros [id m]. simpl. rewrite existsb_false; [done|].
    intros seg. apply andb_false_r.
  - apply list_filter_false. intros p. apply existsb_false. intros r.
    rewrite !is_extracted_nil, relation_in_meetings_nil.
    by rewrite !andb_false_r.
  - apply list_filter_false. intros t. apply is_extracted_nil.
Qed.

Lemma length_vector_section E st question limit :
  (length (vector_section E st question limit) ≤ limit)%nat.
Proof.
  unfold vector_section, search_knowledge.
  destruct (embed E question) as [qe|e]; simpl; [|lia].
  rewrite length_fmap, length_query_chunks. lia.
Qed.

(** C1: the Graph-RAG query returns a bundle for every question, store
    and clock, whatever the collaborators do on the question.  Its
    vector-search section is what `search_knowledge` finds for the
    question (nothing when that search fails), at most `limit` hits, and
    does not depend on the graph sections; its entities are the extracted
    ones, and its graph sections are those of its entities and its
    temporal note.  When no entity is extracted from the question and no
    temporal phrase is parsed, the bundle has no temporal note, no
    entities and no related meetings, people or topics, whatever the store
    holds.  The retrieval of `ask` asks the query for five results and
    returns that bundle; over a query that fails, as the program's can
    while a model loads, it returns the five hits of the vector search
    alone, every other section empty, and fails only with the error of
    that search. *)
Theorem graph_rag_query_no_data_is_ok (E : Engines) (st : Store)
    (question : string) (limit : nat) (now : Z) :
  (∃ bundle,
     graph_rag_query E st question limit now = Ok bundle
     ∧ gc_temporal bundle = parse_temporal question now
     ∧ gc_similar_chunks bundle
       = match search_knowledge E st question limit None with
         | Ok results => results
         | Err _ => []
         end
     ∧ (length (gc_similar_chunks bundle) ≤ limit)%nat
     ∧ (∀ entities, extract_entities E question = Ok entities →
                    gc_entities bundle = entities)
     ∧ gc_related_meetings bundle
       = get_related_meetings st (gc_entities bundle) (gc_temporal bundle)
           limit
     ∧ gc_related_people bundle
       = get_related_people st (gc_entities bundle)
           (fst <$> gc_related_meetings bundle)
     ∧ gc_related_topics bundle = get_topic_context st (gc_entities bundle)
     ∧ ((∀ entities, extract_entities E question = Ok entities →
                     entities = []) →
        parse_temporal question now = None →
        gc_temporal bundle = None ∧ gc_entities bundle = []
        ∧ gc_related_meetings bundle = []
        ∧ gc_related_people bundle = []
        ∧ gc_related_topics bundle = []))
  ∧ ask_context E st question now = graph_rag_query E st question 5 now
  ∧ (∀ (failing : string → nat → Result GraphContext) failure results,
       failing question 5%nat = Err failure →
       search_knowledge E st question 5 None = Ok results →
       ∃ bundle,
         ask_retrieval failing (search_knowledge E st) question = Ok bundle
         ∧ gc_similar_chunks bundle = results
         ∧ gc_temporal bundle = None ∧ gc_entities bundle = []
         ∧ gc_related_meetings bundle = []
         ∧ gc_related_people bundle = []
         ∧ gc_related_topics bundle = []
         ∧ gc_open_action_items bundle = []
         ∧ gc_recent_decisions bundle = [])
  ∧ (∀ (failing : string → nat → Result GraphContext) failure failure',
       failing question 5%nat = Err failure →
       search_knowledge E st question 5 None = Err failure' →
       ask_retrieval failing (search_knowledge E st) question = Err failure').
Proof.
  split; [|split; [done|split]].
  - eexists. split; [reflexivity|]. cbn [gc_temporal gc_similar_chunks
      gc_entities gc_related_meetings gc_related_people gc_related_topics].
    split; [done|]. split; [done|].
    split; [apply length_vector_section|].
    split; [intros entities Hents; unfold question_entities; by rewrite Hents|].
    do 3 (split; [done|]).
    intros Hents Hwin.
    assert (question_entities E question = []) as ->.
    { unfold question_entities.
      destruct (extract_entities E question) as [entities|e]; [|done].
      by apply Hents. }
    destruct (graph_sections_without_entities st
                (parse_temporal question now) limit) as (Hm & Hp & Ht).
    rewrite Hm. simpl. by rewrite Hp, Ht.
  - intros failing failure results Hfail Hsearch. unfold ask_retrieval.
    rewrite Hfail, Hsearch. eexists. split; [reflexivity|]. by repeat split.
  - intros failing failure failure' Hfail Hsearch. unfold ask_retrieval.
    by rewrite Hfail, Hsearch.
Qed.

(** The run of the log: a question with no known entity and no temporal
    phrase over a store that holds chunks gives empty graph sections and a
    vector-search section that is not empty, also when the entity engine
    is not loaded; over the empty store the bundle is entirely empty; and
    over a query that fails, the retrieval of `ask` returns the hits of
    the vector search alone. *)
Lemma graph_rag_query_no_data_is_ok_witness :
  ∃ bundle,
    graph_rag_query engines_without_entities kb_store
      "What are the key topics?" 5 1764633600000 = Ok bundle
    ∧ gc_related_meetings bundle = [] ∧ gc_related_people bundle = []
    ∧ gc_related_topics bundle = []
    ∧ length (gc_similar_chunks bundle) = 4%nat
    ∧ (is_empty_context <$> match graph_rag_query test_engines empty_store
                                    "What are the key topics?" 5 1764633600000
                            with Ok b => Some b | Err _ => None end)
      = Some true
    ∧ ∃ fallback,
        ask_retrieval (λ _ _, Err "Entity engine not initialized")
          (search_knowledge engines_without_entities kb_store)
          "What are the key topics?" = Ok fallback
        ∧ gc_entities fallback = []
        ∧ length (gc_similar_chunks fallback) = 4%nat.
Proof.
  destruct (graph_rag_query_no_data_is_ok engines_without_entities kb_store
              "What are the key topics?" 5 1764633600000)
    as ((bundle & Hrun & _ & Hv & _ & _ & _ & _ & _ & Hempty) & _ & Hfall & _).
  destruct Hempty as (_ & _ & Hm & Hp & Ht); [by intros entities [=]|done|].
  exists bundle. split; [exact Hrun|]. split; [exact Hm|].
  split; [exact Hp|]. split; [exact Ht|]. split; [|split].
  - rewrite Hv. vm_compute. reflexivity.
  - vm_compute. reflexivity.
  - destruct (search_knowledge engines_without_entities kb_store
                "What are the key topics?" 5 None) as [results|e] eqn:Hsearch;
      [|vm_compute in Hsearch; discriminate].
    destruct (Hfall (λ _ _, Err "Entity engine not initialized")
                "Entity engine not initialized" results eq_refl eq_refl)
      as (fallback & Hret & Hsim & _ & Hents & _).
    exists fallback. split; [exact Hret|]. split; [exact Hents|].
    rewrite Hsim. vm_compute in Hsearch. by injection Hsearch as <-.
Defined.

(** ** Deleting a knowledge source *)

Lemma short_id_id_part (source_id : string) :
  unwrap_or (strip_prefix source_id "knowledge_source:") source_id
  = id_part source_id.
Proof.
  unfold id_part, starts_with.
  by destruct (strip_prefix source_id "knowledge_source:").
Qed.

(** The two spellings `delete_knowledge_source` deletes under are the only
    spellings whose id part is the id it deletes. *)
Lemma id_part_spellings (source_id x : string) :
  id_part x = id_part source_id →
  x = (if starts_with source_id "knowledge_source:" then source_id
       else "knowledge_source:" +:+ source_id)
  ∨ x = id_part source_id.
Proof.
  intros Hx. unfold id_part in Hx at 1. unfold starts_with in Hx at 1.
  destruct (strip_prefix x "knowledge_source:") as [r|] eqn:Ex; [|by right].
  simpl in Hx. apply strip_prefix_Some in Ex as ->. left.
  unfold id_part, starts_with in Hx |- *.
  destruct (strip_prefix source_id "knowledge_source:") as [r'|] eqn:Es;
    simpl in Hx; subst r; [|done].
  by apply strip_prefix_Some in Es as ->.
Qed.

Lemma id_part_full_source_id (source_id : string) :
  id_part (if starts_with source_id "knowledge_source:" then source_id
           else "knowledge_source:" +:+ source_id)
  = id_part source_id.
Proof.
  destruct (starts_with source_id "knowledge_source:") eqn:E; [done|].
  by rewrite id_part_qualified, id_part_bare.
Qed.

(** The chunks `delete_knowledge_source` keeps. *)
Lemma delete_knowledge_source_chunks st source_id c :
  c ∈ knowledge_chunk (delete_knowledge_source st source_id).1 ↔
  c ∈ knowledge_chunk st
  ∧ id_part (kc_source_id c) ≠ id_part source_id
  ∧ kc_source_id c ≠ id_part source_id.
Proof.
  unfold delete_knowledge_source. rewrite short_id_id_part. simpl.
  rewrite list_elem_of_filter. split.
  - intros [Hc Hin]. split; [done|]. split; [|tauto].
    intros Heq. apply Hc. by apply id_part_spellings.
  - intros (Hin & Hid & Hs). split; [|done]. intros [H|H]; [|done].
    apply Hid. rewrite H. apply id_part_full_source_id.
Qed.

(** X1: after `delete_knowledge_source`, whichever spelling it is called
    with, the source row is gone and `get_knowledge_source` finds nothing
    under that id; the chunks left are exactly those that neither refer to
    the id nor are spelled like it; every other source row is as it was;
    and the call fails only on a row that does not deserialize. *)
Theorem delete_knowledge_source_removes (st : Store) (source_id : string) :
  let st' := (delete_knowledge_source st source_id).1 in
  get_knowledge_source st' source_id = Ok None
  ∧ (∀ c, c ∈ knowledge_chunk st' ↔
          c ∈ knowledge_chunk st
          ∧ id_part (kc_source_id c) ≠ id_part source_id
          ∧ kc_source_id c ≠ id_part source_id)
  ∧ (∀ k, k ≠ id_part source_id →
          knowledge_source st' !! k = knowledge_source st !! k)
  ∧ is_ok (delete_knowledge_source st source_id).2
    = match knowledge_source st !! id_part source_id with
      | Some Malformed => false
      | _ => true
      end.
Proof.
  split; [|split; [|split]].
  - unfold delete_knowledge_source, get_knowledge_source,
      select_knowledge_source.
    rewrite short_id_id_part. simpl. by rewrite lookup_delete_eq.
  - intros c. apply delete_knowledge_source_chunks.
  - intros k Hk. unfold delete_knowledge_source. rewrite short_id_id_part.
    simpl. by rewrite lookup_delete_ne.
  - unfold delete_knowledge_source. rewrite short_id_id_part. simpl.
    by destruct (knowledge_source st !! id_part source_id) as [[s|]|].
Qed.

(** X2: the two spellings of a bare id delete the same rows:
    `delete_knowledge_source` gives the same store and the same result for
    `s` and for `knowledge_source:s`. *)
Theorem delete_knowledge_source_both_spellings (st : Store) (s : string) :
  starts_with s "knowledge_source:" = false →
  delete_knowledge_source st ("knowledge_source:" +:+ s)
  = delete_knowledge_source st s.
Proof.
  intros Hbare. unfold delete_knowledge_source.
  rewrite !short_id_id_part, id_part_qualified, (id_part_bare s Hbare).
  by rewrite starts_with_app, Hbare.
Qed.

Lemma delete_knowledge_source_both_spellings_witness :
  delete_knowledge_source kb_store ("knowledge_source:" +:+ "abc")
  = delete_knowledge_source kb_store "abc"
  ∧ kc_source_id <$> knowledge_chunk (delete_knowledge_source kb_store "abc").1
    = [ "knowledge_source:gone"; "knowledge_source:gone" ].
Proof.
  split.
  - apply (delete_knowledge_source_both_spellings kb_store "abc"). reflexivity.
  - vm_compute. reflexivity.
Defined.

Lemma delete_knowledge_source_no_orphans st source_id :
  no_orphans st → no_orphans (delete_knowledge_source st source_id).1.
Proof.
  intros Hno c Hc. pose proof Hc as (Hin & Hid & _)%delete_knowledge_source_chunks.
  unfold orphaned. unfold delete_knowledge_source. rewrite short_id_id_part.
  simpl. rewrite lookup_delete_ne by done. by apply Hno.
Qed.

Lemma cleanup_no_orphans st :
  no_orphans st → (cleanup_orphaned_chunks st).1 = st.
Proof.
  intros Hno. unfold cleanup_orphaned_chunks. rewrite cleanup_loop_store.
  rewrite filter_all; [apply with_knowledge_chunk_same|].
  intros c Hc Hin. apply (Hno c Hc). unfold orphaned.
  by apply (deleted_ids_orphaned _ _ _ Hin).
Qed.

(** X3: `delete_knowledge_source` leaves no orphan behind: in a store
    where no chunk is orphaned, none is after the delete, and a
    `cleanup_orphaned_chunks` right after it deletes nothing. *)
Theorem delete_knowledge_source_then_cleanup (st : Store) (source_id : string) :
  no_orphans st →
  no_orphans (delete_knowledge_source st source_id).1
  ∧ (cleanup_orphaned_chunks (delete_knowledge_source st source_id).1).1
    = (delete_knowledge_source st source_id).1.
Proof.
  intros Hno. split; [by apply delete_knowledge_source_no_orphans|].
  by apply cleanup_no_orphans, delete_knowledge_source_no_orphans.
Qed.

Lemma tidy_store_no_orphans : no_orphans tidy_store.
Proof.
  intros c Hc. simpl in Hc.
  repeat (apply elem_of_cons in Hc as [->|Hc]; [vm_compute; discriminate|]).
  by apply elem_of_nil in Hc.
Qed.

Lemma delete_knowledge_source_then_cleanup_witness :
  no_orphans (delete_knowledge_source tidy_store "knowledge_source:abc").1
  ∧ kc_source_id <$> knowledge_chunk
      (cleanup_orphaned_chunks
         (delete_knowledge_source tidy_store "knowledge_source:abc").1).1
    = ["knowledge_source:xyz"].
Proof.
  destruct (delete_knowledge_source_then_cleanup tidy_store
              "knowledge_source:abc" tidy_store_no_orphans) as [Hno Hsame].
  split; [exact Hno|]. rewrite Hsame. vm_compute. reflexivity.
Defined.

(** ** The embedding loop *)

Lemma as_i32_small (n : Z) : 0 ≤ n < 2 ^ 31 → as_i32 n = n.
Proof.
  intros Hn. unfold as_i32. rewrite Z.mod_small by lia. lia.
Qed.

(** What `store_chunks` has done when it returns: it has embedded and
    stored the chunks of [stored], in order, and either that is all of
    them or the next one failed, at its embedding or at its `create`. *)
Lemma store_chunks_run E D source_id chunks st :
  ∃ stored embeddings,
    Forall2 (λ chunk embedding, embed E (ch_text chunk) = Ok embedding)
            stored embeddings
    ∧ (store_chunks E D source_id chunks st).1
      = with_knowledge_chunk st
          (knowledge_chunk st
           ++ zip_with (kb_chunk_of source_id) stored embeddings)
    ∧ (∀ k chunk embedding,
         stored !! k = Some chunk → embeddings !! k = Some embedding →
         create_error D
           (with_knowledge_chunk st
              (knowledge_chunk st
               ++ take k (zip_with (kb_chunk_of source_id) stored embeddings)))
           (kb_chunk_of source_id chunk embedding) = None)
    ∧ ((store_chunks E D source_id chunks st).2 = Ok () ∧ stored = chunks
       ∨ ∃ failed rest e,
           chunks = stored ++ failed :: rest
           ∧ (store_chunks E D source_id chunks st).2 = Err e
           ∧ (embed E (ch_text failed) = Err e
              ∨ ∃ embedding,
                  embed E (ch_text failed) = Ok embedding
                  ∧ create_error D (store_chunks E D source_id chunks st).1
                      (kb_chunk_of source_id failed embedding) = Some e)).
Proof.
  revert st. induction chunks as [|chunk chunks IH]; intros st.
  - exists [], []. simpl. rewrite app_nil_r, with_knowledge_chunk_same.
    split; [constructor|]. split; [done|]. split; [done|]. by left.
  - cbn [store_chunks].
    destruct (embed E (ch_text chunk)) as [embedding|e] eqn:Eembed.
    + fold (kb_chunk_of source_id chunk embedding).
      unfold create_knowledge_chunk.
      destruct (create_error D st (kb_chunk_of source_id chunk embedding))
        as [e|] eqn:Ecreate.
      * exists [], []. simpl. rewrite app_nil_r, with_knowledge_chunk_same.
        split; [constructor|]. split; [done|]. split; [done|].
        right. exists chunk, chunks, e. split; [done|]. split; [done|].
        right. by exists embedding.
      * destruct (IH (with_knowledge_chunk st
                        (knowledge_chunk st
                         ++ [kb_chunk_of source_id chunk embedding])))
          as (stored & embeddings & Hall & Hst & Hacc & Hres).
        exists (chunk :: stored), (embedding :: embeddings).
        split; [by constructor|]. split; [|split].
        -- rewrite Hst. simpl. by rewrite <- app_assoc.
        -- intros [|k] chunk' embedding' Hk He; simpl in Hk, He.
           ++ injection Hk as <-. injection He as <-. simpl.
              by rewrite app_nil_r, with_knowledge_chunk_same.
           ++ specialize (Hacc k chunk' embedding' Hk He).
              simpl in Hacc |- *. by rewrite <- app_assoc in Hacc.
        -- destruct Hres as [[Hok ->]|(failed & rest & e & -> & Herr & Hwhy)];
             [by left|].
           right. by exists failed, rest, e.
    + exists [], []. simpl. rewrite app_nil_r, with_knowledge_chunk_same.
      split; [constructor|]. split; [done|]. split; [done|].
      right. exists chunk, chunks, e. split; [done|]. split; [done|]. by left.
Qed.

(** X4: the embedding loop of `add_knowledge_source` stores one row per
    chunk of the chunker, in order, after the rows already there: the
    given `source_id`, the text of the chunk, the chunk's own
    `chunk_index` as an `i32` (the index itself below 2^31) and the
    embedding of its text; the store took each of these rows, in the
    state the rows before it had left.  No other table changes.  It stops
    at the first chunk whose embedding or whose `create` fails, with that
    error, and does not roll back: the rows of the chunks before it stay.
    It succeeds exactly when it has stored every chunk. *)
Theorem store_chunks_prefix (E : Engines) (D : Db) (source_id : string)
    (chunks : list Chunk) (st : Store) :
  let run := store_chunks E D source_id chunks st in
  ∃ stored embeddings,
    length stored = length embeddings
    ∧ (∀ k chunk, stored !! k = Some chunk →
         ∃ embedding,
           embeddings !! k = Some embedding
           ∧ embed E (ch_text chunk) = Ok embedding
           ∧ knowledge_chunk run.1 !! (length (knowledge_chunk st) + k)%nat
             = Some {| kc_source_id := source_id; kc_text := ch_text chunk;
                       kc_chunk_index := as_i32 (ch_chunk_index chunk);
                       kc_embedding := embedding |}
           ∧ create_error D
               (with_knowledge_chunk st
                  (take (length (knowledge_chunk st) + k)
                        (knowledge_chunk run.1)))
               {| kc_source_id := source_id; kc_text := ch_text chunk;
                  kc_chunk_index := as_i32 (ch_chunk_index chunk);
                  kc_embedding := embedding |} = None
           ∧ (0 ≤ ch_chunk_index chunk < 2 ^ 31 →
              as_i32 (ch_chunk_index chunk) = ch_chunk_index chunk))
    ∧ length (knowledge_chunk run.1)
      = (length (knowledge_chunk st) + length stored)%nat
    ∧ take (length (knowledge_chunk st)) (knowledge_chunk run.1)
      = knowledge_chunk st
    ∧ with_knowledge_chunk run.1 (knowledge_chunk st) = st
    ∧ (run.2 = Ok () ∧ stored = chunks
       ∨ ∃ failed rest e,
           chunks = stored ++ failed :: rest
           ∧ run.2 = Err e
           ∧ (embed E (ch_text failed) = Err e
              ∨ ∃ embedding,
                  embed E (ch_text failed) = Ok embedding
                  ∧ create_error D run.1
                      {| kc_source_id := source_id;
                         kc_text := ch_text failed;
                         kc_chunk_index := as_i32 (ch_chunk_index failed);
                         kc_embedding := embedding |} = Some e)).
Proof.
  intros run. unfold run.
  destruct (store_chunks_run E D source_id chunks st)
    as (stored & embeddings & Hall & Hst & Hacc & Hres).
  exists stored, embeddings. pose proof (Forall2_length _ _ _ Hall) as Hlen.
  split; [done|]. split; [|split; [|split; [|split]]].
  - intros k chunk Hk.
    destruct (Forall2_lookup_l _ _ _ _ _ Hall Hk) as (embedding & He & Hok).
    exists embedding. split; [done|]. split; [done|].
    split; [|split; [|apply as_i32_small]].
    + rewrite Hst. simpl. rewrite lookup_app_r by lia.
      replace (length (knowledge_chunk st) + k - length (knowledge_chunk st))%nat
        with k by lia.
      by rewrite lookup_zip_with, Hk, He.
    + rewrite Hst. simpl. rewrite take_app_add'; [|done].
      exact (Hacc k chunk embedding Hk He).
  - rewrite Hst. simpl. rewrite length_app, length_zip_with. lia.
  - rewrite Hst. simpl. by rewrite take_app_length.
  - rewrite Hst. by destruct st.
  - exact Hres.
Qed.

(** A store with three chunks that is lost at the fifth: of the four
    chunks of the minutes the first is stored, with its index 0, the
    second fails at its `create`. *)
Lemma store_chunks_prefix_witness :
  let run :=
    store_chunks test_engines (db_lost_after 4) "knowledge_source:doc1"
      (chunk_markdown test_engines sample_document) tidy_store in
  run.2 = Err "Connection lost"
  ∧ knowledge_chunk run.1
    = knowledge_chunk tidy_store
      ++ [ {| kc_source_id := "knowledge_source:doc1"; kc_text := "Minutes";
              kc_chunk_index := 0; kc_embedding := [1%Q] |} ].
Proof.
  intros run.
  destruct (store_chunks_prefix test_engines (db_lost_after 4)
              "knowledge_source:doc1"
              (chunk_markdown test_engines sample_document) tidy_store)
    as (stored & embeddings & _ & _ & _ & _ & _ & Hres).
  destruct Hres as [[Hok _]|(failed & rest & e & _ & Herr & _)].
  - vm_compute in Hok. discriminate.
  - split; vm_compute; reflexivity.
Defined.

(** X6: `add_knowledge_source` fails in three ways only: the writing of
    the source row fails, and the store is as that left it; or, the row
    written, the embedding of a chunk fails; or the `create` of a chunk
    fails.  In the last two it does not roll back: the source table is as
    the writing of the row left it, the rows of the chunks before the
    failing one are stored, and the extraction has not run, so the person,
    topic and relation tables are as they were after the source row. *)
Theorem add_knowledge_source_failure (E : Engines) (D : Db) (st st' : Store)
    (now : Z) (url title content source_type : string)
    (tags : list string) (e : string) :
  add_knowledge_source E D st now url title content source_type tags
  = (st', Err e) →
  create_source D st url title content source_type tags = (st', Err e)
  ∨ ∃ st0 source_id stored failed rest,
      create_source D st url title content source_type tags
      = (st0, Ok source_id)
      ∧ chunk_markdown E content = stored ++ failed :: rest
      ∧ Forall (λ chunk, is_ok (embed E (ch_text chunk)) = true) stored
      ∧ (embed E (ch_text failed) = Err e
         ∨ ∃ embedding,
             embed E (ch_text failed) = Ok embedding
             ∧ create_error D st'
                 {| kc_source_id := source_id; kc_text := ch_text failed;
                    kc_chunk_index := as_i32 (ch_chunk_index failed);
                    kc_embedding := embedding |} = Some e)
      ∧ length (knowledge_chunk st')
        = (length (knowledge_chunk st0) + length stored)%nat
      ∧ knowledge_source st' = knowledge_source st0
      ∧ person st' = person st0 ∧ topic st' = topic st0
      ∧ entity_relation st' = entity_relation st0.
Proof.
  unfold add_knowledge_source.
  destruct (create_source D st url title content source_type tags)
    as [st0 [source_id|e0]]; [|intros [= <- <-]; by left].
  destruct (store_chunks_run E D source_id (chunk_markdown E content) st0)
    as (stored & embeddings & Hall & Hst & _ & Hres).
  destruct (store_chunks E D _ _ _) as [st1 [[]|e']] eqn:Hrun; [done|].
  intros [= <- <-]. simpl in Hst, Hres.
  destruct Hres as [[[=] _]|(failed & rest & e0 & Hchunks & [= <-] & Hwhy)].
  right. exists st0, source_id, stored, failed, rest.
  split; [done|]. split; [done|]. split; [|split; [done|]].
  - apply Forall_forall. intros chunk Hin.
    apply list_elem_of_lookup in Hin as [k Hk].
    destruct (Forall2_lookup_l _ _ _ _ _ Hall Hk) as (emb & _ & ->). done.
  - subst st1. simpl. split; [|done].
    rewrite length_app, length_zip_with.
    apply Forall2_length in Hall. lia.
Qed.

(** The minutes with an embedding engine that fails on the third chunk,
    over a store with three chunks: the first two chunks are stored, and
    no person is. *)
Lemma add_knowledge_source_failure_witness :
  let added :=
    add_knowledge_source engines_embedding_fails test_db tidy_store
      1764633600000 "file:///minutes.md" "Minutes" sample_document "file"
      ["notes"] in
  added.2 = Err "Embedding failed"
  ∧ length (knowledge_chunk added.1) = 5%nat
  ∧ person added.1 = [].
Proof.
  intros added.
  assert (added.2 = Err "Embedding failed") as Herr
    by (vm_compute; reflexivity).
  split; [exact Herr|]. split; [vm_compute; reflexivity|].
  destruct (add_knowledge_source_failure engines_embedding_fails test_db
              tidy_store added.1 1764633600000 "file:///minutes.md" "Minutes"
              sample_document "file" ["notes"] "Embedding failed")
    as [Hcreate|(st0 & source_id & _ & _ & _ & Hcreate & _ & _ & _ & _ & _
                 & Hperson & _)].
  { rewrite <- Herr. apply surjective_pairing. }
  - vm_compute in Hcreate. discriminate.
  - rewrite Hperson. vm_compute in Hcreate.
    by injection Hcreate as <- _.
Defined.

(** ** Ranking *)

Lemma insert_desc_perm x l : insert_desc x l ≡ₚ x :: l.
Proof.
  induction l as [|y l IH]; simpl; [done|].
  destruct (Qle_bool y.2 x.2); [done|]. rewrite IH. apply Permutation_swap.
Qed.

Lemma order_by_similarity_desc_perm l : order_by_similarity_desc l ≡ₚ l.
Proof.
  induction l as [|x l IH]; simpl; [done|].
  by rewrite insert_desc_perm, IH.
Qed.

Lemma insert_desc_sorted x l :
  StronglySorted (λ a b : KnowledgeChunk * Q, (b.2 <= a.2)%Q) l →
  StronglySorted (λ a b : KnowledgeChunk * Q, (b.2 <= a.2)%Q) (insert_desc x l).
Proof.
  induction l as [|y l IH]; intros Hsorted; simpl.
  - repeat constructor.
  - apply StronglySorted_cons in Hsorted as [Hy Hl].
    destruct (Qle_bool y.2 x.2) eqn:Hle.
    + apply Qle_bool_iff in Hle. apply StronglySorted_cons. split.
      * constructor; [done|]. eapply Forall_impl; [exact Hy|].
        intros z Hz. simpl in Hz. by apply Qle_trans with (y.2).
      * by apply StronglySorted_cons.
    + assert (x.2 <= y.2)%Q as Hxy.
      { apply Qlt_le_weak, Qnot_le_lt. intros H.
        apply Qle_bool_iff in H. congruence. }
      apply StronglySorted_cons. split; [|by apply IH].
      rewrite insert_desc_perm. by constructor.
Qed.

Lemma order_by_similarity_desc_sorted l :
  StronglySorted (λ a b : KnowledgeChunk * Q, (b.2 <= a.2)%Q)
                 (order_by_similarity_desc l).
Proof.
  induction l as [|x l IH]; simpl; [constructor|].
  by apply insert_desc_sorted.
Qed.

Lemma resolve_hit_chunk st hit : chunk (resolve_hit st hit) = hit.1.
Proof. apply resolve_hit_label. Qed.

Lemma resolve_hit_similarity st hit : similarity (resolve_hit st hit) = hit.2.
Proof. apply resolve_hit_label. Qed.

(** X7: the results of `search_knowledge` are ranked and are the top of
    the ranking: similarities never increase down the list, every result
    is a candidate chunk with the similarity of its own embedding to the
    query's, and each candidate left out has a similarity no greater than
    that of any result, so the results with the chunks left out are the
    candidates, each once. *)
Theorem search_knowledge_ranked (E : Engines) (st : Store) (query : string)
    (limit : nat) (tags : option (list string))
    (results : list KnowledgeSearchResult) :
  search_knowledge E st query limit tags = Ok results →
  StronglySorted (λ a b, (similarity b <= similarity a)%Q) results
  ∧ ∃ query_embedding dropped,
      embed E query = Ok query_embedding
      ∧ (chunk <$> results) ++ dropped ≡ₚ candidate_chunks st tags
      ∧ Forall (λ r, similarity r
                     = cosine E (kc_embedding (chunk r)) query_embedding)
               results
      ∧ ∀ r c, r ∈ results → c ∈ dropped →
               (cosine E (kc_embedding c) query_embedding <= similarity r)%Q.
Proof.
  unfold search_knowledge. destruct (embed E query) as [qe|e]; [|done].
  intros [= <-]. unfold query_chunks.
  set (scored := (λ c, (c, cosine E (kc_embedding c) qe))
                   <$> candidate_chunks st tags).
  pose proof (order_by_similarity_desc_sorted scored) as Hsorted.
  pose proof (order_by_similarity_desc_perm scored) as Hperm.
  set (ranked := order_by_similarity_desc scored) in *.
  rewrite <- (take_drop limit ranked) in Hsorted, Hperm.
  assert (∀ h, h ∈ ranked → h.2 = cosine E (kc_embedding h.1) qe) as Hscore.
  { intros h Hh. rewrite <- (take_drop limit ranked), Hperm in Hh.
    apply list_elem_of_fmap in Hh as (c & -> & _). done. }
  split.
  - eapply StronglySorted_fmap; [|exact (StronglySorted_app_1_l _ _ _ Hsorted)].
    intros h h' Hle. by rewrite !resolve_hit_similarity.
  - exists qe, ((drop limit ranked).*1). split; [done|]. split; [|split].
    + rewrite <- list_fmap_compose.
      rewrite (list_fmap_ext (chunk ∘ resolve_hit st) fst (take limit ranked))
        by (intros i h _; apply resolve_hit_chunk).
      rewrite <- fmap_app, Hperm. unfold scored.
      rewrite <- list_fmap_compose. by rewrite list_fmap_id.
    + apply Forall_fmap, Forall_forall. intros h Hh. simpl.
      rewrite resolve_hit_similarity, resolve_hit_chunk.
      apply Hscore. by eapply subseteq_take.
    + intros r c [h [-> Hh]]%list_elem_of_fmap [h' [-> Hh']]%list_elem_of_fmap.
      rewrite resolve_hit_similarity.
      rewrite <- (Hscore h') by (by eapply subseteq_drop).
      apply (StronglySorted_app_1_elem_of _ _ _ _ _ Hsorted Hh Hh').
Qed.

Lemma search_knowledge_ranked_witness :
  ∃ results,
    search_knowledge test_engines kb_store_bad_row "alpha" 2 None = Ok results
    ∧ StronglySorted (λ a b, (similarity b <= similarity a)%Q) results.
Proof.
  eexists. split; [vm_compute; reflexivity|].
  eapply (search_knowledge_ranked test_engines kb_store_bad_row "alpha" 2 None).
  vm_compute. reflexivity.
Defined.

(** ** Stereo to mono *)

Lemma frame_sum_go {F} (ops : F32Ops F) (samples : list F) (o k n : nat)
    (acc : F) :
  (o + k + n ≤ length samples)%nat →
  foldl (λ sum ch,
           match sum, samples !! (o + ch)%nat with
           | Some sum, Some x => Some (f32_add ops sum x)
           | _, _ => None
           end)
        (Some acc) (seq k n)
  = Some (foldl (f32_add ops) acc (take n (drop (o + k) samples))).
Proof.
  revert k acc. induction n as [|n IH]; intros k acc Hlen; [done|].
  destruct (lookup_lt_is_Some_2 samples (o + k)) as [x Hx]; [lia|].
  rewrite (drop_S _ _ _ Hx). simpl. rewrite Hx.
  rewrite IH by lia.
  by replace (o + S k)%nat with (S (o + k)) by lia.
Qed.

Lemma frame_sum_in_bounds {F} (ops : F32Ops F) (samples : list F)
    (channels frame : nat) :
  (frame < length samples / channels)%nat →
  frame_sum ops samples channels frame
  = Some (foldl (f32_add ops) (f32_zero ops)
                (take channels (drop (frame * channels) samples))).
Proof.
  intros Hframe. unfold frame_sum.
  destruct (decide (channels = 0%nat)) as [->|Hch];
    [rewrite Nat.div_0_r in Hframe; lia|].
  pose proof (Nat.Div0.mul_div_le (length samples) channels).
  rewrite (frame_sum_go ops samples (frame * channels) 0%nat channels) by nia.
  by rewrite Nat.add_0_r.
Qed.

(** X9: `stereo_to_mono` never indexes out of bounds, whatever the number
    of channels and the length of the buffer.  With at most one channel
    (zero included) it returns the samples as they are; with more it
    returns one sample per whole frame, `len / channels` of them, each the
    sum of its frame taken in order from zero and divided by the number of
    channels; the samples of a trailing partial frame are dropped. *)
Theorem stereo_to_mono_in_bounds {F} (ops : F32Ops F) (samples : list F)
    (channels : nat) :
  ∃ mono,
    stereo_to_mono ops samples channels = Some mono
    ∧ ((channels ≤ 1)%nat → mono = samples)
    ∧ ((2 ≤ channels)%nat →
       length mono = (length samples / channels)%nat
       ∧ ∀ frame, (frame < length samples / channels)%nat →
           mono !! frame
           = Some (f32_div ops
                     (foldl (f32_add ops) (f32_zero ops)
                            (take channels (drop (frame * channels) samples)))
                     (f32_of_usize ops channels))).
Proof.
  unfold stereo_to_mono. case_bool_decide as Hch.
  - exists samples. split; [done|]. split; [done|lia].
  - set (mean := λ frame,
           f32_div ops
             (foldl (f32_add ops) (f32_zero ops)
                    (take channels (drop (frame * channels) samples)))
             (f32_of_usize ops channels)).
    exists (mean <$> seq 0%nat (length samples / channels)%nat).
    split; [|split; [lia|]].
    + apply mapM_Some, Forall2_fmap_r, Forall_Forall2_diag, Forall_forall.
      intros frame Hframe%elem_of_seq.
      by rewrite frame_sum_in_bounds by lia.
    + intros _. split; [by rewrite length_fmap, length_seq|].
      intros frame Hframe. rewrite list_lookup_fmap.
      by rewrite lookup_seq_lt.
Qed.

(** ** Smart turn detection *)

Lemma search_question_sentence t :
  Js.search false (Js.atoms SmartTurn.QUESTION_ENDINGS) t = true →
  Js.search false (Js.atoms SmartTurn.SENTENCE_ENDINGS) t = true.
Proof.
  induction t as [|u t IH]; [done|].
  cbn [Js.search]. intros [H|H]%orb_true_iff; apply orb_true_iff.
  - left. revert H. cbn. destruct t; [|by rewrite !andb_false_r].
    rewrite !andb_true_r. intros ->%N.eqb_eq. done.
  - right. by apply IH.
Qed.

Lemma question_is_sentence_ending t :
  Js.test SmartTurn.QUESTION_ENDINGS t = true →
  Js.test SmartTurn.SENTENCE_ENDINGS t = true.
Proof. apply search_question_sentence. Qed.

Lemma test_sentence_endings_last t :
  Js.test SmartTurn.SENTENCE_ENDINGS t = true
  ↔ ∃ u, last t = Some u ∧ u ∈ [46; 33; 63]%N.
Proof.
  unfold Js.test. cbn [Js.atoms Js.ignoreCase SmartTurn.SENTENCE_ENDINGS].
  induction t as [|u t IH]; [cbn; split; [done|by intros (? & ? & _)]|].
  cbn [Js.search]. rewrite orb_true_iff, IH. clear IH.
  destruct t as [|v t].
  - cbn. rewrite !andb_true_r, !orb_false_r, !orb_true_iff, !N.eqb_eq.
    split.
    + intros [H|(? & [=] & _)]. exists u. split; [done|].
      rewrite !elem_of_cons. tauto.
    + intros (? & [= <-] & H). left. rewrite !elem_of_cons in H.
      rewrite elem_of_nil in H. tauto.
  - cbn [Js.match_here]. rewrite andb_false_r, last_cons_cons.
    split; [by intros [?|?]|by right].
Qed.

Lemma test_question_endings_last t :
  Js.test SmartTurn.QUESTION_ENDINGS t = true ↔ last t = Some 63%N.
Proof.
  unfold Js.test. cbn [Js.atoms Js.ignoreCase SmartTurn.QUESTION_ENDINGS].
  induction t as [|u t IH]; [done|].
  cbn [Js.search]. rewrite orb_true_iff, IH. clear IH.
  destruct t as [|v t].
  - cbn. rewrite andb_true_r, N.eqb_eq. split.
    + by intros [->|?].
    + intros [= ->]. by left.
  - cbn [Js.match_here]. rewrite andb_false_r, last_cons_cons.
    split; [by intros [?|?]|by right].
Qed.

Section smart_turn.
Import SmartTurn.

Lemma state_ref_assign ref f svc source :
  state_ref (assign ref f svc) source = state_ref svc source.
Proof. by destruct source. Qed.

Lemma length_objects_assign ref f svc :
  length (objects (assign ref f svc)) = length (objects svc).
Proof. apply length_alter. Qed.

Lemma deref_assign_eq ref f svc :
  (ref < length (objects svc))%nat →
  deref (assign ref f svc) ref = f (deref svc ref).
Proof.
  intros [st Hst]%lookup_lt_is_Some. unfold deref, assign.
  cbn [objects]. by rewrite list_lookup_alter_eq, Hst.
Qed.

Lemma deref_assign_ne ref ref' f svc :
  ref ≠ ref' → deref (assign ref f svc) ref' = deref svc ref'.
Proof.
  intros Hne. unfold deref, assign. cbn [objects].
  by rewrite list_lookup_alter_ne.
Qed.

Lemma wf_assign ref f svc : wf svc → wf (assign ref f svc).
Proof. unfold wf. cbn. by rewrite length_alter. Qed.

Lemma state_ref_lt svc source :
  wf svc → (state_ref svc source < length (objects svc))%nat.
Proof. intros (? & ? & ?). by destruct source. Qed.

Lemma state_ref_other svc source :
  wf svc → state_ref svc source ≠ state_ref svc (other source).
Proof. intros (? & ? & ?). by destruct source. Qed.

Lemma wf_resetState svc source : wf svc → wf (resetState svc source).
Proof.
  intros (? & ? & ?). unfold wf.
  destruct source; cbn; rewrite length_app; cbn; lia.
Qed.

Lemma resetState_fresh svc source :
  state_ref (resetState svc source) source = length (objects svc).
Proof. by destruct source. Qed.

Lemma resetState_other svc source :
  state_ref (resetState svc source) (other source)
  = state_ref svc (other source).
Proof. by destruct source. Qed.

Lemma deref_resetState_old svc source ref :
  (ref < length (objects svc))%nat →
  deref (resetState svc source) ref = deref svc ref.
Proof.
  intros Hlt. unfold deref.
  destruct source; cbn [objects resetState]; by rewrite lookup_app_l.
Qed.

Lemma deref_resetState_fresh svc source :
  deref (resetState svc source) (length (objects svc)) = createInitialState.
Proof.
  unfold deref.
  destruct source; cbn [objects resetState];
    by rewrite lookup_app_r, Nat.sub_diag.
Qed.

(** What a check does to the service: nothing when the callback is not
    called; when it is, the source gets a new initial state and every
    object that existed keeps its contents. *)
Lemma checkTurnEnd_service svc source now :
  let out := checkTurnEnd svc source now in
  match out.2 with
  | Some tr =>
      out.1 = resetState svc source ∧ callback svc = true
      ∧ speakerDone tr = true ∧ SmartTurn.source tr = source
      ∧ timestamp tr = now
  | None => out.1 = svc
  end.
Proof.
  unfold checkTurnEnd.
  destruct (negb _); [done|].
  destruct (if (maxSilenceBeforeCutoff _ <=? _)%float then _ else _)
    as [confidence reason].
  destruct (0.6 <=? confidence)%float eqn:Hdone; [|done].
  destruct (callback svc); cbn; done.
Qed.

(** The state the check of a final transcription sees. *)
Lemma processTranscription_final svc r now :
  wf svc → Transcription.isFinal r = true →
  let s := Transcription.source r in
  let t := Js.trim (Transcription.text r) in
  let analysed :=
    set_silenceDuration (minSilenceForTurn (config svc))
      (set_hasTurnPhrase (existsb (λ pattern, Js.test pattern t) TURN_PHRASES)
         (set_hasQuestion (Js.test QUESTION_ENDINGS t)
            (set_hasSentenceEnding (Js.test SENTENCE_ENDINGS t)
               (set_isFinal true
                  (set_currentText (Transcription.text r)
                     (set_isSpeaking true
                        (set_lastSpeechTime (Transcription.timestamp r)
                           (state_of svc s)))))))) in
  ∃ svc1,
    wf svc1 ∧ callback svc1 = callback svc ∧ config svc1 = config svc
    ∧ (∀ source, state_ref svc1 source = state_ref svc source)
    ∧ state_of svc1 s = analysed
    ∧ state_of svc1 (other s) = state_of svc (other s)
    ∧ processTranscription svc r now =
        let '(svc2, called) := checkTurnEnd svc1 s now in
        (assign (state_ref svc s) (set_currentText []) svc2, called).
Proof.
  intros Hwf Hfinal s t analysed. unfold processTranscription.
  rewrite Hfinal. cbv zeta.
  match goal with |- context [checkTurnEnd ?x _ _] => exists x end.
  split; [by repeat apply wf_assign|].
  do 2 (split; [done|]).
  split; [|split; [|split; [|done]]].
  - intros source. by rewrite !state_ref_assign.
  - unfold state_of. rewrite !state_ref_assign. fold s.
    pose proof (state_ref_lt svc s Hwf) as Hlt.
    rewrite !deref_assign_eq by (by rewrite ?length_objects_assign).
    done.
  - unfold state_of. rewrite !state_ref_assign.
    rewrite !deref_assign_ne by (by apply state_ref_other). done.
Qed.

Lemma checkTurnEnd_preserves svc source now :
  wf svc →
  let out := checkTurnEnd svc source now in
  wf out.1 ∧ config out.1 = config svc ∧ callback out.1 = callback svc.
Proof.
  intros Hwf out. pose proof (checkTurnEnd_service svc source now) as H.
  fold out in H. cbv zeta in H. destruct (out.2).
  - destruct H as (-> & _). split; [by apply wf_resetState|].
    by destruct source.
  - by rewrite H.
Qed.

Lemma processTranscription_preserves svc r now :
  wf svc →
  let out := processTranscription svc r now in
  wf out.1 ∧ config out.1 = config svc ∧ callback out.1 = callback svc.
Proof.
  intros Hwf. unfold processTranscription.
  destruct (Transcription.isFinal r); cbv zeta.
  - match goal with |- context [checkTurnEnd ?x ?s ?n] =>
      pose proof (checkTurnEnd_preserves x s n) as H;
      destruct (checkTurnEnd x s n) as [svc2 called]
    end.
    destruct H as (Hwf2 & Hcfg2 & Hcb2); [by repeat apply wf_assign|].
    cbn [fst] in *. split; [by apply wf_assign|].
    split; [exact Hcfg2|exact Hcb2].
  - split; [by repeat apply wf_assign|done].
Qed.

Lemma reset_preserves svc :
  wf svc →
  wf (reset svc) ∧ config (reset svc) = config svc
  ∧ callback (reset svc) = callback svc.
Proof.
  intros Hwf. split; [by repeat apply wf_resetState|done].
Qed.

(** What a final transcription makes the service report under the default
    configuration, with a callback set. *)
Lemma processTranscription_default_called svc r now :
  wf svc →
  config svc = config smartTurn →
  callback svc = true →
  Transcription.isFinal r = true →
  (processTranscription svc r now).2 =
    let t := Js.trim (Transcription.text r) in
    let phrase := existsb (λ pattern, Js.test pattern t) TURN_PHRASES in
    let report confidence reason :=
      Some {| speakerDone := true; confidence := confidence;
              reason := reason; source := Transcription.source r;
              timestamp := now |} in
    if Js.test QUESTION_ENDINGS t
    then report (if phrase then 0.7%float else 0x1.3333333333334p-1%float)
                question
    else if phrase then report 0.9%float turn_phrase
    else if Js.test SENTENCE_ENDINGS t then report 0.8%float sentence_complete
    else None.
Proof.
  intros Hwf Hcfg Hcb Hfinal.
  destruct (processTranscription_final svc r now Hwf Hfinal)
    as (svc1 & _ & Hcb1 & Hcfg1 & _ & Hstate & _ & Hrun).
  rewrite Hrun. clear Hrun.
  pose proof (question_is_sentence_ending
                (Js.trim (Transcription.text r))) as Hqe.
  unfold checkTurnEnd. unfold state_of in Hstate. rewrite Hstate.
  rewrite Hcfg1, Hcfg, Hcb1, Hcb.
  cbn [isSpeaking silenceDuration hasTurnPhrase hasSentenceEnding hasQuestion
       set_silenceDuration set_hasTurnPhrase set_hasQuestion
       set_hasSentenceEnding set_isFinal set_currentText set_isSpeaking
       set_lastSpeechTime negb].
  cbv zeta.
  destruct (Js.test QUESTION_ENDINGS _) eqn:Hq;
    [rewrite Hqe by done|destruct (Js.test SENTENCE_ENDINGS _) eqn:He];
    destruct (existsb _ TURN_PHRASES) eqn:Hp; vm_compute; reflexivity.
Qed.

(** The same, for any transcription, as a condition and the fields that
    do not depend on the text. *)
Lemma processTranscription_default_reports svc r now :
  wf svc →
  config svc = config smartTurn →
  callback svc = true →
  let t := Js.trim (Transcription.text r) in
  let called := (processTranscription svc r now).2 in
  (is_Some called
   ↔ Transcription.isFinal r = true
     ∧ ((∃ u, last t = Some u ∧ u ∈ [46; 33; 63]%N)
        ∨ existsb (λ pattern, Js.test pattern t) TURN_PHRASES = true))
  ∧ ∀ tr, called = Some tr →
      SmartTurn.source tr = Transcription.source r
      ∧ timestamp tr = now
      ∧ speakerDone tr = true
      ∧ reason tr ∈ [question; turn_phrase; sentence_complete].
Proof.
  intros Hwf Hcfg Hcb t called. subst called.
  destruct (Transcription.isFinal r) eqn:Hfinal.
  - rewrite processTranscription_default_called by done. cbv zeta.
    rewrite <- test_sentence_endings_last.
    pose proof (question_is_sentence_ending t) as Hqe. fold t.
    destruct (Js.test QUESTION_ENDINGS t) eqn:Hq;
      [rewrite Hqe by done|destruct (Js.test SENTENCE_ENDINGS t) eqn:He];
      destruct (existsb _ TURN_PHRASES) eqn:Hp;
      (split;
       [split;
        [intros H; try (by destruct H as [? [=]]); auto
        |intros [_ H]; try (by destruct H as [[=]|[=]]); by eexists]
       |intros tr [= <-]; cbn; rewrite !elem_of_cons; auto 8]).
  - unfold processTranscription. rewrite Hfinal. cbn [snd]. split; [|done].
    split; [by intros [? [=]]|by intros [[=] _]].
Qed.

(** X10: with the default configuration and a callback set, a final
    transcription ends the turn exactly when its trimmed text ends with
    `.`, `!` or `?` or with a turn phrase.  The result names the source and
    the time of the call; a text ending with `?` is reported as a question,
    with confidence 0.7 after a turn phrase and 0.6000000000000001
    otherwise, so the question penalty never keeps a turn open; a turn
    phrase without `?` gives 0.9 and any other sentence ending 0.8.  The
    reasons `silence` and `continued` are never reported. *)
Theorem processTranscription_default_decisions svc r now :
  wf svc →
  config svc = config smartTurn →
  callback svc = true →
  Transcription.isFinal r = true →
  let t := Js.trim (Transcription.text r) in
  let phrase := existsb (λ pattern, Js.test pattern t) TURN_PHRASES in
  let called := (processTranscription svc r now).2 in
  (is_Some called
   ↔ (∃ u, last t = Some u ∧ u ∈ [46; 33; 63]%N) ∨ phrase = true)
  ∧ ∀ tr, called = Some tr →
      speakerDone tr = true
      ∧ SmartTurn.source tr = Transcription.source r
      ∧ timestamp tr = now
      ∧ (reason tr, confidence tr) =
          (if bool_decide (last t = Some 63%N)
           then (question,
                 if phrase then 0.7%float else 0x1.3333333333334p-1%float)
           else if phrase then (turn_phrase, 0.9%float)
                else (sentence_complete, 0.8%float)).
Proof.
  intros Hwf Hcfg Hcb Hfinal t phrase called. subst called.
  rewrite processTranscription_default_called by done. cbv zeta.
  rewrite <- test_sentence_endings_last.
  rewrite <- (bool_decide_ext _ _ (test_question_endings_last t)).
  pose proof (question_is_sentence_ending t) as Hqe.
  fold t phrase.
  destruct (Js.test QUESTION_ENDINGS t) eqn:Hq;
    [rewrite Hqe by done|destruct (Js.test SENTENCE_ENDINGS t) eqn:He];
    destruct phrase eqn:Hp;
    rewrite ?bool_decide_eq_true_2, ?bool_decide_eq_false_2 by done;
    (split;
     [split;
      [intros H; try (by destruct H as [? [=]]); auto
      |intros H; try (by destruct H as [[=]|[=]]); by eexists]
     |intros tr [= <-]; auto]).
Qed.

Lemma processTranscription_default_decisions_witness :
  wf listening
  ∧ ∀ tr, (processTranscription listening a_question 1234).2 = Some tr →
      (reason tr, confidence tr) = (question, 0.7%float).
Proof.
  assert (wf listening) as Hwf by (unfold wf; cbn; lia).
  split; [exact Hwf|]. intros tr Htr.
  destruct (processTranscription_default_decisions listening a_question 1234
              Hwf eq_refl eq_refl eq_refl) as [_ H].
  destruct (H tr Htr) as (_ & _ & _ & Hrc). exact Hrc.
Defined.

(** X11: what a transcription does to the service, whatever the
    configuration.  The state of the other source is untouched and the two
    sources keep separate state objects.  A transcription that is not final
    never calls the callback; nor does any transcription while no callback
    is set.  After a final transcription the text of the source is empty:
    when the callback was called, the source is back in its initial state
    (the write after the check goes to the object that was replaced), and
    when it was not, the source still counts as speaking, with the time of
    the transcription. *)
Theorem processTranscription_state svc r now :
  wf svc →
  let s := Transcription.source r in
  let out := processTranscription svc r now in
  wf out.1
  ∧ config out.1 = config svc
  ∧ callback out.1 = callback svc
  ∧ state_of out.1 (other s) = state_of svc (other s)
  ∧ (callback svc = false → out.2 = None)
  ∧ (Transcription.isFinal r = false →
       out.2 = None
       ∧ state_of out.1 s =
           set_isFinal false
             (set_currentText (Transcription.text r)
                (set_isSpeaking true
                   (set_lastSpeechTime (Transcription.timestamp r)
                      (state_of svc s)))))
  ∧ (Transcription.isFinal r = true →
       currentText (state_of out.1 s) = []
       ∧ match out.2 with
         | Some tr =>
             state_of out.1 s = createInitialState
             ∧ speakerDone tr = true
             ∧ SmartTurn.source tr = s
             ∧ timestamp tr = now
         | None =>
             isSpeaking (state_of out.1 s) = true
             ∧ isFinal (state_of out.1 s) = true
             ∧ lastSpeechTime (state_of out.1 s) = Transcription.timestamp r
             ∧ silenceDuration (state_of out.1 s)
               = minSilenceForTurn (config svc)
         end).
Proof.
  intros Hwf s out.
  pose proof (state_ref_lt svc s Hwf) as Hlt.
  pose proof (state_ref_other svc s Hwf) as Hne.
  destruct (Transcription.isFinal r) eqn:Hfinal.
  - destruct (processTranscription_final svc r now Hwf Hfinal)
      as (svc1 & Hwf1 & Hcb1 & Hcfg1 & Href & Hstate & Hother & Hrun).
    fold s in Hstate, Hother, Hrun. subst out. rewrite Hrun. clear Hrun.
    pose proof (checkTurnEnd_service svc1 s now) as Hcheck.
    pose proof (state_ref_lt svc1 s Hwf1) as Hlt1.
    destruct (checkTurnEnd svc1 s now) as [svc2 [tr|]]; cbn [fst snd] in *.
    + destruct Hcheck as (-> & Hcb & Hdone & Hsrc & Hts).
      assert (state_of
                (assign (state_ref svc s) (set_currentText [])
                        (resetState svc1 s)) s = createInitialState) as Hs.
      { unfold state_of. rewrite state_ref_assign, resetState_fresh.
        rewrite deref_assign_ne by (rewrite <- Href; lia).
        apply deref_resetState_fresh. }
      split; [by apply wf_assign, wf_resetState|].
      split; [by destruct s|]. split; [by destruct s|].
      split.
      { unfold state_of.
        rewrite state_ref_assign, resetState_other, Href.
        rewrite deref_assign_ne by done.
        rewrite deref_resetState_old
          by (rewrite <- Href; by apply state_ref_lt).
        unfold state_of in Hother. by rewrite Href in Hother. }
      split; [intros Hno; congruence|].
      split; [done|]. intros _. by rewrite Hs.
    + subst svc2.
      assert (state_of (assign (state_ref svc s) (set_currentText []) svc1) s
              = set_currentText [] (state_of svc1 s)) as Hs.
      { unfold state_of. rewrite state_ref_assign, Href.
        apply deref_assign_eq. by rewrite <- Href. }
      split; [by apply wf_assign|]. do 2 (split; [done|]).
      split.
      { unfold state_of. rewrite state_ref_assign, Href.
        rewrite deref_assign_ne by done.
        unfold state_of in Hother. by rewrite Href in Hother. }
      split; [done|]. split; [done|]. intros _.
      by rewrite Hs, Hstate.
  - subst out. unfold processTranscription. rewrite Hfinal. cbn [fst snd].
    split; [by repeat apply wf_assign|]. do 2 (split; [done|]).
    split.
    { unfold state_of. rewrite !state_ref_assign.
      by rewrite !deref_assign_ne. }
    split; [done|]. split; [|done]. intros _. split; [done|].
    unfold state_of. rewrite !state_ref_assign. fold s.
    by rewrite !deref_assign_eq by (by rewrite ?length_objects_assign).
Qed.

Lemma processTranscription_state_witness :
  wf listening
  ∧ state_of (processTranscription listening a_question 1234).1
             Transcription.system
    = state_of listening Transcription.system.
Proof.
  assert (wf listening) as Hwf by (unfold wf; cbn; lia).
  split; [exact Hwf|].
  exact (proj1 (proj2 (proj2 (proj2
           (processTranscription_state listening a_question 1234 Hwf))))).
Defined.

End smart_turn.

(** ** The audio pipeline *)

Section audio_pipeline.
Import AudioPipeline.

Lemma js_inj s1 s2 : Js.js s1 = Js.js s2 → s1 = s2.
Proof.
  unfold Js.js. revert s2.
  induction s1 as [|c1 s1 IH]; intros [|c2 s2]; cbn; try done.
  intros [= Hc Hs]. f_equal; [|by apply IH].
  by rewrite <- (ascii_N_embedding c1), <- (ascii_N_embedding c2), Hc.
Qed.

Lemma segment_id_inj n m : segment_id n = segment_id m → n = m.
Proof.
  unfold segment_id. intros H%app_inv_head%js_inj.
  by apply (inj pretty) in H.
Qed.

Lemma handleTranscription_fields p r now :
  let isYou := is_you (Transcription.source r) in
  let p' := (handleTranscription p r now).1 in
  events p' = events p
  ∧ current_segment (negb isYou) p' = current_segment (negb isYou) p
  ∧ match current_segment isYou p with
    | None =>
        segmentCounter p' = (segmentCounter p + 1)%N
        ∧ transcripts p' = transcripts p
        ∧ current_segment isYou p' = Some (opened p r)
    | Some c =>
        segmentCounter p' = segmentCounter p
        ∧ if Transcription.isFinal r
          then transcripts p' = transcripts p ++ [updated c r]
               ∧ current_segment isYou p' = None
          else transcripts p' = transcripts p
               ∧ current_segment isYou p' = Some (updated c r)
    end.
Proof.
  intros isYou p'. subst p' isYou. unfold handleTranscription, opened.
  destruct r as [t final source ts]. cbn [Transcription.source].
  destruct (current_segment (is_you source) p) as [c|] eqn:Hc.
  - unfold updated. cbn [Transcription.isFinal].
    destruct final; cbv zeta;
      destruct (SmartTurn.processTranscription _ _ _) as [svc called];
      by destruct source.
  - cbv zeta.
    destruct (SmartTurn.processTranscription _ _ _) as [svc called].
    by destruct source.
Qed.

Lemma handleTranscription_ids p r now :
  let p' := (handleTranscription p r now).1 in
  match current_segment (is_you (Transcription.source r)) p with
  | None =>
      segmentCounter p' = (segmentCounter p + 1)%N
      ∧ id <$> held p' ≡ₚ segment_id (segmentCounter p + 1) :: (id <$> held p)
  | Some _ =>
      segmentCounter p' = segmentCounter p
      ∧ id <$> held p' ≡ₚ id <$> held p
  end.
Proof.
  intros p'. pose proof (handleTranscription_fields p r now) as H.
  fold p' in H. cbv zeta in H. destruct H as (_ & Hother & H).
  unfold held.
  destruct (Transcription.source r); cbn [is_you negb current_segment] in *.
  - destruct (currentMicSegment p) as [c|].
    + destruct H as [Hn H]. split; [done|].
      destruct (Transcription.isFinal r); destruct H as [-> ->];
        rewrite Hother, !fmap_app; cbn; [|done].
      by rewrite <- app_assoc.
    + destruct H as (Hn & -> & ->). split; [done|].
      rewrite Hother, !fmap_app. cbn. by rewrite <- Permutation_middle.
  - destruct (currentSystemSegment p) as [c|].
    + destruct H as [Hn H]. split; [done|].
      destruct (Transcription.isFinal r); destruct H as [-> ->];
        rewrite Hother, !fmap_app; cbn; [|done].
      rewrite !app_nil_r, <- !app_assoc.
      apply Permutation_app_head, Permutation_app_comm.
    + destruct H as (Hn & -> & ->). split; [done|].
      rewrite Hother, !fmap_app. cbn.
      rewrite app_nil_r, app_assoc. by rewrite <- Permutation_cons_append.
Qed.

Lemma ids_issued_handleTranscription p r now :
  ids_issued p → ids_issued (handleTranscription p r now).1.
Proof.
  intros [Hnodup Hissued].
  pose proof (handleTranscription_ids p r now) as H. cbv zeta in H.
  unfold ids_issued.
  destruct (current_segment _ p); destruct H as [Hn Hperm];
    rewrite Hn; setoid_rewrite Hperm.
  - done.
  - split.
    + apply NoDup_cons. split; [|done].
      intros (k & Hk & Heq%segment_id_inj)%Hissued. lia.
    + intros i [->|Hi]%elem_of_cons.
      * exists (segmentCounter p + 1)%N. split; [lia|done].
      * destruct (Hissued i Hi) as (k & Hk & ->). exists k. split; [lia|done].
Qed.

Lemma ids_issued_step p op : ids_issued p → ids_issued (step p op).
Proof.
  intros Hp. destruct op as [r now|h| | |]; cbn [step].
  - by apply ids_issued_handleTranscription.
  - done.
  - split; [apply NoDup_nil_2|]. by intros i ?%elem_of_nil.
  - done.
  - destruct Hp as [Hnodup Hissued]. unfold ids_issued, destroy, held in *.
    cbn in *. rewrite fmap_app in Hnodup. split.
    + by apply NoDup_app in Hnodup as (_ & _ & ?).
    + intros i Hi. apply Hissued. rewrite fmap_app, elem_of_app. by right.
Qed.

Lemma ids_issued_run p ops : ids_issued p → ids_issued (run p ops).
Proof.
  revert p. induction ops as [|op ops IH]; intros p Hp; [done|].
  apply IH. by apply ids_issued_step.
Qed.

(** The history holds closed segments only. *)
Lemma closed_step p op :
  Forall (λ s, isFinal s = true ∧ is_Some (endTime s)) (transcripts p) →
  Forall (λ s, isFinal s = true ∧ is_Some (endTime s)) (transcripts (step p op)).
Proof.
  intros Hp. destruct op as [r now|h| | |]; cbn [step]; try done.
  pose proof (handleTranscription_fields p r now) as H. cbv zeta in H.
  destruct H as (_ & _ & H).
  destruct (current_segment _ p) as [c|].
  - destruct H as [_ H]. destruct (Transcription.isFinal r) eqn:Hfinal.
    + destruct H as [-> _]. apply Forall_app. split; [done|].
      apply Forall_singleton. unfold updated. rewrite Hfinal. by cbn.
    + by destruct H as [-> _].
  - by destruct H as (_ & -> & _).
Qed.

Lemma closed_run p ops :
  Forall (λ s, isFinal s = true ∧ is_Some (endTime s)) (transcripts p) →
  Forall (λ s, isFinal s = true ∧ is_Some (endTime s))
         (transcripts (run p ops)).
Proof.
  revert p. induction ops as [|op ops IH]; intros p Hp; [done|].
  apply IH. by apply closed_step.
Qed.

(** X12: in every pipeline the application can reach from a new one, by
    transcriptions handled, handlers set, histories cleared, stops and a
    destroy, the segments of the history and the open ones have pairwise
    distinct ids, each `seg-k` for a k from 1 to the counter, and every
    segment of the history is final and has an end time. *)
Theorem pipeline_segment_ids_distinct ops :
  let p := run new ops in
  NoDup (id <$> held p)
  ∧ (∀ segment, segment ∈ held p →
       ∃ k, (0 < k ≤ segmentCounter p)%N ∧ id segment = segment_id k)
  ∧ Forall (λ segment, isFinal segment = true ∧ is_Some (endTime segment))
           (getTranscripts p).
Proof.
  intros p.
  assert (ids_issued p) as [Hnodup Hissued].
  { apply ids_issued_run. split; [apply NoDup_nil_2|].
    by intros i ?%elem_of_nil. }
  split; [done|]. split.
  - intros segment Hs. apply Hissued. by apply list_elem_of_fmap_2.
  - apply closed_run, Forall_nil_2.
Qed.

Lemma run_finals_of_one_source s rns :
  Forall (λ rn, Transcription.isFinal rn.1 = true
                ∧ Transcription.source rn.1 = s) rns →
  ∀ p,
    summary <$> transcripts (run p (handles rns)) =
    (summary <$> transcripts p)
    ++ match current_segment (is_you s) p with
       | None => paired rns.*1
       | Some c =>
           match rns.*1 with
           | r :: rs =>
               (Transcription.text r, startTime c,
                Some (Transcription.timestamp r)) :: paired rs
           | [] => []
           end
       end.
Proof.
  induction 1 as [|[r now] rns [Hfinal Hs] _ IH]; intros p.
  { cbn. destruct (current_segment _ p); by rewrite app_nil_r. }
  cbn [handles fmap list_fmap run foldl step fst snd] in *.
  fold (handles rns). fold (run (handleTranscription p r now).1 (handles rns)).
  rewrite IH. clear IH.
  pose proof (handleTranscription_fields p r now) as H. cbv zeta in H.
  rewrite Hs, Hfinal in H. destruct H as (_ & _ & H).
  destruct (current_segment (is_you s) p) as [c|].
  - destruct H as (_ & -> & ->). rewrite fmap_app, <- app_assoc.
    unfold updated, summary at 2. by rewrite Hfinal.
  - destruct H as (_ & -> & ->). f_equal.
Qed.

Lemma paired_twice
    (rns : list (Transcription.TranscriptionResult * PrimFloat.float)) :
  paired (rns ≫= λ rn, [rn; rn]).*1
  = (λ rn, (Transcription.text rn.1, Transcription.timestamp rn.1,
            Some (Transcription.timestamp rn.1))) <$> rns.
Proof. induction rns as [|rn rns IH]; [done|]. cbn. by rewrite <- IH. Qed.

(** X13: a final transcription that finds no open segment of its source
    opens one and is not recorded; the next one of the source closes it and
    is recorded under its own text.  So of final transcriptions of one
    source, handled from a state without an open segment of that source,
    the history gains one segment for every two: the text of the second,
    from the time of the first to the time of the second.  When each is
    handled twice in a row, every one is recorded once, starting and ending
    at its own time. *)
Theorem pipeline_final_transcriptions_pair_up p s rns :
  current_segment (is_you s) p = None →
  Forall (λ rn, Transcription.isFinal rn.1 = true
                ∧ Transcription.source rn.1 = s) rns →
  summary <$> getTranscripts (run p (handles rns))
  = (summary <$> getTranscripts p) ++ paired rns.*1
  ∧ summary <$> getTranscripts (run p (handles (rns ≫= λ rn, [rn; rn])))
    = (summary <$> getTranscripts p)
      ++ ((λ rn, (Transcription.text rn.1, Transcription.timestamp rn.1,
                  Some (Transcription.timestamp rn.1))) <$> rns).
Proof.
  intros Hnone Hrns. unfold getTranscripts. split.
  - by rewrite (run_finals_of_one_source s), Hnone.
  - rewrite (run_finals_of_one_source s), Hnone, paired_twice; [done|].
    apply Forall_bind. eapply Forall_impl; [exact Hrns|].
    intros rn Hrn. by repeat apply Forall_cons_2.
Qed.

Lemma handleTranscription_smartTurn p r now :
  smartTurn (handleTranscription p r now).1
  = (SmartTurn.processTranscription (smartTurn p) r now).1.
Proof.
  unfold handleTranscription.
  destruct (current_segment _ p) as [c|];
    [destruct (Transcription.isFinal r)|]; cbv zeta;
    cbn [smartTurn set_current set_transcripts set_segmentCounter];
    by destruct (SmartTurn.processTranscription (smartTurn p) r now).
Qed.

Lemma live_step p op : op ≠ Destroy → live p → live (step p op).
Proof.
  intros Hop (Hwf & Hcfg & Hcb). destruct op as [r now|h| | |]; try done.
  - cbn [step]. unfold live. rewrite handleTranscription_smartTurn.
    destruct (processTranscription_preserves (smartTurn p) r now Hwf)
      as (Hwf' & Hcfg' & Hcb').
    by rewrite Hcfg', Hcb'.
  - destruct (reset_preserves (smartTurn p) Hwf) as (Hwf' & Hcfg' & Hcb').
    unfold live. cbn [step stop smartTurn set_smartTurn].
    by rewrite Hcfg', Hcb'.
Qed.

Lemma live_run p ops : Destroy ∉ ops → live p → live (run p ops).
Proof.
  revert p. induction ops as [|op ops IH]; intros p Hops Hp; [done|].
  apply not_elem_of_cons in Hops as [Hop Hops].
  apply IH; [done|]. by apply live_step.
Qed.

Lemma live_new : live new.
Proof. unfold live, SmartTurn.wf. cbn. repeat split; lia. Qed.

(** The calls of a handled transcription: the segment first, when that
    handler is set, then what the turn detector reports, when that handler
    is set. *)
Lemma handleTranscription_calls p r now :
  ∃ segment,
    (handleTranscription p r now).2 =
    (if onTranscript (events p) then [Transcript segment] else [])
    ++ match (SmartTurn.processTranscription (smartTurn p) r now).2 with
       | Some turn => if onTurnEnd (events p) then [TurnEnd turn] else []
       | None => []
       end.
Proof.
  unfold handleTranscription.
  destruct (current_segment _ p) as [c|];
    [destruct (Transcription.isFinal r)|]; cbv zeta;
    cbn [smartTurn set_current set_transcripts set_segmentCounter];
    destruct (SmartTurn.processTranscription (smartTurn p) r now)
      as [svc called];
    eexists; reflexivity.
Qed.

Lemma pipeline_final_transcriptions_pair_up_witness :
  summary <$> getTranscripts (run new (handles two_finals))
  = [(Js.js "Shall we start", 1000%float, Some 2000%float)].
Proof.
  apply (proj1 (pipeline_final_transcriptions_pair_up
                  new Transcription.system two_finals eq_refl
                  ltac:(repeat constructor))).
Defined.

(** X14: in a pipeline reached from a new one without a destroy, whatever
    was handled before, the `onTurnEnd` handler is called for a
    transcription exactly when the handler is set, the transcription is
    final and its trimmed text ends with `.`, `!` or `?` or with a turn
    phrase; it is called at most once, after the `onTranscript` call, with
    the source of the transcription and the time of the call, and never
    with the reason `silence` or `continued`. *)
Theorem pipeline_turn_end_calls ops r now :
  Destroy ∉ ops →
  let p := run new ops in
  let calls := (handleTranscription p r now).2 in
  let t := Js.trim (Transcription.text r) in
  ((∃ turn, TurnEnd turn ∈ calls)
   ↔ onTurnEnd (events p) = true
     ∧ Transcription.isFinal r = true
     ∧ ((∃ u, last t = Some u ∧ u ∈ [46; 33; 63]%N)
        ∨ existsb (λ pattern, Js.test pattern t) SmartTurn.TURN_PHRASES
          = true))
  ∧ (∀ turn, TurnEnd turn ∈ calls →
       last calls = Some (TurnEnd turn)
       ∧ SmartTurn.source turn = Transcription.source r
       ∧ SmartTurn.timestamp turn = now
       ∧ SmartTurn.speakerDone turn = true
       ∧ SmartTurn.reason turn ∈ [SmartTurn.question; SmartTurn.turn_phrase;
                                  SmartTurn.sentence_complete])
  ∧ (length calls ≤ 2)%nat.
Proof.
  intros Hops p calls t.
  destruct (live_run new ops Hops live_new) as (Hwf & Hcfg & Hcb).
  fold p in Hwf, Hcfg, Hcb.
  destruct (handleTranscription_calls p r now) as [segment Hcalls].
  fold calls in Hcalls.
  destruct (processTranscription_default_reports (smartTurn p) r now
              Hwf Hcfg Hcb) as [Hiff Hfields].
  fold t in Hiff. rewrite <- Hiff. clear Hiff.
  destruct (SmartTurn.processTranscription (smartTurn p) r now).2
    as [turn|] eqn:Hcalled.
  - specialize (Hfields turn eq_refl). rewrite Hcalls. clear Hcalls.
    destruct (onTranscript (events p)), (onTurnEnd (events p));
      cbn [app length]; (split; [split|split; [|lia]]).
    all: try (intros [turn' Hin]; (split; [|by eexists]);
              repeat (apply elem_of_cons in Hin as [Hin|Hin]);
              by try apply elem_of_nil in Hin).
    all: try (by intros [[=] _]).
    all: try (intros _; exists turn; rewrite !elem_of_cons; by eauto).
    all: intros turn' Hin;
      repeat (apply elem_of_cons in Hin as [Hin|Hin]);
      try (by apply elem_of_nil in Hin); by simplify_eq.
  - rewrite Hcalls. clear Hcalls.
    destruct (onTranscript (events p)); cbn [app length];
      (split; [split|split; [|lia]]).
    all: try (intros [turn' Hin];
              repeat (apply elem_of_cons in Hin as [Hin|Hin]);
              by try apply elem_of_nil in Hin).
    all: try (by intros [_ [? [=]]]).
    all: intros turn' Hin;
      repeat (apply elem_of_cons in Hin as [Hin|Hin]);
      by try apply elem_of_nil in Hin.
Qed.

Lemma pipeline_turn_end_calls_witness :
  (length (handleTranscription (run new [Stop; ClearTranscripts])
                               a_question 1234).2 ≤ 2)%nat.
Proof.
  apply (pipeline_turn_end_calls [Stop; ClearTranscripts] a_question 1234).
  intros Hin. repeat (apply elem_of_cons in Hin as [Hin|Hin]; [done|]).
  by apply elem_of_nil in Hin.
Defined.

End audio_pipeline.

(** ** The live transcript *)

Section live_transcript.
Import LiveTranscript.

Lemma slice_last_app {A} n (l k : list A) :
  slice_last n (slice_last n l ++ k) = slice_last n (l ++ k).
Proof.
  unfold slice_last. rewrite !length_app, length_drop.
  replace (length l + length k - n)%nat
    with ((length l - n) + (length l - (length l - n) + length k - n))%nat
    by lia.
  rewrite <- drop_drop.
  by rewrite (drop_app_le l k (length l - n)) by lia.
Qed.

Lemma on_transcription_slice liveTranscript segment :
  (length liveTranscript ≤ 50)%nat →
  on_transcription liveTranscript segment =
  slice_last 50
    (liveTranscript ++ filter (λ s, is_final s = true) [segment]).
Proof.
  intros Hlen. unfold on_transcription.
  rewrite filter_cons, filter_nil.
  destruct (is_final segment) eqn:Hfinal.
  - rewrite decide_True by done. case_bool_decide; [done|].
    unfold slice_last.
    replace (length _ - 50)%nat with 0%nat by lia. done.
  - rewrite decide_False by done. rewrite app_nil_r. unfold slice_last.
    replace (length _ - 50)%nat with 0%nat by lia. done.
Qed.

Lemma length_slice_last {A} n (l : list A) :
  (length (slice_last n l) ≤ n)%nat.
Proof. unfold slice_last. rewrite length_drop. lia. Qed.

Lemma foldl_on_transcription segments liveTranscript :
  (length liveTranscript ≤ 50)%nat →
  foldl on_transcription liveTranscript segments =
  slice_last 50
    (liveTranscript ++ filter (λ s, is_final s = true) segments).
Proof.
  revert liveTranscript.
  induction segments as [|segment segments IH]; intros l Hlen.
  - cbn. rewrite app_nil_r. unfold slice_last.
    replace (length _ - 50)%nat with 0%nat by lia. done.
  - cbn [foldl]. rewrite on_transcription_slice by done.
    rewrite IH by apply length_slice_last.
    rewrite slice_last_app, <- app_assoc. f_equal. f_equal.
    by rewrite <- filter_app.
Qed.

(** X15: from an empty live transcript (as at the start and at each
    reset), after any events, `liveTranscript` is the last 50 of the final
    segments received, in the order received, and never holds more than
    50; segments that are not final leave it alone; and the banner lists
    the last 10 of the final segments received. *)
Theorem live_transcript_is_last_50 segments :
  let received := filter (λ s, is_final s = true) segments in
  let liveTranscript := foldl on_transcription [] segments in
  liveTranscript = slice_last 50 received
  ∧ (length liveTranscript ≤ 50)%nat
  ∧ shown liveTranscript = slice_last 10 received.
Proof.
  intros received l.
  assert (l = slice_last 50 received) as ->.
  { subst l. by rewrite foldl_on_transcription by (cbn; lia). }
  split; [done|]. split; [apply length_slice_last|].
  unfold shown, slice_last. rewrite drop_drop, length_drop. f_equal. lia.
Qed.

End live_transcript.

(** ** Tag fields *)

Section tag_fields.
Import KnowledgeView.

Lemma trimStart_nil_iff s :
  Js.trimStart s = [] ↔ Forall (λ u, Js.is_white_space u = true) s.
Proof.
  induction s as [|u s IH]; [done|]. cbn.
  destruct (Js.is_white_space u) eqn:Hu.
  - rewrite IH, Forall_cons. tauto.
  - split; [done|]. intros [? _]%Forall_cons. congruence.
Qed.

Lemma trimStart_app_keep l k :
  Js.trimStart l ≠ [] → Js.trimStart (l ++ k) = Js.trimStart l ++ k.
Proof.
  induction l as [|u l IH]; [done|]. cbn.
  by destruct (Js.is_white_space u).
Qed.

Lemma trimStart_app_drop l k :
  Forall (λ u, Js.is_white_space u = true) l →
  Js.trimStart (l ++ k) = Js.trimStart k.
Proof.
  induction 1 as [|u l Hu _ IH]; [done|]. cbn. by rewrite Hu.
Qed.

Lemma trimStart_idemp s : Js.trimStart (Js.trimStart s) = Js.trimStart s.
Proof.
  induction s as [|u s IH]; [done|]. cbn.
  destruct (Js.is_white_space u) eqn:Hu; [done|]. cbn. by rewrite Hu.
Qed.

Lemma trimStart_sublist s u : u ∈ Js.trimStart s → u ∈ s.
Proof.
  induction s as [|v s IH]; [done|]. cbn.
  destruct (Js.is_white_space v); [|done].
  intros Hin. apply elem_of_cons. right. by apply IH.
Qed.

Lemma trimEnd_nil_iff s :
  Js.trimEnd s = [] ↔ Forall (λ u, Js.is_white_space u = true) s.
Proof.
  unfold Js.trimEnd.
  rewrite <- (reverse_involutive []), (inj_iff reverse).
  change (reverse []) with (@nil N).
  by rewrite trimStart_nil_iff, Forall_reverse.
Qed.

Lemma trimEnd_sublist s u : u ∈ Js.trimEnd s → u ∈ s.
Proof.
  unfold Js.trimEnd. rewrite elem_of_reverse.
  intros Hin%trimStart_sublist. by apply elem_of_reverse.
Qed.

Lemma trim_sublist s u : u ∈ Js.trim s → u ∈ s.
Proof. by intros ?%trimEnd_sublist%trimStart_sublist. Qed.

Lemma trim_nil_iff s :
  Js.trim s = [] ↔ Forall (λ u, Js.is_white_space u = true) s.
Proof.
  unfold Js.trim.
  rewrite trimEnd_nil_iff, <- (trimStart_nil_iff (Js.trimStart s)).
  rewrite trimStart_idemp. apply trimStart_nil_iff.
Qed.

(** Trimming the end keeps a start that is trimmed. *)
Lemma trimStart_trimEnd s :
  Js.trimStart s = s → Js.trimStart (Js.trimEnd s) = Js.trimEnd s.
Proof.
  intros Hs. unfold Js.trimEnd.
  destruct (Js.trimStart (reverse s)) as [|v t] eqn:Ht; [done|].
  assert (∃ ws, reverse s = ws ++ v :: t) as [ws Hws].
  { clear Hs. revert Ht. generalize (reverse s). intros l.
    induction l as [|u l IH]; [done|]. cbn.
    destruct (Js.is_white_space u).
    - intros [ws ->]%IH. by exists (u :: ws).
    - intros <-. by exists []. }
  apply (f_equal reverse) in Hws.
  rewrite reverse_involutive, reverse_app in Hws.
  rewrite Hws in Hs.
  destruct (reverse (v :: t)) as [|w r] eqn:Hr.
  { apply (f_equal length) in Hr. rewrite length_reverse in Hr. done. }
  cbn in Hs |- *. destruct (Js.is_white_space w) eqn:Hw; [|done].
  exfalso. apply (f_equal length) in Hs.
  assert (length (Js.trimStart (r ++ reverse ws))
          ≤ length (r ++ reverse ws))%nat as Hle.
  { generalize (r ++ reverse ws). intros l.
    induction l as [|u l IH]; [done|]. cbn.
    destruct (Js.is_white_space u); cbn; lia. }
  cbn in Hs. lia.
Qed.

Lemma trim_idemp s : Js.trim (Js.trim s) = Js.trim s.
Proof.
  unfold Js.trim.
  rewrite (trimStart_trimEnd (Js.trimStart s)) by apply trimStart_idemp.
  unfold Js.trimEnd. by rewrite reverse_involutive, trimStart_idemp.
Qed.

Lemma split_pieces sep s (P : N → Prop) :
  Forall (Forall P) (split sep s) ↔ Forall (λ u, u = sep ∨ P u) s.
Proof.
  induction s as [|u s IH].
  - cbn. split; [done|]. intros _. by repeat constructor.
  - cbn [split]. rewrite Forall_cons, <- IH. clear IH.
    destruct (N.eqb_spec u sep) as [->|Hne].
    + rewrite Forall_cons. split; [tauto|]. intros [_ ?]. by split.
    + destruct (split sep s) as [|piece pieces].
      * rewrite !Forall_cons. split.
        -- intros [[Hu _] _]. split; [by right|done].
        -- intros [[?|Hu] _]; [done|]. by repeat constructor.
      * rewrite !Forall_cons. split.
        -- intros [[Hu Hp] Hps]. split; [by right|done].
        -- intros [[?|Hu] [Hp Hps]]; [done|]. done.
Qed.

Lemma truthy_true s : truthy s = true ↔ s ≠ [].
Proof. by destruct s. Qed.

(** X16: the tags read from a tag field are the pieces between commas,
    trimmed, without the empty ones.  Every tag is non-empty, holds no
    comma and is trimmed; there is no tag exactly when the field holds
    only white space and commas.  The search filter is `null` exactly when
    the field is blank, so a field of commas gives the empty list, not
    `null`; and for a crawl the test for a blank field changes nothing. *)
Theorem split_tags_trimmed input :
  Forall (λ tag, tag ≠ [] ∧ (44%N ∉ tag) ∧ Js.trim tag = tag)
         (split_tags input)
  ∧ (split_tags input = []
     ↔ Forall (λ u, u = 44%N ∨ Js.is_white_space u = true) input)
  ∧ (search_tags input = None
     ↔ Forall (λ u, Js.is_white_space u = true) input)
  ∧ crawl_tags input = split_tags input.
Proof.
  assert (split_tags input = []
          ↔ Forall (λ u, u = 44%N ∨ Js.is_white_space u = true) input)
    as Hnone.
  { rewrite <- split_pieces. unfold split_tags.
    generalize (split 44 input). intros pieces.
    induction pieces as [|piece pieces IH]; [done|].
    rewrite fmap_cons, filter_cons, Forall_cons, <- IH, <- trim_nil_iff.
    destruct (decide _) as [Ht|Ht].
    - split; [done|]. intros [Hp _]. by rewrite Hp in Ht.
    - destruct (Js.trim piece); [tauto|done]. }
  split; [|split; [done|split]].
  - unfold split_tags. apply Forall_forall. intros tag.
    rewrite list_elem_of_filter, list_elem_of_fmap.
    intros [Htag (piece & -> & Hpiece)].
    split; [by apply truthy_true|]. split; [|apply trim_idemp].
    intros Hin%trim_sublist.
    assert (Forall (Forall (λ u, u ≠ 44%N)) (split 44 input)) as Hno.
    { apply split_pieces. apply Forall_forall. intros u _.
      destruct (decide (u = 44%N)); [by left|by right]. }
    rewrite Forall_forall in Hno. specialize (Hno piece Hpiece).
    rewrite Forall_forall in Hno. by apply (Hno 44%N).
  - unfold search_tags. rewrite <- trim_nil_iff.
    by destruct (Js.trim input).
  - unfold crawl_tags. destruct (Js.trim input) eqn:Ht; [|done]. cbn.
    symmetry. apply Hnone. apply trim_nil_iff in Ht.
    eapply Forall_impl; [exact Ht|]. intros u Hu. by right.
Qed.

End tag_fields.

(** ** Turn phrases *)

Lemma search_spec i re t :
  Js.search i re t = true
  ↔ ∃ before after, t = before ++ after ∧ Js.match_here i re after = true.
Proof.
  induction t as [|u t IH].
  - cbn [Js.search]. rewrite orb_false_r. split.
    + intros H. by exists [], [].
    + intros (before & after & Ht & H).
      symmetry in Ht. apply app_eq_nil in Ht as [_ ->]. done.
  - cbn [Js.search]. rewrite orb_true_iff, IH. clear IH. split.
    + intros [H|(before & after & -> & H)].
      * by exists [], (u :: t).
      * by exists (u :: before), after.
    + intros ([|v before] & after & Ht & H).
      * left. by rewrite Ht.
      * right. injection Ht as -> ->. by exists before, after.
Qed.

Lemma match_here_chars i cs rest t :
  Js.match_here i ((Js.Char <$> cs) ++ rest) t = true
  ↔ ∃ a b, t = a ++ b
           ∧ Forall2 (λ u c, Js.same i u c = true) a cs
           ∧ Js.match_here i rest b = true.
Proof.
  revert t. induction cs as [|c cs IH]; intros t.
  - cbn. split.
    + intros H. exists [], t. by repeat split.
    + intros (a & b & -> & ->%Forall2_nil_inv_r & H). done.
  - cbn [fmap list_fmap app Js.match_here]. destruct t as [|u t].
    + split; [done|]. intros (a & b & Ht & Ha & _).
      symmetry in Ht. apply app_eq_nil in Ht as [-> _].
      by apply Forall2_nil_inv_l in Ha.
    + rewrite andb_true_iff.
      change (list_fmap N Js.Atom Js.Char cs) with (Js.Char <$> cs).
      rewrite IH. split.
      * intros (Hu & a & b & -> & Ha & Hb).
        exists (u :: a), b. repeat split; [by constructor|done].
      * intros (a & b & Ht & Ha & Hb).
        apply Forall2_cons_inv_r in Ha as (u' & a' & Hu & Ha' & ->).
        injection Ht as -> ->. split; [done|]. by exists a', b.
Qed.

Lemma same_true_canonicalize a cs :
  Forall2 (λ u c, Js.same true u c = true) a cs
  ↔ Js.canonicalize <$> a = Js.canonicalize <$> cs.
Proof.
  revert cs. induction a as [|u a IH]; intros [|c cs]; cbn.
  - split; [done|constructor].
  - split; [by intros ?%Forall2_nil_inv_l|done].
  - split; [by intros ?%Forall2_nil_inv_r|done].
  - rewrite Forall2_cons, IH. unfold Js.same. rewrite N.eqb_eq. split.
    + by intros [-> ->].
    + by intros [= -> ->].
Qed.

Lemma test_phrase_optional s c t :
  Js.test {| Js.atoms := Js.lit s ++ [Js.Optional c; Js.EndOfInput];
             Js.ignoreCase := true |} t = true
  ↔ SmartTurn.ends_with_ignoring_case t (Js.js s)
    ∨ SmartTurn.ends_with_ignoring_case t (Js.js s ++ [c]).
Proof.
  unfold Js.test, SmartTurn.ends_with_ignoring_case, Js.lit.
  cbn [Js.atoms Js.ignoreCase]. rewrite search_spec.
  setoid_rewrite match_here_chars. setoid_rewrite same_true_canonicalize.
  split.
  - intros (before & after & -> & a & b & -> & Ha & Hb).
    destruct b as [|u b]; [left|right].
    + exists before, (a ++ []). by rewrite app_nil_r.
    + cbn in Hb. rewrite orb_false_r in Hb.
      apply andb_true_iff in Hb as [Hu Hb]. destruct b; [|done].
      exists before, (a ++ [u]). split; [done|].
      rewrite !fmap_app, Ha. cbn. f_equal. f_equal.
      by apply N.eqb_eq in Hu.
  - intros [(before & after & -> & Ha)|(before & after & -> & Ha)].
    + exists before, after. split; [done|]. exists after, [].
      by rewrite app_nil_r.
    + rewrite fmap_app in Ha. cbn in Ha.
      destruct (decide (after = [])) as [->|Hne].
      { by destruct (Js.canonicalize <$> Js.js s). }
      destruct (exists_last Hne) as (a & u & ->). clear Hne.
      rewrite fmap_app in Ha. cbn in Ha.
      apply app_inj_tail in Ha as [Ha Hu].
      exists before, (a ++ [u]). split; [done|]. exists a, [u].
      repeat split; [done|]. cbn. unfold Js.same.
      by rewrite Hu, N.eqb_refl.
Qed.

Lemma test_phrase_char s c t :
  Js.test {| Js.atoms := Js.lit s ++ [Js.Char c; Js.EndOfInput];
             Js.ignoreCase := true |} t = true
  ↔ SmartTurn.ends_with_ignoring_case t (Js.js s ++ [c]).
Proof.
  unfold Js.test, SmartTurn.ends_with_ignoring_case, Js.lit.
  cbn [Js.atoms Js.ignoreCase]. rewrite search_spec.
  setoid_rewrite match_here_chars. setoid_rewrite same_true_canonicalize.
  split.
  - intros (before & after & -> & a & b & -> & Ha & Hb).
    destruct b as [|u b]; [done|]. cbn in Hb.
    apply andb_true_iff in Hb as [Hu Hb]. destruct b; [|done].
    exists before, (a ++ [u]). split; [done|].
    rewrite !fmap_app, Ha. cbn. f_equal. f_equal.
    by apply N.eqb_eq in Hu.
  - intros (before & after & -> & Ha).
    rewrite fmap_app in Ha. cbn in Ha.
    destruct (decide (after = [])) as [->|Hne].
    { by destruct (Js.canonicalize <$> Js.js s). }
    destruct (exists_last Hne) as (a & u & ->). clear Hne.
    rewrite fmap_app in Ha. cbn in Ha.
    apply app_inj_tail in Ha as [Ha Hu].
    exists before, (a ++ [u]). split; [done|]. exists a, [u].
    repeat split; [done|]. cbn. unfold Js.same.
    by rewrite Hu, N.eqb_refl.
Qed.

(** X17: the turn phrases, as endings.  Some expression of `TURN_PHRASES`
    matches a text exactly when the text ends, up to the case of ASCII
    letters, with one of sixteen endings: each of the first seven phrases
    with or without its mark, and `you know?` and `right?` with the
    question mark only.  Nothing may follow the ending, and no letter
    outside ASCII stands for an ASCII one. *)
Theorem turn_phrases_are_endings t :
  existsb (λ pattern, Js.test pattern t) SmartTurn.TURN_PHRASES = true
  ↔ Exists (SmartTurn.ends_with_ignoring_case t)
           SmartTurn.turn_phrase_endings.
Proof.
  unfold SmartTurn.TURN_PHRASES, SmartTurn.turn_phrase_endings.
  cbn [existsb fmap list_fmap].
  rewrite orb_false_r, !orb_true_iff.
  rewrite !test_phrase_optional, !test_phrase_char.
  rewrite !Exists_cons, Exists_nil.
  tauto.
Qed.
